(** * hi-supabase: the keep-alive scaffolding CLI and its data-access module

    A shallow embedding of the command-line script (provisioning with
    [init], removal with [uninstall]) and of [supabase.ts] (client
    construction and the four chatbot queries), followed by the properties
    the specification states about them.

    The script talks to the world through [fs-extra], [process.env],
    [child_process] and the console, and [supabase.ts] through the
    Supabase client.  These collaborators are modelled explicitly:
    - the project tree is a finite map from paths to nodes;
    - every library call may raise an error, either because of the state of
      the tree or because the environment injects a failure;
    - the console is a list of events, one constructor per message of the
      script;
    - the remote store is a function from the history of requests and the
      current request to a response. *)

From Stdlib Require Import Ascii.
From stdpp Require Import base option list strings gmap fin_maps.

Open Scope string_scope.
Open Scope list_scope.
Open Scope nat_scope.

(** ** JavaScript values the script manipulates *)

Module Js.

(** A thrown [Error]: the optional [code] property ([err.code]) and the
    [message]. *)
Record error := Error { code : option string; message : string }.

(** How an [async] function ends: it resolves with a value or rejects
    with what was thrown. *)
Inductive completion (E A : Type) :=
| Resolved (a : A)
| Rejected (e : E).
Arguments Resolved {E A} a.
Arguments Rejected {E A} e.

(** [!v] for a string read from [process.env]: [undefined] and the empty
    string are falsy. *)
Definition falsy (v : option string) : bool :=
  match v with
  | None => true
  | Some s => bool_decide (s = "")
  end.

(** [a.includes(x)] on an array of strings. *)
Definition includes (a : list string) (x : string) : bool :=
  bool_decide (x ∈ a).

End Js.

(** ** The project tree and the [fs-extra] calls the script makes *)

Module FsExtra.
Import Js.

(** A path below [projectRoot], as its list of segments; [[]] is
    [projectRoot] itself. *)
Abbreviation path := (list string).

Inductive node :=
| File (content : string)
| Dir.

Abbreviation tree := (gmap path node).

(** Splitting a relative POSIX path at ["/"]. *)
Fixpoint segments (s cur : string) : list string :=
  match s with
  | EmptyString => [cur]
  | String c s' =>
      if Ascii.eqb c "/"%char then cur :: segments s' ""
      else segments s' (cur +:+ String c "")
  end.

(** [path.join(projectRoot, rel)]: empty and ["."] segments vanish. *)
Definition join (rel : string) : path :=
  filter (λ s, s ≠ "" ∧ s ≠ ".") (segments rel "").

(** [path.dirname]. *)
Definition dirname (p : path) : path := take (length p - 1) p.

(** The calls that can fail for reasons outside the tree (permissions,
    a full disk, a broken device). *)
Inductive fsop :=
| OpEnsureDir (p : path)
| OpCopy (src : string) (dest : path)
| OpRemove (p : path)
| OpReaddir (p : path)
| OpReadJson (p : path).

Record copy_options := { overwrite : bool; errorOnExist : bool }.

(** [package.json] as far as the script reads it: the names declared
    (with a truthy version) under each of the two keys. *)
Record package_json := {
  dependencies : list string;
  devDependencies : list string
}.

(** What surrounds one run of the script. *)
Record environment := {
  (** the files of [templatesDir], by name *)
  templates : string → option string;
  (** failures injected by the operating system *)
  fault : fsop → option error;
  (** the error [fs.copy] raises for an existing destination under
      [errorOnExist]; the one of fs-extra is [already_exists] *)
  exists_error : path → error;
  (** [process.env] after [dotenv.config()] *)
  process_env : string → option string;
  (** the JSON parser applied to the text of [package.json] *)
  parse_package : string → option package_json;
  (** the package manager started by [execSync] *)
  execSync : string → tree → error + tree
}.

Definition ENOENT (what : string) : error :=
  Error (Some "ENOENT") ("ENOENT: no such file or directory, " +:+ what).
Definition ENOTDIR (what : string) : error :=
  Error (Some "ENOTDIR") ("ENOTDIR: not a directory, " +:+ what).
Definition EEXIST (what : string) : error :=
  Error (Some "EEXIST") ("EEXIST: file already exists, " +:+ what).
Definition EISDIR (what : string) : error :=
  Error (Some "EISDIR") ("EISDIR: illegal operation on a directory, " +:+ what).
Definition not_a_file (what : string) : error :=
  Error None ("Cannot overwrite directory with non-directory: " +:+ what).
Definition bad_json (what : string) : error :=
  Error None (what +:+ ": Unexpected token in JSON").

(** The refusal of [fs.copy] under [errorOnExist]: fs-extra throws
    [new Error("'dest' already exists")], which has a message and no
    [code]. *)
Definition already_exists (what : string) : error :=
  Error None ("'" +:+ what +:+ "' already exists").

Definition show (p : path) : string := String.concat "/" p.

(** [projectRoot] is the current directory of the process, so it exists. *)
Definition stat (t : tree) (p : path) : option node :=
  match p with
  | [] => Some Dir
  | _ => t !! p
  end.

Definition existsSync (t : tree) (p : path) : bool :=
  match stat t p with
  | Some _ => true
  | None => false
  end.

(** [mkdir -p]: walk down from [base], creating what is missing; a file
    in the way is an error and nothing is created. *)
Fixpoint mkdirs_from (base rest : path) (t : tree) : error + tree :=
  match rest with
  | [] => inr t
  | c :: rest' =>
      let d := base ++ [c] in
      match t !! d with
      | Some Dir => mkdirs_from d rest' t
      | Some (File _) =>
          inl (match rest' with
               | [] => EEXIST (show d)
               | _ => ENOTDIR (show d)
               end)
      | None => mkdirs_from d rest' (<[d := Dir]> t)
      end
  end.

Definition mkdirs (p : path) (t : tree) : error + tree :=
  mkdirs_from [] p t.

(** The names directly below [p]. *)
Definition is_child (p q : path) : Prop := q ≠ [] ∧ dirname q = p.

Global Instance is_child_dec p q : Decision (is_child p q).
Proof. unfold is_child. apply _. Defined.

Definition children (p : path) (t : tree) : list path :=
  filter (is_child p) (map_to_list t).*1.

Section calls.
Variable env : environment.

(** [fs.ensureDir(p)] *)
Definition ensureDir (p : path) (t : tree) : error + tree :=
  match fault env (OpEnsureDir p) with
  | Some e => inl e
  | None => mkdirs p t
  end.

(** [fs.copy(templatesDir/src, dest, opts)] for a template file. *)
Definition copy (src : string) (dest : path) (opts : copy_options)
    (t : tree) : error + tree :=
  match fault env (OpCopy src dest) with
  | Some e => inl e
  | None =>
      match templates env src with
      | None => inl (ENOENT src)
      | Some c =>
          let write t :=
            match mkdirs (dirname dest) t with
            | inl e => inl e
            | inr t' => inr (<[dest := File c]> t')
            end in
          match stat t dest with
          | None => write t
          | Some Dir => inl (not_a_file (show dest))
          | Some (File _) =>
              if overwrite opts then write (delete dest t)
              else if errorOnExist opts then inl (exists_error env dest)
              else inr t
          end
      end
  end.

(** [fs.remove(p)]: [rm -rf], silent when [p] is absent. *)
Definition remove (p : path) (t : tree) : error + tree :=
  match fault env (OpRemove p) with
  | Some e => inl e
  | None => inr (filter (λ kv, ¬ p `prefix_of` kv.1) t)
  end.

(** [fs.readdir(p)] *)
Definition readdir (p : path) (t : tree) : error + list string :=
  match fault env (OpReaddir p) with
  | Some e => inl e
  | None =>
      match stat t p with
      | None => inl (ENOENT (show p))
      | Some (File _) => inl (ENOTDIR (show p))
      | Some Dir => inr (omap last (children p t))
      end
  end.

(** [fs.readJsonSync(p)] for [package.json]. *)
Definition readJsonSync (p : path) (t : tree) : error + package_json :=
  match fault env (OpReadJson p) with
  | Some e => inl e
  | None =>
      match stat t p with
      | None => inl (ENOENT (show p))
      | Some Dir => inl (EISDIR (show p))
      | Some (File c) =>
          match parse_package env c with
          | Some j => inr j
          | None => inl (bad_json (show p))
          end
      end
  end.

End calls.

End FsExtra.

(** ** The command-line script *)

Module Cli.
Import Js FsExtra.

(** One constructor per message the script prints; the comment gives the
    line of the script. *)
Inductive event :=
| LogInitializing                               (* 112 *)
| WarnEnvMissing                                (* 119-120 *)
| LogEnvFound                                   (* 122 *)
| LogCreated (msg : string)                     (* 136 *)
| LogSkipped (dest : string)                    (* 139 *)
| ErrCopy (src message : string)                (* 141 *)
| LogClientFound                                (* 79 *)
| WarnClientElsewhere (p : string)              (* 92 *)
| LogClientCreated                              (* 105 *)
| ErrClient (message : string)                  (* 107 *)
| LogInstalling (deps : list string) (pm : string) (* 62 *)
| LogInstalled                                  (* 67 *)
| ErrInstall                                    (* 69 *)
| LogSetupComplete                              (* 152-155 *)
| LogUninstalling                               (* 159 *)
| LogDeleted (file : string)                    (* 174 *)
| ErrDelete (file message : string)             (* 176 *)
| LogNotFound (file : string)                   (* 179 *)
| LogRemovedDir (dir : string)                  (* 195 *)
| LogUninstallComplete                          (* 200-203 *)
| ErrUnexpectedUninstall (e : error)            (* 210 *)
| ErrUnexpected (e : error).                    (* 215 *)

(** The state a run acts on: the project tree and what was printed. *)
Record world := World { fs : tree; console : list event }.

(** An effectful computation: it changes the world and resolves or
    rejects.  Effects made before a rejection stay. *)
Definition M (A : Type) : Type := world → completion error A * world.

Global Instance M_ret : MRet M := λ A a w, (Resolved a, w).

Global Instance M_bind : MBind M := λ A B k m w,
  match m w with
  | (Resolved a, w') => k a w'
  | (Rejected e, w') => (Rejected e, w')
  end.

(** [try { body } catch (err) { handler }] *)
Definition try_catch {A} (body : M A) (handler : error → M A) : M A :=
  λ w,
    match body w with
    | (Resolved a, w') => (Resolved a, w')
    | (Rejected e, w') => handler e w'
    end.

(** [for (const x of l) { body }] *)
Fixpoint for_of {A} (l : list A) (body : A → M unit) : M unit :=
  match l with
  | [] => mret tt
  | x :: l' => body x ;; for_of l' body
  end.

(** [console.log], [console.warn], [console.error] *)
Definition print (ev : event) : M unit :=
  λ w, (Resolved tt, World (fs w) (console w ++ [ev])).

(** A library call that changes the tree, and one that only reads it. *)
Definition call (f : tree → error + tree) : M unit :=
  λ w,
    match f (fs w) with
    | inl e => (Rejected e, w)
    | inr t => (Resolved tt, World t (console w))
    end.

Definition read {A} (f : tree → error + A) : M A :=
  λ w,
    match f (fs w) with
    | inl e => (Rejected e, w)
    | inr a => (Resolved a, w)
    end.

Definition exists_ (p : path) : M bool :=
  λ w, (Resolved (existsSync (fs w) p), w).

Record manifest_entry := Entry { src : string; dest : string; msg : string }.

Definition filesToCopy : list manifest_entry := [
  Entry "route.ts" "app/api/keep-alive/route.ts"
        "Created API route at app/api/keep-alive/route.ts";
  Entry "keepAliveUtils.ts" "app/api/keep-alive/keepAliveUtils.ts"
        "Created utils at app/api/keep-alive/keepAliveUtils.ts";
  Entry "keep-alive-config.ts" "config/keep-alive-config.ts"
        "Created config at config/keep-alive-config.ts";
  Entry "keep-alive.sql" "keep-alive.sql"
        "Created SQL script at keep-alive.sql";
  Entry "vercel.json" "vercel.json"
        "Created vercel.json at vercel.json"
].

Definition commonPaths : list string := [
  "utils/supabase/server.ts";
  "lib/supabase/client.ts";
  "utils/supabase/client.ts"
].

Definition filesToDelete : list string := [
  "app/api/keep-alive/route.ts";
  "app/api/keep-alive/keepAliveUtils.ts";
  "config/keep-alive-config.ts";
  "keep-alive.sql";
  "vercel.json"
].

Definition dirsToClean : list string := [
  "app/api/keep-alive";
  "config"
].

Definition requiredDeps : list string := ["@supabase/supabase-js"].

Definition no_overwrite : copy_options :=
  {| overwrite := false; errorOnExist := true |}.

(** What [fs.copy] does when called without options. *)
Definition default_options : copy_options :=
  {| overwrite := true; errorOnExist := false |}.

Section script.
Variable env : environment.

Definition detectPackageManager : M string :=
  pnpm ← exists_ (join "pnpm-lock.yaml");
  if pnpm : bool then mret "pnpm"
  else
    yarn ← exists_ (join "yarn.lock");
    if yarn : bool then mret "yarn" else mret "npm".

Definition installDependencies : M unit :=
  let packageJsonPath := join "package.json" in
  found ← exists_ packageJsonPath;
  if negb found then mret tt
  else
    packageJson ← read (readJsonSync env packageJsonPath);
    let missingDeps :=
      filter (λ dep, (dep ∉ dependencies packageJson)
                     ∧ (dep ∉ devDependencies packageJson)) requiredDeps in
    if bool_decide (0 < length missingDeps) then
      pm ← detectPackageManager;
      print (LogInstalling missingDeps pm) ;;
      try_catch
        (let installCmd :=
           if bool_decide (pm = "npm") then "install" else "add" in
         call (execSync env
                 (pm +:+ " " +:+ installCmd +:+ " "
                     +:+ String.concat " " missingDeps)) ;;
         print LogInstalled)
        (λ _, print ErrInstall)
    else mret tt.

Definition checkAndCreateSupabaseClient : M unit :=
  let targetPath := join "lib/supabase/server.ts" in
  found ← exists_ targetPath;
  if found : bool then print LogClientFound
  else
    for_of commonPaths (λ p,
      elsewhere ← exists_ (join p);
      if elsewhere : bool then print (WarnClientElsewhere p)
      else mret tt) ;;
    try_catch
      (call (ensureDir env (dirname targetPath)) ;;
       call (copy env "supabase-server.ts" targetPath default_options) ;;
       print LogClientCreated)
      (λ err, print (ErrClient (message err))).

(** The body of the loop over [filesToCopy] (lines 127-143). *)
Definition copy_file (file : manifest_entry) : M unit :=
  try_catch
    (let destPath := join (dest file) in
     call (ensureDir env (dirname destPath)) ;;
     call (copy env (src file) destPath no_overwrite) ;;
     print (LogCreated (msg file)))
    (λ err,
       if bool_decide (code err = Some "EEXIST")
       then print (LogSkipped (dest file))
       else print (ErrCopy (src file) (message err))).

Definition init : M unit :=
  print LogInitializing ;;
  let supabaseUrl := process_env env "NEXT_PUBLIC_SUPABASE_URL" in
  let supabaseKey := process_env env "NEXT_PUBLIC_SUPABASE_ANON_KEY" in
  (if falsy supabaseUrl || falsy supabaseKey
   then print WarnEnvMissing
   else print LogEnvFound) ;;
  for_of filesToCopy copy_file ;;
  checkAndCreateSupabaseClient ;;
  installDependencies ;;
  print LogSetupComplete.

(** The body of the loop over [filesToDelete] (lines 170-180). *)
Definition delete_file (file : string) : M unit :=
  let filePath := join file in
  found ← exists_ filePath;
  if found : bool then
    try_catch
      (call (remove env filePath) ;;
       print (LogDeleted file))
      (λ err, print (ErrDelete file (message err)))
  else print (LogNotFound file).

(** The body of the loop over [dirsToClean] (lines 190-197). *)
Definition clean_dir (dir : string) : M unit :=
  let dirPath := join dir in
  found ← exists_ dirPath;
  if found : bool then
    files ← read (readdir env dirPath);
    if bool_decide (length files = 0) then
      call (remove env dirPath) ;;
      print (LogRemovedDir dir)
    else mret tt
  else mret tt.

Definition uninstall : M unit :=
  print LogUninstalling ;;
  for_of filesToDelete delete_file ;;
  for_of dirsToClean clean_dir ;;
  print LogUninstallComplete.

(** Lines 206-218.  A rejection reaches the [catch] callback, which
    prints it and calls [process.exit(1)]; otherwise the process ends
    on its own, with status 0. *)
Definition main (argv : list string) (w : world) : Z * world :=
  let args := drop 2 argv in
  if includes args "uninstall" then
    match uninstall w with
    | (Resolved _, w') => (0%Z, w')
    | (Rejected err, w') =>
        (1%Z, World (fs w') (console w' ++ [ErrUnexpectedUninstall err]))
    end
  else
    match init w with
    | (Resolved _, w') => (0%Z, w')
    | (Rejected err, w') =>
        (1%Z, World (fs w') (console w' ++ [ErrUnexpected err]))
    end.

End script.

(** The specification's vocabulary for what happened to an entry, read
    off the console. *)
Inductive ProvisionOutcome :=
| Created
| SkippedExisting
| Failed (reason : string).

Inductive RemovalOutcome :=
| Deleted
| NotFound
| RemovalFailed (reason : string).

Definition provision_outcome (ev : event) : option ProvisionOutcome :=
  match ev with
  | LogCreated _ => Some Created
  | LogSkipped _ => Some SkippedExisting
  | ErrCopy _ reason => Some (Failed reason)
  | _ => None
  end.

Definition removal_outcome (ev : event) : option RemovalOutcome :=
  match ev with
  | LogDeleted _ => Some Deleted
  | LogNotFound _ => Some NotFound
  | ErrDelete _ reason => Some (RemovalFailed reason)
  | _ => None
  end.

Definition provision_outcomes (out : list event) : list ProvisionOutcome :=
  omap provision_outcome out.

Definition removal_outcomes (out : list event) : list RemovalOutcome :=
  omap removal_outcome out.

End Cli.

(** ** [supabase.ts]: the client and the chatbot queries *)

Module Supabase.
Import Js.

Inductive status_value := active | inactive.

Record ChatbotType := {
  id : string;
  user_id : string;
  created_at : string;
  org_name : string;
  users : option Z;
  org_type : string;
  description : string;
  bot_name : string;
  greeting : string;
  tone : string;
  enable_booking : bool;
  enable_top_five : bool;
  enable_map : bool;
  top_five_items : list string;
  booking_link : string;
  map_embed_url : string;
  bot_slug : string;
  qr_code_url : option string;
  enable_form : option bool;
  status : option status_value;
  last_active : option string;
  interactions : option Z
}.

(** [Omit<ChatbotType, "id" | "created_at">] *)
Record NewChatbot := {
  new_user_id : string;
  new_org_name : string;
  new_users : option Z;
  new_org_type : string;
  new_description : string;
  new_bot_name : string;
  new_greeting : string;
  new_tone : string;
  new_enable_booking : bool;
  new_enable_top_five : bool;
  new_enable_map : bool;
  new_top_five_items : list string;
  new_booking_link : string;
  new_map_embed_url : string;
  new_bot_slug : string;
  new_qr_code_url : option string;
  new_enable_form : option bool;
  new_status : option status_value;
  new_last_active : option string;
  new_interactions : option Z
}.

(** The client built by [createSupabaseClient]. *)
Record client := Client { supabaseUrl : string; supabaseKey : string }.

(** [createClient] of [@supabase/supabase-js], imported under the name
    [createSupabaseClient].  The library checks its arguments and throws
    when it does not take them, as it does for a URL that is not an HTTP
    or HTTPS URL: [refuses url key] is the error it throws, if any. *)
Definition createSupabaseClient
    (refuses : string → string → option Js.error) (url key : string)
    : Js.error + client :=
  match refuses url key with
  | Some e => inl e
  | None => inr (Client url key)
  end.

(** The error object a response carries. *)
Record PostgrestError := {
  pg_message : string;
  pg_details : string;
  pg_hint : string;
  pg_code : string
}.

(** The [data] of a response: [null], one row or an array of rows. *)
Inductive payload :=
| Null
| Row (r : ChatbotType)
| Rows (rs : list ChatbotType).

Record response := Response { data : payload; error : option PostgrestError }.

(** A request as the query builder assembles it. *)
Inductive verb :=
| Insert (values : NewChatbot)
| Select (columns : string)
| Delete.

Record query := Query {
  via : client;
  table : string;
  action : verb;
  returning : bool;
  filters : list (string * string);
  ordering : option (string * bool);
  single_row : bool
}.

(** [client.from(table)] and the builder methods the module chains. *)
Definition from_ (c : client) (tbl : string) : client * string := (c, tbl).

Definition insert_ (t : client * string) (values : NewChatbot) : query :=
  Query t.1 t.2 (Insert values) false [] None false.

Definition select_ (t : client * string) (columns : string) : query :=
  Query t.1 t.2 (Select columns) false [] None false.

Definition delete_ (t : client * string) : query :=
  Query t.1 t.2 Delete false [] None false.

(** [.select()] after [.insert(...)]: ask for the inserted row back. *)
Definition select_inserted (q : query) : query :=
  Query (via q) (table q) (action q) true (filters q) (ordering q)
        (single_row q).

Definition eq_ (column value : string) (q : query) : query :=
  Query (via q) (table q) (action q) (returning q)
        (filters q ++ [(column, value)]) (ordering q) (single_row q).

Definition order_ (column : string) (ascending : bool) (q : query) : query :=
  Query (via q) (table q) (action q) (returning q) (filters q)
        (Some (column, ascending)) (single_row q).

Definition single_ (q : query) : query :=
  Query (via q) (table q) (action q) (returning q) (filters q)
        (ordering q) true.

(** A computation over the network: the state is the list of requests
    sent so far. *)
Definition Remote (A : Type) : Type :=
  list query → completion PostgrestError A * list query.

Definition throw {A} (e : PostgrestError) : Remote A :=
  λ sent, (Rejected e, sent).

Definition return_ {A} (a : A) : Remote A :=
  λ sent, (Resolved a, sent).

Definition then_ {A B} (m : Remote A) (k : A → Remote B) : Remote B :=
  λ sent,
    match m sent with
    | (Resolved a, sent') => k a sent'
    | (Rejected e, sent') => (Rejected e, sent')
    end.

Section module.
(** The remote store: its answer to a request, given those it has
    already received. *)
Variable server : list query → query → response.

(** [await] on a built query sends it, once. *)
Definition await (q : query) : Remote response :=
  λ sent, (Resolved (server sent q), sent ++ [q]).

(** The module-level constant [supabase]. *)
Variable supabase : client.

Definition createClient (_ : unit) : client := supabase.

Definition createChatbot (new : NewChatbot) : Remote payload :=
  then_ (await (single_ (select_inserted
                   (insert_ (from_ supabase "chatbots") new))))
    (λ r,
       match error r with
       | Some e => throw e
       | None => return_ (data r)
       end).

Definition getChatbotsByUserId (userId : string) : Remote payload :=
  then_ (await (order_ "created_at" false
                  (eq_ "user_id" userId
                     (select_ (from_ supabase "chatbots") "*"))))
    (λ r,
       match error r with
       | Some e => throw e
       | None => return_ (data r)
       end).

Definition getChatbotBySlug (slug : string) : Remote payload :=
  then_ (await (single_ (eq_ "bot_slug" slug
                           (select_ (from_ supabase "chatbots") "*"))))
    (λ r,
       match error r with
       | Some e => throw e
       | None => return_ (data r)
       end).

Definition deleteChatbot (id : string) : Remote bool :=
  then_ (await (eq_ "id" id (delete_ (from_ supabase "chatbots"))))
    (λ r,
       match error r with
       | Some e => throw e
       | None => return_ true
       end).

End module.

(** What importing the module yields. *)
Record exports := Exports {
  exp_supabase : client;
  exp_createClient : unit → client;
  exp_createChatbot : NewChatbot → Remote payload;
  exp_getChatbotsByUserId : string → Remote payload;
  exp_getChatbotBySlug : string → Remote payload;
  exp_deleteChatbot : string → Remote bool
}.

Definition missing_variables : Js.error :=
  Error None "Missing Supabase environment variables".

(** Evaluating the module (lines 3-10, then the exported functions).
    Past the guard both variables are strings, which is what
    [default] expresses; an error thrown by [createSupabaseClient] at
    line 10 ends the evaluation. *)
Definition import_module (refuses : string → string → option Js.error)
    (server : list query → query → response)
    (process_env : string → option string) : completion Js.error exports :=
  let supabaseUrl := process_env "NEXT_PUBLIC_SUPABASE_URL" in
  let supabaseAnonKey := process_env "NEXT_PUBLIC_SUPABASE_ANON_KEY" in
  if falsy supabaseUrl || falsy supabaseAnonKey then
    Rejected missing_variables
  else
    match createSupabaseClient refuses (default "" supabaseUrl)
                               (default "" supabaseAnonKey) with
    | inl e => Rejected e
    | inr supabase =>
        Resolved (Exports supabase
                          (createClient supabase)
                          (createChatbot server supabase)
                          (getChatbotsByUserId server supabase)
                          (getChatbotBySlug server supabase)
                          (deleteChatbot server supabase))
    end.

(** The check of the library on the URL, in short: a URL is taken when it
    starts with [http://] or [https://], and refused with the library's
    message otherwise. *)
Definition invalid_url : Js.error :=
  Error None "Invalid supabaseUrl: Must be a valid HTTP or HTTPS URL.".

Definition wants_http (url key : string) : option Js.error :=
  if String.prefix "http://" url || String.prefix "https://" url then None
  else Some invalid_url.

(** A read-only store that holds a fixed list of rows and answers the way
    the hosted service does: a filter that matches nothing is not an error,
    except under [.single()], which wants exactly one row; inserting is
    refused. *)
Definition column (name : string) (r : ChatbotType) : option string :=
  if bool_decide (name = "id") then Some (id r)
  else if bool_decide (name = "user_id") then Some (user_id r)
  else if bool_decide (name = "bot_slug") then Some (bot_slug r)
  else None.

Definition matches (q : query) (r : ChatbotType) : bool :=
  forallb (λ f, bool_decide (column f.1 r = Some f.2)) (filters q).

Definition no_single_row : PostgrestError :=
  {| pg_message := "JSON object requested, multiple (or no) rows returned";
     pg_details := "";
     pg_hint := "";
     pg_code := "PGRST116" |}.

Definition read_only : PostgrestError :=
  {| pg_message := "new row violates row-level security policy";
     pg_details := "";
     pg_hint := "";
     pg_code := "42501" |}.

Definition fixed_store (rows : list ChatbotType)
    (sent : list query) (q : query) : response :=
  match action q with
  | Delete => Response Null None
  | Insert _ => Response Null (Some read_only)
  | Select _ =>
      let found := List.filter (matches q) rows in
      if single_row q then
        match found with
        | [r] => Response (Row r) None
        | _ => Response Null (Some no_single_row)
        end
      else Response (Rows found) None
  end.

(** The requests the four functions send. *)
Definition insert_query (c : client) (new : NewChatbot) : query :=
  Query c "chatbots" (Insert new) true [] None true.

Definition by_user_query (c : client) (userId : string) : query :=
  Query c "chatbots" (Select "*") false [("user_id", userId)]
        (Some ("created_at", false)) false.

Definition by_slug_query (c : client) (slug : string) : query :=
  Query c "chatbots" (Select "*") false [("bot_slug", slug)] None true.

Definition delete_query (c : client) (id : string) : query :=
  Query c "chatbots" Delete false [("id", id)] None false.

(** What a function of the module makes of a response: the error is
    thrown as it is, and otherwise [value] is returned. *)
Definition passed_on {A} (r : response) (value : A)
    : completion PostgrestError A :=
  match error r with
  | Some e => Rejected e
  | None => Resolved value
  end.

(** A row to try things on. *)
Definition sample_bot : ChatbotType := {|
  id := "b1"; user_id := "u1"; created_at := "2024-01-01T00:00:00Z";
  org_name := "Cafe"; users := None; org_type := "cafe";
  description := ""; bot_name := "Bean"; greeting := "Hi"; tone := "warm";
  enable_booking := false; enable_top_five := false; enable_map := false;
  top_five_items := []; booking_link := ""; map_embed_url := "";
  bot_slug := "cafe"; qr_code_url := None; enable_form := None;
  status := Some active; last_active := None; interactions := None
|}.

Definition sample_client : client := Client "https://x.supabase.co" "anon".

End Supabase.

Import Js FsExtra Cli.

(** ** Vocabulary for the statements *)

(** What a computation printed, and the tree it left. *)
Definition printed {A} (m : M A) (w : world) : list event :=
  drop (length (console w)) (console (m w).2).

Definition tree_after {A} (m : M A) (w : world) : tree := fs (m w).2.

(** The canonical place of the database client. *)
Abbreviation clientPath := (join "lib/supabase/server.ts").

(** The exit status that goes with the way the run ended. *)
Definition status_of {A} (c : completion error A) : Z :=
  match c with
  | Resolved _ => 0%Z
  | Rejected _ => 1%Z
  end.

(** Every directory on the way from [base] down to [base ++ rest]. *)
Definition dirs_below (t : tree) (base rest : path) : Prop :=
  ∀ k, 1 ≤ k ≤ length rest → t !! (base ++ take k rest) = Some Dir.

(** No path of the list lies at or below an earlier one, so that deleting
    an entry says nothing about the entries after it. *)
Fixpoint apart (files : list string) : Prop :=
  match files with
  | [] => True
  | g :: rest =>
      Forall (λ f, ¬ join g `prefix_of` join f) rest ∧ apart rest
  end.

(** The watched paths lie apart: none is at or below another. *)
Fixpoint scattered (dirs : list string) : Prop :=
  match dirs with
  | [] => True
  | d :: rest =>
      Forall (λ e, ¬ join d `prefix_of` join e ∧ ¬ join e `prefix_of` join d)
             rest
      ∧ scattered rest
  end.

(** The same surroundings with another [process.env]. *)
Definition with_process_env (env : environment)
    (vars : string → option string) : environment := {|
  templates := templates env;
  fault := fault env;
  exists_error := exists_error env;
  process_env := vars;
  parse_package := parse_package env;
  execSync := execSync env
|}.

(** A computation whose result and whose tree do not depend on what has
    been printed so far. *)
Definition tree_only {A} (m : M A) : Prop :=
  ∀ w w', fs w = fs w' → (m w).1 = (m w').1 ∧ fs (m w).2 = fs (m w').2.

(** A computation that only adds to what has been printed, and only
    events that satisfy [P]. *)
Definition prints (P : event → Prop) {A} (m : M A) : Prop :=
  ∀ w, ∃ evs, console (m w).2 = console w ++ evs ∧ Forall P evs.

(** ** The loops and steps, seen from the tree *)

(** What the [catch] of the copy loop makes of an error (lines 138-142). *)
Definition caught (err : error) : ProvisionOutcome :=
  if bool_decide (code err = Some "EEXIST") then SkippedExisting
  else Failed (message err).

(** The message that announces an outcome for [file]. *)
Definition copy_event (file : manifest_entry) (o : ProvisionOutcome) : event :=
  match o with
  | Created => LogCreated (msg file)
  | SkippedExisting => LogSkipped (dest file)
  | Failed reason => ErrCopy (src file) reason
  end.

Definition delete_event (file : string) (o : RemovalOutcome) : event :=
  match o with
  | Deleted => LogDeleted file
  | NotFound => LogNotFound file
  | RemovalFailed reason => ErrDelete file reason
  end.

(** One turn of the copy loop, seen from the tree: the outcome and the tree
    the turn leaves. *)
Definition copy_turn (env : environment) (file : manifest_entry) (t : tree)
    : ProvisionOutcome * tree :=
  match ensureDir env (dirname (join (dest file))) t with
  | inl err => (caught err, t)
  | inr t1 =>
      match copy env (src file) (join (dest file)) no_overwrite t1 with
      | inl err => (caught err, t1)
      | inr t2 => (Created, t2)
      end
  end.

Fixpoint copy_turns (env : environment) (files : list manifest_entry)
    (t : tree) : list ProvisionOutcome * tree :=
  match files with
  | [] => ([], t)
  | file :: files' =>
      let r := copy_turn env file t in
      let rs := copy_turns env files' r.2 in
      (r.1 :: rs.1, rs.2)
  end.

(** One turn of the deletion loop, seen from the tree. *)
Definition delete_turn (env : environment) (file : string) (t : tree)
    : RemovalOutcome * tree :=
  if existsSync t (join file) then
    match remove env (join file) t with
    | inl err => (RemovalFailed (message err), t)
    | inr t' => (Deleted, t')
    end
  else (NotFound, t).

Fixpoint delete_turns (env : environment) (files : list string) (t : tree)
    : list RemovalOutcome * tree :=
  match files with
  | [] => ([], t)
  | file :: files' =>
      let r := delete_turn env file t in
      let rs := delete_turns env files' r.2 in
      (r.1 :: rs.1, rs.2)
  end.

(** One turn of the clean-up loop, seen from the tree: an error, or
    whether the directory was removed and the tree the turn leaves. *)
Definition clean_turn (env : environment) (dir : string) (t : tree)
    : error + bool * tree :=
  if existsSync t (join dir) then
    match readdir env (join dir) t with
    | inl e => inl e
    | inr files =>
        if bool_decide (length files = 0) then
          match remove env (join dir) t with
          | inl e => inl e
          | inr t' => inr (true, t')
          end
        else inr (false, t)
    end
  else inr (false, t).

(** The clean-up loop, seen from the tree: the error that stopped it, if
    any, and the tree it leaves. *)
Fixpoint clean_turns (env : environment) (dirs : list string) (t : tree)
    : option error * tree :=
  match dirs with
  | [] => (None, t)
  | dir :: dirs' =>
      match clean_turn env dir t with
      | inl e => (Some e, t)
      | inr (_, t') => clean_turns env dirs' t'
      end
  end.

(** The warnings [checkAndCreateSupabaseClient] prints: one for each
    alternate location that holds something. *)
Definition elsewhere_warnings (alternates : list string) (t : tree)
    : list event :=
  WarnClientElsewhere <$> filter (λ p, existsSync t (join p)) alternates.

Abbreviation client_warnings := (elsewhere_warnings commonPaths).

(** The creation step of [checkAndCreateSupabaseClient] (lines 101-108),
    seen from the tree: the message it ends with and the tree it leaves. *)
Definition create_client (env : environment) (t : tree) : event * tree :=
  match ensureDir env (dirname clientPath) t with
  | inl err => (ErrClient (message err), t)
  | inr t1 =>
      match copy env "supabase-server.ts" clientPath default_options t1 with
      | inl err => (ErrClient (message err), t1)
      | inr t2 => (LogClientCreated, t2)
      end
  end.

(** ** The runs, cut at the borders of the loops *)

(** The world [uninstall] has reached when the deletion loop is over and
    the directory clean-up begins. *)
Definition before_cleanup (env : environment) (w : world) : world :=
  (for_of filesToDelete (delete_file env) (print LogUninstalling w).2).2.

(** The world [init] has reached when the copy loop is over. *)
Definition after_copying (env : environment) (w : world) : world :=
  (for_of filesToCopy (copy_file env)
     ((if falsy (process_env env "NEXT_PUBLIC_SUPABASE_URL")
          || falsy (process_env env "NEXT_PUBLIC_SUPABASE_ANON_KEY")
       then print WarnEnvMissing else print LogEnvFound)
        (print LogInitializing w).2).2).2.

(** The world [init] has reached when the install step begins. *)
Definition before_install (env : environment) (w : world) : world :=
  (checkAndCreateSupabaseClient env (after_copying env w)).2.

(** ** Two sentences of the specification, as they are worded *)

(** "Running provision twice in a row from any starting tree yields
    SkippedExisting for every entry on the second run." *)
Definition rerun_all_skipped (env : environment) (w : world) : Prop :=
  let run := for_of filesToCopy (copy_file env) in
  provision_outcomes (printed run (run w).2)
  = replicate (length filesToCopy) SkippedExisting.

(** [uninstall] took the directory away: it was there when the clean-up
    began and is not there at the end. *)
Definition taken_away (env : environment) (w : world) (dir : string) : Prop :=
  existsSync (fs (before_cleanup env w)) (join dir) = true ∧
  existsSync (tree_after (uninstall env) w) (join dir) = false.

(** The directory was there and empty when the clean-up began. *)
Definition there_and_empty (env : environment) (w : world) (dir : string)
    : Prop :=
  fs (before_cleanup env w) !! join dir = Some Dir ∧
  children (join dir) (fs (before_cleanup env w)) = [].

(** "For each directory in the watch-list, decommission removes that
    directory if and only if it exists and is empty." *)
Definition cleanup_removes_exactly_the_empty (env : environment) (w : world)
    : Prop :=
  ∀ dir, dir ∈ dirsToClean →
    taken_away env w dir ↔ there_and_empty env w dir.

(** ** Sample surroundings and projects *)

(** A templates directory that holds every file the script asks for. *)
Definition shipped_templates (name : string) : option string :=
  Some ("// " +:+ name).

(** No injected failure, an empty [process.env], a package manager that
    changes nothing, and the copy library as it is: an existing
    destination is refused with [already_exists]. *)
Definition calm : environment := {|
  templates := shipped_templates;
  fault := λ _, None;
  exists_error := λ p, already_exists (show p);
  process_env := λ _, None;
  parse_package := λ _, None;
  execSync := λ _ t, inr t
|}.

Definition empty_project : world := World ∅ [].

(** A project whose [vercel.json] was written by hand. *)
Definition own_vercel : world :=
  World {[ join "vercel.json" := File "{ }" ]} [].

(** A project in which [app] is a regular file, so that nothing can be
    created below it. *)
Definition app_is_a_file : world :=
  World {[ join "app" := File "notes" ]} [].

(** A project where [config] is a regular file and nothing else is there. *)
Definition config_is_a_file : world :=
  World {[ join "config" := File "notes" ]} [].

(** A project in which the first watched path is a regular file and the
    second is an empty directory. *)
Definition keep_alive_is_a_file : world :=
  World {[ join "app" := Dir;
           join "app/api" := Dir;
           join "app/api/keep-alive" := File "notes";
           join "config" := Dir ]} [].

(** A project that holds one managed file next to a file of its owner. *)
Definition half_provisioned : world :=
  World {[ join "config" := Dir;
           join "config/keep-alive-config.ts" := File "// config";
           join "config/site.ts" := File "// mine" ]} [].

(** A project provisioned earlier, with a file of its owner in [config]. *)
Definition shared_config : world :=
  World {[ join "app" := Dir;
           join "app/api" := Dir;
           join "app/api/keep-alive" := Dir;
           join "app/api/keep-alive/route.ts" := File "// route.ts";
           join "config" := Dir;
           join "config/keep-alive-config.ts" := File "// config";
           join "config/site.ts" := File "// mine" ]} [].

(** A project that keeps its client in [utils/supabase/server.ts]. *)
Definition client_elsewhere : world :=
  World {[ join "utils" := Dir;
           join "utils/supabase" := Dir;
           join "utils/supabase/server.ts" := File "// theirs" ]} [].

(** A project that already has a client at the canonical path. *)
Definition client_in_place : world :=
  World {[ join "lib" := Dir;
           join "lib/supabase" := Dir;
           join "lib/supabase/server.ts" := File "// theirs" ]} [].

(** ** More vocabulary: the install step *)

(** The package manager [detectPackageManager] settles on, and the command
    [installDependencies] hands to [execSync] for the one required
    dependency. *)
Definition chosen_manager (t : tree) : string :=
  if existsSync t (join "pnpm-lock.yaml") then "pnpm"
  else if existsSync t (join "yarn.lock") then "yarn"
  else "npm".

Definition chosen_command (t : tree) : string :=
  if existsSync t (join "pnpm-lock.yaml") then "pnpm add @supabase/supabase-js"
  else if existsSync t (join "yarn.lock") then "yarn add @supabase/supabase-js"
  else "npm install @supabase/supabase-js".

(** [package.json] declares the client library, under either key. *)
Definition declares_client (json : package_json) : Prop :=
  "@supabase/supabase-js" ∈ dependencies json
  ∨ "@supabase/supabase-js" ∈ devDependencies json.

(** Surroundings in which [package.json] parses to a file without
    dependencies and the package manager writes a lock file. *)
Definition fresh_package : environment := {|
  templates := shipped_templates;
  fault := λ _, None;
  exists_error := λ p, already_exists (show p);
  process_env := λ _, None;
  parse_package := λ _, Some {| dependencies := []; devDependencies := [] |};
  execSync := λ _ t, inr (<[join "package-lock.json" := File "{ }"]> t)
|}.

(** The same, with a [package.json] that lists the client library among
    the development dependencies. *)
Definition has_client : environment := {|
  templates := shipped_templates;
  fault := λ _, None;
  exists_error := λ p, already_exists (show p);
  process_env := λ _, None;
  parse_package := λ _,
    Some {| dependencies := [];
            devDependencies := ["@supabase/supabase-js"] |};
  execSync := λ _ t, inr (<[join "package-lock.json" := File "{ }"]> t)
|}.

(** A project with a [package.json] and a [yarn.lock]. *)
Definition yarn_project : world :=
  World {[ join "package.json" := File "{ }";
           join "yarn.lock" := File "" ]} [].

(** A project whose [package.json] is there; whether it parses is up to
    the surroundings. *)
Definition with_package : world :=
  World {[ join "package.json" := File "{ name: " ]} [].

(** ** More vocabulary: where a run writes *)

(** [q] is [p] itself or a directory on the way down to [p], the project
    root excepted. *)
Definition on_the_way (q p : path) : Prop := q ≠ [] ∧ q `prefix_of` p.

(** A project with sources of its own. *)
Definition with_sources : world :=
  World {[ join "src" := Dir;
           join "src/index.ts" := File "// mine";
           join "app" := Dir;
           join "app/page.tsx" := File "// mine" ]} [].

(** ** More vocabulary: the module as a whole *)

(** Everything [init] does after it has looked at the two variables. *)
Definition after_env_check (env : environment) : M unit :=
  for_of filesToCopy (copy_file env) ;;
  checkAndCreateSupabaseClient env ;;
  installDependencies env ;;
  print LogSetupComplete.

(** The message of the environment check. *)
Definition env_event (vars : string → option string) : event :=
  if falsy (vars "NEXT_PUBLIC_SUPABASE_URL")
     || falsy (vars "NEXT_PUBLIC_SUPABASE_ANON_KEY")
  then WarnEnvMissing else LogEnvFound.

(** A [process.env] with both variables. *)
Definition both_set (name : string) : option string :=
  if bool_decide (name = "NEXT_PUBLIC_SUPABASE_URL")
  then Some "https://x.supabase.co"
  else if bool_decide (name = "NEXT_PUBLIC_SUPABASE_ANON_KEY")
  then Some "anon" else None.

(** ** More vocabulary: a round trip *)

(** Nothing fails for reasons outside the tree, and the templates of the
    manifest are shipped. *)
Definition dependable (env : environment) : Prop :=
  (∀ op, fault env op = None) ∧
  ∀ file, file ∈ filesToCopy → is_Some (templates env (src file)).

(** The tree holds nothing at or below a manifest path or a watched
    directory, and no regular file where [app] or [app/api] must be. *)
Definition unprovisioned (t : tree) : Prop :=
  (∀ f q, f ∈ filesToDelete → join f `prefix_of` q → t !! q = None) ∧
  (∀ d q, d ∈ dirsToClean → join d `prefix_of` q → t !! q = None) ∧
  (∀ c, t !! join "app" ≠ Some (File c)) ∧
  (∀ c, t !! join "app/api" ≠ Some (File c)).

(** The manifest destinations lie apart, in both directions. *)
Fixpoint separate (files : list manifest_entry) : Prop :=
  match files with
  | [] => True
  | f :: rest =>
      Forall (λ g, ¬ join (dest f) `prefix_of` join (dest g)
                   ∧ ¬ join (dest g) `prefix_of` join (dest f)) rest
      ∧ separate rest
  end.

(** What a turn of the copy loop needs in order to create its file: the
    template, a free destination below the root, and no regular file on
    the way down to it. *)
Definition ready (env : environment) (t : tree) (file : manifest_entry)
    : Prop :=
  is_Some (templates env (src file)) ∧
  join (dest file) ≠ [] ∧
  t !! join (dest file) = None ∧
  ∀ q c, on_the_way q (dirname (join (dest file))) → t !! q ≠ Some (File c).

(** * Properties *)

(** ** Paths *)

Example join_route :
  join "app/api/keep-alive/route.ts" = ["app"; "api"; "keep-alive"; "route.ts"].
Proof. reflexivity. Qed.

Example dirname_route :
  dirname (join "app/api/keep-alive/route.ts") = ["app"; "api"; "keep-alive"].
Proof. reflexivity. Qed.

Example dirname_top : dirname (join "vercel.json") = [].
Proof. reflexivity. Qed.

Lemma dirname_snoc (p : path) (name : string) : dirname (p ++ [name]) = p.
Proof.
  unfold dirname. rewrite length_app. simpl.
  replace (length p + 1 - 1) with (length p) by lia.
  apply take_app_length.
Qed.

Lemma length_dirname (p : path) : length (dirname p) = length p - 1.
Proof. unfold dirname. rewrite length_take. lia. Qed.

(** ** [mkdir -p] *)

Section mkdirs_facts.
Implicit Types (t : tree) (base rest q : path).

Lemma dirs_below_cons t base c rest :
  dirs_below t base (c :: rest) ↔
  t !! (base ++ [c]) = Some Dir ∧ dirs_below t (base ++ [c]) rest.
Proof.
  unfold dirs_below. split.
  - intros H. split.
    + specialize (H 1). simpl in H. apply H. lia.
    + intros k Hk. specialize (H (S k)). simpl in H.
      rewrite <- app_assoc. simpl. apply H. lia.
  - intros [H0 H] k Hk. destruct k as [|k]; [lia|]. simpl.
    destruct k as [|k].
    + by rewrite take_0.
    + specialize (H (S k)). rewrite <- app_assoc in H. simpl in H.
      apply H. simpl in Hk. lia.
Qed.

(** A successful [mkdir -p] keeps what was there and adds directories
    only. *)
Lemma mkdirs_from_grows base rest t t' :
  mkdirs_from base rest t = inr t' → t ⊆ t'.
Proof.
  revert base t. induction rest as [|c rest IH]; intros base t; simpl.
  - intros [= ->]. done.
  - destruct (t !! (base ++ [c])) as [[?|]|] eqn:Hd; try done.
    + apply IH.
    + intros H. apply IH in H. etrans; [|exact H].
      by apply insert_subseteq.
Qed.

(** What it adds are directories on the way down, nothing else. *)
Lemma mkdirs_from_lookup base rest t t' q :
  mkdirs_from base rest t = inr t' →
  t' !! q = t !! q ∨
  (t !! q = None ∧ t' !! q = Some Dir ∧
   ∃ k, 1 ≤ k ≤ length rest ∧ q = base ++ take k rest).
Proof.
  revert base t. induction rest as [|c rest IH]; intros base t; simpl.
  - intros [= ->]. by left.
  - assert (Hshift : ∀ k, 1 ≤ k ≤ length rest →
              1 ≤ S k ≤ S (length rest) ∧
              (base ++ [c]) ++ take k rest = base ++ c :: take k rest).
    { intros k Hk. split; [lia|]. by rewrite <- app_assoc. }
    destruct (t !! (base ++ [c])) as [[?|]|] eqn:Hd; try done.
    + intros H. destruct (IH _ _ H) as [Hq|(Hq1 & Hq2 & k & Hk & ->)].
      * by left.
      * right. split_and!; [done..|]. exists (S k).
        by apply Hshift.
    + intros H. destruct (IH _ _ H) as [Hq|(Hq1 & Hq2 & k & Hk & ->)].
      * destruct (decide (q = base ++ [c])) as [->|Hne].
        -- right. split_and!; [done| |].
           ++ by rewrite Hq, lookup_insert_eq.
           ++ exists 1. simpl. rewrite take_0. split; [lia|done].
        -- left. by rewrite Hq, lookup_insert_ne.
      * right.
        destruct (decide ((base ++ [c]) ++ take k rest = base ++ [c]))
          as [Heq|Hne].
        -- apply (f_equal length) in Heq.
           rewrite !length_app, length_take in Heq. simpl in Heq. lia.
        -- rewrite lookup_insert_ne in Hq1 by done.
           split_and!; [done..|]. exists (S k). by apply Hshift.
Qed.

Lemma mkdirs_from_dirs base rest t t' :
  mkdirs_from base rest t = inr t' → dirs_below t' base rest.
Proof.
  revert base t. induction rest as [|c rest IH]; intros base t; simpl.
  - intros _ k Hk. simpl in Hk. lia.
  - destruct (t !! (base ++ [c])) as [[?|]|] eqn:Hd; try done.
    + intros H. apply dirs_below_cons. split; [|by eapply IH].
      apply mkdirs_from_grows in H.
      by eapply lookup_weaken.
    + intros H. apply dirs_below_cons. split; [|by eapply IH].
      apply mkdirs_from_grows in H.
      eapply lookup_weaken; [|exact H]. apply lookup_insert_eq.
Qed.

(** Where the directories are already there, nothing happens. *)
Lemma mkdirs_from_id base rest t :
  dirs_below t base rest → mkdirs_from base rest t = inr t.
Proof.
  revert base. induction rest as [|c rest IH]; intros base; simpl.
  - done.
  - intros [Hd H]%dirs_below_cons. rewrite Hd. by apply IH.
Qed.

(** A file in the way stays in the way, whatever else is added. *)
Lemma mkdirs_from_blocked base rest t t2 e :
  mkdirs_from base rest t = inl e →
  (∀ k n, 1 ≤ k ≤ length rest →
          t !! (base ++ take k rest) = Some n →
          t2 !! (base ++ take k rest) = Some n) →
  ∃ e', mkdirs_from base rest t2 = inl e'.
Proof.
  revert base t t2. induction rest as [|c rest IH]; intros base t t2; simpl.
  - done.
  - intros Hrun Hkeep.
    assert (Hhead : ∀ n, t !! (base ++ [c]) = Some n →
                         t2 !! (base ++ [c]) = Some n).
    { intros n Hn. specialize (Hkeep 1 n). simpl in Hkeep.
      rewrite take_0 in Hkeep. apply Hkeep; [lia|done]. }
    assert (Htail : ∀ k n, 1 ≤ k ≤ length rest →
              t !! ((base ++ [c]) ++ take k rest) = Some n →
              t2 !! ((base ++ [c]) ++ take k rest) = Some n).
    { intros k n Hk Hn. specialize (Hkeep (S k) n). simpl in Hkeep.
      rewrite <- !app_assoc. simpl. apply Hkeep; [lia|].
      by rewrite <- app_assoc in Hn. }
    assert (Hfresh : ∀ k, 1 ≤ k ≤ length rest →
              (base ++ [c]) ++ take k rest ≠ base ++ [c]).
    { intros k Hk Heq. apply (f_equal length) in Heq.
      rewrite !length_app, length_take in Heq. simpl in Heq. lia. }
    destruct (t !! (base ++ [c])) as [[?|]|] eqn:Hd.
    + rewrite (Hhead _ eq_refl). eauto.
    + rewrite (Hhead _ eq_refl). by eapply IH.
    + destruct (t2 !! (base ++ [c])) as [[?|]|] eqn:Hd2.
      * eauto.
      * eapply IH; [exact Hrun|]. intros k n Hk Hn.
        rewrite lookup_insert_ne in Hn by (symmetry; by apply Hfresh).
        by apply Htail.
      * eapply IH; [exact Hrun|]. intros k n Hk Hn.
        rewrite lookup_insert_ne in Hn by (symmetry; by apply Hfresh).
        rewrite lookup_insert_ne by (symmetry; by apply Hfresh).
        by apply Htail.
Qed.

Lemma mkdirs_grows p t t' : mkdirs p t = inr t' → t ⊆ t'.
Proof. apply mkdirs_from_grows. Qed.

Lemma mkdirs_id p t : dirs_below t [] p → mkdirs p t = inr t.
Proof. apply mkdirs_from_id. Qed.

Lemma mkdirs_dirs p t t' : mkdirs p t = inr t' → dirs_below t' [] p.
Proof. apply mkdirs_from_dirs. Qed.

End mkdirs_facts.

(** ** Running computations *)

Lemma run_bind {A B} (m : M A) (k : A → M B) (w : world) :
  (m ≫= k) w =
  match m w with
  | (Resolved a, w') => k a w'
  | (Rejected e, w') => (Rejected e, w')
  end.
Proof. reflexivity. Qed.

Lemma run_print (ev : event) (w : world) :
  print ev w = (Resolved tt, World (fs w) (console w ++ [ev])).
Proof. reflexivity. Qed.

Lemma printed_app {A} (m : M A) (w : world) (evs : list event) :
  console (m w).2 = console w ++ evs → printed m w = evs.
Proof.
  intros H. unfold printed. rewrite H. by rewrite drop_app_length.
Qed.

Lemma provision_outcome_event (file : manifest_entry) (o : ProvisionOutcome) :
  provision_outcome (copy_event file o) = Some o.
Proof. by destruct o. Qed.

Lemma removal_outcome_event (file : string) (o : RemovalOutcome) :
  removal_outcome (delete_event file o) = Some o.
Proof. by destruct o. Qed.

Lemma provision_outcomes_events (files : list manifest_entry)
    (os : list ProvisionOutcome) :
  length files = length os →
  provision_outcomes (zip_with copy_event files os) = os.
Proof.
  revert os. induction files as [|f files IH]; intros [|o os]; simpl; try done.
  intros [= Hlen]. unfold provision_outcomes in *. simpl.
  rewrite provision_outcome_event. f_equal. by apply IH.
Qed.

Lemma removal_outcomes_events (files : list string) (os : list RemovalOutcome) :
  length files = length os →
  removal_outcomes (zip_with delete_event files os) = os.
Proof.
  revert os. induction files as [|f files IH]; intros [|o os]; simpl; try done.
  intros [= Hlen]. unfold removal_outcomes in *. simpl.
  rewrite removal_outcome_event. f_equal. by apply IH.
Qed.

Lemma caught_skipped (err : error) :
  caught err = SkippedExisting ↔ code err = Some "EEXIST".
Proof.
  unfold caught. case_bool_decide; split; try done.
Qed.

Lemma caught_not_created (err : error) : caught err ≠ Created.
Proof. unfold caught. by case_bool_decide. Qed.

(** Computations that do not look at the console, and what computations
    print. *)

Section tree_only_facts.

Lemma tree_only_ret {A} (a : A) : tree_only (mret a : M A).
Proof. by intros w w' H. Qed.

Lemma tree_only_print (ev : event) : tree_only (print ev).
Proof. by intros w w' H. Qed.

Lemma tree_only_exists (p : path) : tree_only (exists_ p).
Proof. intros w w' H. unfold exists_. simpl. by rewrite H. Qed.

Lemma tree_only_call (f : tree → error + tree) : tree_only (call f).
Proof.
  intros w w' H. unfold call. rewrite H. by destruct (f (fs w')).
Qed.

Lemma tree_only_read {A} (f : tree → error + A) : tree_only (read f).
Proof.
  intros w w' H. unfold read. rewrite H. by destruct (f (fs w')).
Qed.

Lemma tree_only_bind {A B} (m : M A) (k : A → M B) :
  tree_only m → (∀ a, tree_only (k a)) → tree_only (m ≫= k).
Proof.
  intros Hm Hk w w' H. rewrite !run_bind.
  destruct (Hm w w' H) as [H1 H2].
  destruct (m w) as [[a|e] w1], (m w') as [[a'|e'] w1']; simpl in *;
    try done.
  - injection H1 as ->. by apply Hk.
  - by injection H1 as ->.
Qed.

Lemma tree_only_try {A} (m : M A) (h : error → M A) :
  tree_only m → (∀ e, tree_only (h e)) → tree_only (try_catch m h).
Proof.
  intros Hm Hh w w' H. unfold try_catch.
  destruct (Hm w w' H) as [H1 H2].
  destruct (m w) as [[a|e] w1], (m w') as [[a'|e'] w1']; simpl in *;
    try done.
  injection H1 as ->. by apply Hh.
Qed.

Lemma tree_only_for {A} (l : list A) (body : A → M unit) :
  (∀ x, tree_only (body x)) → tree_only (for_of l body).
Proof.
  intros Hbody. induction l as [|x l IH]; simpl.
  - apply tree_only_ret.
  - apply tree_only_bind; [apply Hbody|]. intros _. apply IH.
Qed.

Lemma tree_only_if {A} (b : bool) (m1 m2 : M A) :
  tree_only m1 → tree_only m2 → tree_only (if b then m1 else m2).
Proof. by destruct b. Qed.

End tree_only_facts.

Ltac solve_tree_only :=
  repeat first
    [ apply tree_only_ret | apply tree_only_print | apply tree_only_exists
    | apply tree_only_call | apply tree_only_read
    | apply tree_only_bind | apply tree_only_try | apply tree_only_for
    | apply tree_only_if | intro ].

Section console_facts.
Variable P : event → Prop.

Lemma prints_ret {A} (a : A) : prints P (mret a : M A).
Proof. intros w. exists []. simpl. by rewrite app_nil_r. Qed.

Lemma prints_print (ev : event) : P ev → prints P (print ev).
Proof. intros Hev w. exists [ev]. split; [done|]. by constructor. Qed.

Lemma prints_exists (p : path) : prints P (exists_ p).
Proof. intros w. exists []. simpl. by rewrite app_nil_r. Qed.

Lemma prints_call (f : tree → error + tree) : prints P (call f).
Proof.
  intros w. exists []. unfold call. rewrite app_nil_r.
  by destruct (f (fs w)).
Qed.

Lemma prints_read {A} (f : tree → error + A) : prints P (read f).
Proof.
  intros w. exists []. unfold read. rewrite app_nil_r.
  by destruct (f (fs w)).
Qed.

Lemma prints_bind {A B} (m : M A) (k : A → M B) :
  prints P m → (∀ a, prints P (k a)) → prints P (m ≫= k).
Proof.
  intros Hm Hk w. rewrite run_bind. destruct (Hm w) as (evs & Hevs & HP).
  destruct (m w) as [[a|e] w1]; simpl in *.
  - destruct (Hk a w1) as (evs' & Hevs' & HP'). exists (evs ++ evs').
    split; [by rewrite Hevs', Hevs, app_assoc|]. by apply Forall_app.
  - by exists evs.
Qed.

Lemma prints_try {A} (m : M A) (h : error → M A) :
  prints P m → (∀ e, prints P (h e)) → prints P (try_catch m h).
Proof.
  intros Hm Hh w. unfold try_catch. destruct (Hm w) as (evs & Hevs & HP).
  destruct (m w) as [[a|e] w1]; simpl in *.
  - by exists evs.
  - destruct (Hh e w1) as (evs' & Hevs' & HP'). exists (evs ++ evs').
    split; [by rewrite Hevs', Hevs, app_assoc|]. by apply Forall_app.
Qed.

Lemma prints_for {A} (l : list A) (body : A → M unit) :
  (∀ x, prints P (body x)) → prints P (for_of l body).
Proof.
  intros Hbody. induction l as [|x l IH]; simpl.
  - apply prints_ret.
  - apply prints_bind; [apply Hbody|]. intros _. apply IH.
Qed.

Lemma prints_if {A} (b : bool) (m1 m2 : M A) :
  prints P m1 → prints P m2 → prints P (if b then m1 else m2).
Proof. by destruct b. Qed.

End console_facts.

Ltac solve_prints :=
  repeat first
    [ apply prints_ret | apply prints_exists
    | apply prints_call | apply prints_read
    | apply prints_bind | apply prints_try | apply prints_for
    | apply prints_if | (apply prints_print; done) | intro ].

Section turns.
Variable env : environment.

(** The loop body never rejects: it prints one message and leaves the
    tree of [copy_turn]. *)
Lemma copy_file_turn (file : manifest_entry) (w : world) :
  copy_file env file w =
  (Resolved tt,
   World (copy_turn env file (fs w)).2
         (console w ++ [copy_event file (copy_turn env file (fs w)).1])).
Proof.
  unfold copy_file, copy_turn, try_catch. rewrite !run_bind.
  unfold call at 1. destruct w as [t out]. simpl.
  destruct (ensureDir env _ t) as [err|t1]; simpl.
  - unfold caught. by case_bool_decide.
  - rewrite run_bind. unfold call. simpl.
    destruct (copy env _ _ _ t1) as [err|t2]; simpl.
    + unfold caught. by case_bool_decide.
    + done.
Qed.

Lemma copy_turns_length (files : list manifest_entry) (t : tree) :
  length (copy_turns env files t).1 = length files.
Proof.
  revert t. induction files as [|f files IH]; intros t; simpl; [done|].
  by rewrite IH.
Qed.

Lemma copy_loop_turns (files : list manifest_entry) (w : world) :
  for_of files (copy_file env) w =
  (Resolved tt,
   World (copy_turns env files (fs w)).2
         (console w ++ zip_with copy_event files (copy_turns env files (fs w)).1)).
Proof.
  revert w. induction files as [|f files IH]; intros w.
  - destruct w. simpl. by rewrite app_nil_r.
  - simpl. rewrite run_bind, copy_file_turn, IH. simpl.
    by rewrite <- app_assoc.
Qed.

Lemma delete_file_turn (file : string) (w : world) :
  delete_file env file w =
  (Resolved tt,
   World (delete_turn env file (fs w)).2
         (console w ++ [delete_event file (delete_turn env file (fs w)).1])).
Proof.
  unfold delete_file, delete_turn. rewrite run_bind.
  unfold exists_. destruct w as [t out]. simpl.
  destruct (existsSync t (join file)); [|done].
  unfold try_catch. rewrite run_bind. unfold call. simpl.
  by destruct (remove env _ t) as [err|t'].
Qed.

Lemma delete_turns_length (files : list string) (t : tree) :
  length (delete_turns env files t).1 = length files.
Proof.
  revert t. induction files as [|f files IH]; intros t; simpl; [done|].
  by rewrite IH.
Qed.

Lemma delete_loop_turns (files : list string) (w : world) :
  for_of files (delete_file env) w =
  (Resolved tt,
   World (delete_turns env files (fs w)).2
         (console w ++ zip_with delete_event files
                         (delete_turns env files (fs w)).1)).
Proof.
  revert w. induction files as [|f files IH]; intros w.
  - destruct w. simpl. by rewrite app_nil_r.
  - simpl. rewrite run_bind, delete_file_turn, IH. simpl.
    by rewrite <- app_assoc.
Qed.

End turns.

(** ** [fs.copy], [fs.remove] and [fs.readdir] *)

Section call_facts.
Variable env : environment.
Implicit Types (t : tree) (p q dest : path).

Lemma stat_None t p : stat t p = None → p ≠ [] ∧ t !! p = None.
Proof. destruct p; [done|]. simpl. by intros ->. Qed.

Lemma stat_lookup t p : p ≠ [] → stat t p = t !! p.
Proof. by destruct p. Qed.

Lemma ensureDir_grows p t t' : ensureDir env p t = inr t' → t ⊆ t'.
Proof.
  unfold ensureDir. destruct (fault env _); [done|]. apply mkdirs_grows.
Qed.

(** Directories made on the way to [dirname dest] are not [dest]. *)
Lemma mkdirs_dirname_dest dest t t' :
  mkdirs (dirname dest) t = inr t' → t' !! dest = t !! dest.
Proof.
  intros H.
  destruct (mkdirs_from_lookup _ _ _ _ dest H)
    as [Hq|(_ & _ & k & Hk & Heq)]; [done|].
  simpl in Heq. apply (f_equal length) in Heq.
  rewrite length_take, length_dirname in Heq.
  rewrite length_dirname in Hk. lia.
Qed.

(** Writing to a destination that is not there keeps everything else. *)
Lemma copy_absent_grows src dest opts t t' :
  stat t dest = None →
  copy env src dest opts t = inr t' → t ⊆ t'.
Proof.
  intros Hstat. unfold copy. rewrite Hstat.
  destruct (fault env _); [done|].
  destruct (templates env src) as [c|]; [|done].
  destruct (mkdirs (dirname dest) t) as [e|t1] eqn:Hmk; [done|].
  intros [= <-]. apply stat_None in Hstat as [_ Hnone].
  etrans; [by eapply mkdirs_grows|].
  apply insert_subseteq. by rewrite (mkdirs_dirname_dest _ _ _ Hmk).
Qed.

(** With [overwrite: false] a copy only ever adds to the tree. *)
Lemma copy_no_overwrite_grows src dest t t' :
  copy env src dest no_overwrite t = inr t' → t ⊆ t'.
Proof.
  destruct (stat t dest) as [[c|]|] eqn:Hstat.
  - unfold copy. rewrite Hstat. simpl.
    destruct (fault env _); [done|]. by destruct (templates env src).
  - unfold copy. rewrite Hstat.
    destruct (fault env _); [done|]. by destruct (templates env src).
  - by apply copy_absent_grows.
Qed.

Lemma copy_turn_grows file t : t ⊆ (copy_turn env file t).2.
Proof.
  unfold copy_turn.
  destruct (ensureDir env _ t) as [e|t1] eqn:Hdir; simpl; [done|].
  apply ensureDir_grows in Hdir.
  destruct (copy env _ _ _ t1) as [e|t2] eqn:Hcopy; simpl; [done|].
  apply copy_no_overwrite_grows in Hcopy. by etrans.
Qed.

Lemma copy_turns_grows files t : t ⊆ (copy_turns env files t).2.
Proof.
  revert t. induction files as [|f files IH]; intros t; simpl; [done|].
  etrans; [apply (copy_turn_grows f)|apply IH].
Qed.

(** [fs.remove(p)] takes away [p] and what is below it, nothing else. *)
Lemma remove_lookup p t t' q :
  remove env p t = inr t' →
  t' !! q = if decide (p `prefix_of` q) then None else t !! q.
Proof.
  unfold remove. destruct (fault env _); [done|]. intros [= <-].
  case_decide as Hpre.
  - apply map_lookup_filter_None. right. intros x _. simpl. tauto.
  - destruct (t !! q) as [x|] eqn:Hq.
    + apply map_lookup_filter_Some. done.
    + apply map_lookup_filter_None. by left.
Qed.

Lemma remove_outside p t t' q :
  remove env p t = inr t' → ¬ p `prefix_of` q → t' !! q = t !! q.
Proof.
  intros H Hpre. rewrite (remove_lookup _ _ _ _ H). by case_decide.
Qed.

Lemma remove_gone p t t' :
  remove env p t = inr t' → t' !! p = None.
Proof.
  intros H. rewrite (remove_lookup _ _ _ _ H). by case_decide.
Qed.

Lemma remove_fails p t e :
  remove env p t = inl e → fault env (OpRemove p) = Some e.
Proof. unfold remove. destruct (fault env _); congruence. Qed.

Lemma child_snoc p q : is_child p q → ∃ name, q = p ++ [name].
Proof.
  intros [Hne <-]. destruct (last q) as [name|] eqn:Hlast.
  - apply last_Some in Hlast as [q' ->]. exists name.
    by rewrite dirname_snoc.
  - by apply last_None in Hlast.
Qed.

(** An empty listing means nothing sits directly below [p]. *)
Lemma children_nil p t :
  children p t = [] ↔ ∀ name, t !! (p ++ [name]) = None.
Proof.
  unfold children. split.
  - intros Hnil name. destruct (t !! (p ++ [name])) as [n|] eqn:Hq; [|done].
    exfalso. eapply (filter_nil_not_elem_of _ _ (p ++ [name]) Hnil).
    + split; [by destruct p|apply dirname_snoc].
    + apply list_elem_of_fmap. exists (p ++ [name], n). split; [done|].
      by apply elem_of_map_to_list.
  - intros Hnone.
    destruct (filter (is_child p) (map_to_list t).*1) as [|q qs] eqn:Hf;
      [done|].
    assert (Hin : q ∈ filter (is_child p) (map_to_list t).*1)
      by (rewrite Hf; left).
    apply list_elem_of_filter in Hin as [Hchild Hin].
    apply child_snoc in Hchild as [name ->].
    apply list_elem_of_fmap in Hin as ([q n] & Heq & Hin). simpl in Heq.
    subst q. apply elem_of_map_to_list in Hin.
    by rewrite Hnone in Hin.
Qed.

Lemma listing_length p t :
  length (omap last (children p t)) = length (children p t).
Proof.
  unfold children.
  induction ((map_to_list t).*1) as [|q qs IH]; [done|].
  rewrite filter_cons. case_decide as Hq; [|done].
  apply child_snoc in Hq as [name ->].
  change (omap last ((p ++ [name]) :: filter (is_child p) qs))
    with (match last (p ++ [name]) with
          | Some x => x :: omap last (filter (is_child p) qs)
          | None => omap last (filter (is_child p) qs)
          end).
  rewrite last_snoc. simpl. by rewrite IH.
Qed.

(** [fs.readdir] answers for directories only, and with no name exactly
    when nothing sits below. *)
Lemma readdir_ok p t files :
  readdir env p t = inr files →
  fault env (OpReaddir p) = None ∧ stat t p = Some Dir ∧
  (length files = 0 ↔ ∀ name, t !! (p ++ [name]) = None).
Proof.
  unfold readdir. destruct (fault env _); [done|].
  destruct (stat t p) as [[c|]|]; try done.
  intros [= <-]. split_and!; [done..|].
  rewrite listing_length, <- children_nil.
  by destruct (children p t).
Qed.

End call_facts.

(** ** The steps of [init] *)

Section init_steps.
Variable env : environment.

Lemma warn_loop (alternates : list string) (w : world) :
  for_of alternates (λ p,
    elsewhere ← exists_ (join p);
    if elsewhere : bool then print (WarnClientElsewhere p) else mret tt) w =
  (Resolved tt,
   World (fs w)
     (console w ++ elsewhere_warnings alternates (fs w))).
Proof.
  unfold elsewhere_warnings. revert w. induction alternates as [|p ps IH]; intros [t out]; simpl.
  - by rewrite app_nil_r.
  - rewrite run_bind, run_bind. unfold exists_ at 1. simpl.
    rewrite filter_cons.
    destruct (existsSync t (join p)) eqn:Hex; simpl.
    + rewrite IH. simpl. by rewrite <- app_assoc.
    + rewrite IH. done.
Qed.

(** The client check never rejects.  With something at the canonical
    path it only says so; otherwise it warns about each alternate
    location in use and then runs the creation step. *)
Lemma client_run (w : world) :
  checkAndCreateSupabaseClient env w =
  if existsSync (fs w) clientPath then
    (Resolved tt, World (fs w) (console w ++ [LogClientFound]))
  else
    (Resolved tt,
     World (create_client env (fs w)).2
           (console w ++ client_warnings (fs w)
                      ++ [(create_client env (fs w)).1])).
Proof.
  unfold checkAndCreateSupabaseClient. rewrite run_bind.
  unfold exists_ at 1. cbv beta iota.
  destruct (existsSync (fs w) clientPath); [done|].
  rewrite run_bind, warn_loop.
  destruct w as [t out].
  unfold create_client, try_catch. rewrite run_bind. unfold call at 1.
  simpl.
  destruct (ensureDir env _ t) as [err|t1]; simpl.
  - by rewrite ?app_assoc.
  - rewrite run_bind. unfold call. simpl.
    destruct (copy env _ _ _ t1) as [err|t2]; simpl;
      by rewrite ?app_assoc.
Qed.

(** The creation step keeps every entry of a tree that has nothing at
    the canonical path. *)
Lemma create_client_grows (t : tree) :
  existsSync t clientPath = false → t ⊆ (create_client env t).2.
Proof.
  intros Hex. unfold create_client.
  destruct (ensureDir env _ t) as [err|t1] eqn:Hdir; simpl; [done|].
  destruct (copy env _ _ _ t1) as [err|t2] eqn:Hcopy; simpl.
  - by eapply ensureDir_grows.
  - etrans; [by eapply ensureDir_grows|].
    eapply copy_absent_grows; [|exact Hcopy].
    unfold ensureDir in Hdir. destruct (fault env _); [done|].
    unfold existsSync in Hex.
    destruct (stat t clientPath) eqn:Hstat; [done|].
    apply stat_None in Hstat as [Hne Hnone].
    rewrite stat_lookup by done.
    by rewrite (mkdirs_dirname_dest _ _ _ Hdir).
Qed.

Lemma client_grows (w : world) :
  fs w ⊆ fs (checkAndCreateSupabaseClient env w).2.
Proof.
  rewrite client_run.
  destruct (existsSync (fs w) clientPath) eqn:Hex; simpl; [done|].
  by apply create_client_grows.
Qed.

(** The install step leaves the tree alone or hands it to the package
    manager, once. *)
Lemma install_tree (w : world) :
  fs (installDependencies env w).2 = fs w ∨
  ∃ cmd t', execSync env cmd (fs w) = inr t' ∧
            fs (installDependencies env w).2 = t'.
Proof.
  unfold installDependencies. rewrite run_bind. unfold exists_ at 1.
  destruct w as [t out]. simpl.
  destruct (existsSync t (join "package.json")); simpl; [|by left].
  rewrite run_bind. unfold read. simpl.
  destruct (readJsonSync env _ t) as [err|json]; simpl; [by left|].
  case_bool_decide; [|by left].
  assert (Hdetect : ∃ pm, detectPackageManager (World t out)
                          = (Resolved pm, World t out)).
  { unfold detectPackageManager. rewrite run_bind. unfold exists_ at 1.
    simpl. destruct (existsSync t (join "pnpm-lock.yaml")); [by eexists|].
    rewrite run_bind. unfold exists_. simpl.
    destruct (existsSync t (join "yarn.lock")); by eexists. }
  destruct Hdetect as [pm Hdetect].
  rewrite run_bind, Hdetect, run_bind, run_print.
  unfold try_catch. rewrite run_bind. unfold call. simpl.
  destruct (execSync env _ t) as [err|t'] eqn:Hexec; simpl.
  - by left.
  - right. eauto.
Qed.

(** [init] as the sequence of its steps: only the install step can make
    it reject. *)
Lemma init_run (w : world) :
  let w1 := World (fs w)
              (console w ++
               [LogInitializing;
                if falsy (process_env env "NEXT_PUBLIC_SUPABASE_URL")
                   || falsy (process_env env "NEXT_PUBLIC_SUPABASE_ANON_KEY")
                then WarnEnvMissing else LogEnvFound]) in
  let w2 := (for_of filesToCopy (copy_file env) w1).2 in
  let w3 := (checkAndCreateSupabaseClient env w2).2 in
  init env w =
  match installDependencies env w3 with
  | (Resolved _, w4) =>
      (Resolved tt, World (fs w4) (console w4 ++ [LogSetupComplete]))
  | (Rejected e, w4) => (Rejected e, w4)
  end.
Proof.
  intros w1 w2 w3. unfold init. rewrite run_bind, run_print.
  rewrite run_bind.
  assert (Henv :
    (if falsy (process_env env "NEXT_PUBLIC_SUPABASE_URL")
        || falsy (process_env env "NEXT_PUBLIC_SUPABASE_ANON_KEY")
     then print WarnEnvMissing else print LogEnvFound)
      (World (fs w) (console w ++ [LogInitializing])) = (Resolved tt, w1)).
  { unfold w1. destruct (_ || _); rewrite run_print; simpl;
      by rewrite <- app_assoc. }
  rewrite Henv. rewrite run_bind, copy_loop_turns.
  rewrite run_bind.
  assert (Hw2 : w2 = World (copy_turns env filesToCopy (fs w1)).2
                  (console w1 ++ zip_with copy_event filesToCopy
                     (copy_turns env filesToCopy (fs w1)).1)).
  { unfold w2. by rewrite copy_loop_turns. }
  rewrite <- Hw2.
  assert (Hclient : checkAndCreateSupabaseClient env w2 = (Resolved tt, w3)).
  { unfold w3. rewrite client_run. by destruct (existsSync _ _). }
  rewrite Hclient. rewrite run_bind.
  destruct (installDependencies env w3) as [[[]|e] w4]; [|done].
  by rewrite run_print.
Qed.

End init_steps.

(** What [init] does once the variables have been looked at. *)
Lemma init_after_check (env : environment) :
  tree_only (for_of filesToCopy (copy_file env) ;;
             checkAndCreateSupabaseClient env ;;
             installDependencies env ;;
             print LogSetupComplete).
Proof.
  unfold copy_file, checkAndCreateSupabaseClient, installDependencies,
    detectPackageManager.
  solve_tree_only.
Qed.

(** After the copy loop [init] prints nothing that reads as the outcome of
    a manifest entry. *)
Lemma init_after_copying_prints (env : environment) :
  prints (λ ev, provision_outcome ev = None)
         (checkAndCreateSupabaseClient env ;;
          installDependencies env ;;
          print LogSetupComplete).
Proof.
  unfold checkAndCreateSupabaseClient, installDependencies,
    detectPackageManager.
  solve_prints.
Qed.


(** ** Outcomes of the copy loop *)

Section copy_loop.
Variable env : environment.

Lemma copy_loop_tree (files : list manifest_entry) (w : world) :
  tree_after (for_of files (copy_file env)) w
  = (copy_turns env files (fs w)).2.
Proof. unfold tree_after. by rewrite copy_loop_turns. Qed.

Lemma copy_loop_outcomes (files : list manifest_entry) (w : world) :
  provision_outcomes (printed (for_of files (copy_file env)) w)
  = (copy_turns env files (fs w)).1.
Proof.
  rewrite (printed_app _ _
             (zip_with copy_event files (copy_turns env files (fs w)).1)).
  - apply provision_outcomes_events. by rewrite copy_turns_length.
  - by rewrite copy_loop_turns.
Qed.

(** The outcome of the [i]-th entry is that of its own turn, taken on a
    tree between the one the loop started from and the one it left. *)
Lemma copy_turns_at (files : list manifest_entry) (t : tree) (i : nat)
    (file : manifest_entry) :
  files !! i = Some file →
  ∃ ti, t ⊆ ti ∧
        (copy_turns env files t).1 !! i = Some (copy_turn env file ti).1 ∧
        (copy_turn env file ti).2 ⊆ (copy_turns env files t).2.
Proof.
  revert t i. induction files as [|f files IH]; intros t i; [done|].
  destruct i as [|i]; simpl.
  - intros [= ->]. exists t. split_and!; [done..|].
    apply copy_turns_grows.
  - intros Hi.
    destruct (IH (copy_turn env f t).2 i Hi) as (ti & H1 & H2 & H3).
    exists ti. split_and!; [|done..].
    etrans; [apply (copy_turn_grows env f)|done].
Qed.

(** A turn that finds a file at its destination does not copy. *)
Lemma copy_turn_existing (file : manifest_entry) (t : tree) (c : string) :
  t !! join (dest file) = Some (File c) →
  (copy_turn env file t).1 ≠ Created.
Proof.
  intros Hfile. unfold copy_turn.
  destruct (ensureDir env _ t) as [err|t1] eqn:Hdir; simpl.
  { apply caught_not_created. }
  apply ensureDir_grows in Hdir.
  assert (Ht1 : t1 !! join (dest file) = Some (File c))
    by (by eapply lookup_weaken).
  unfold copy. destruct (fault env _); simpl; [apply caught_not_created|].
  destruct (templates env _); simpl; [|apply caught_not_created].
  destruct (join (dest file)) as [|seg segs] eqn:Hdest; simpl.
  { apply caught_not_created. }
  rewrite Ht1. simpl. apply caught_not_created.
Qed.

End copy_loop.

(** ** C1: existing destinations are left alone *)

(** C1. A file that is already at a manifest entry's destination before
    provisioning is still there afterwards with the same contents, whatever
    the template holds.  The copy loop leaves it in place and does not
    report the entry as created, and so does a whole run of [init], where
    the only other party that writes is the package manager the install
    step may start, taken here to leave that path alone. *)
Theorem existing_destination_untouched (env : environment) (w : world)
    (file : manifest_entry) (content : string) :
  file ∈ filesToCopy →
  fs w !! join (dest file) = Some (File content) →
  tree_after (for_of filesToCopy (copy_file env)) w !! join (dest file)
    = Some (File content)
  ∧ (∀ i, filesToCopy !! i = Some file →
          provision_outcomes
            (printed (for_of filesToCopy (copy_file env)) w) !! i
          ≠ Some Created)
  ∧ ((∀ cmd t t', execSync env cmd t = inr t' →
                  t' !! join (dest file) = t !! join (dest file)) →
     tree_after (init env) w !! join (dest file) = Some (File content)).
Proof.
  intros _ Hfile. split_and!.
  - rewrite copy_loop_tree.
    eapply lookup_weaken; [exact Hfile|apply copy_turns_grows].
  - intros i Hi. rewrite copy_loop_outcomes.
    destruct (copy_turns_at env _ (fs w) i file Hi) as (ti & Hti & -> & _).
    intros [= Hcreated]. revert Hcreated.
    eapply copy_turn_existing. by eapply lookup_weaken.
  - intros Hpm. unfold tree_after. rewrite init_run. cbv zeta.
    set (w1 := World (fs w) _).
    set (w2 := (for_of filesToCopy (copy_file env) w1).2).
    set (w3 := (checkAndCreateSupabaseClient env w2).2).
    assert (H2 : fs w2 !! join (dest file) = Some (File content)).
    { unfold w2. fold (tree_after (for_of filesToCopy (copy_file env)) w1).
      rewrite copy_loop_tree.
      eapply lookup_weaken; [exact Hfile|apply copy_turns_grows]. }
    assert (H3 : fs w3 !! join (dest file) = Some (File content)).
    { eapply lookup_weaken; [exact H2|apply client_grows]. }
    assert (H4 : fs (installDependencies env w3).2 !! join (dest file)
                 = Some (File content)).
    { destruct (install_tree env w3) as [->|(cmd & t' & Hexec & ->)];
        [done|].
      by rewrite (Hpm _ _ _ Hexec). }
    by destruct (installDependencies env w3) as [[[]|e] w4].
Qed.

Lemma existing_destination_untouched_witness :
  tree_after (for_of filesToCopy (copy_file calm)) own_vercel
    !! join "vercel.json" = Some (File "{ }")
  ∧ (∀ i, filesToCopy !! i
          = Some (Entry "vercel.json" "vercel.json"
                        "Created vercel.json at vercel.json") →
          provision_outcomes
            (printed (for_of filesToCopy (copy_file calm)) own_vercel) !! i
          ≠ Some Created)
  ∧ ((∀ cmd t t', execSync calm cmd t = inr t' →
                  t' !! join "vercel.json" = t !! join "vercel.json") →
     tree_after (init calm) own_vercel !! join "vercel.json"
       = Some (File "{ }")).
Proof.
  apply (existing_destination_untouched calm own_vercel
           (Entry "vercel.json" "vercel.json"
                  "Created vercel.json at vercel.json") "{ }").
  - unfold filesToCopy. repeat constructor.
  - reflexivity.
Defined.

(** ** C2: running the copy loop again *)

Section rerun.
Variable env : environment.

Lemma ensureDir_settled (p : path) (t : tree) :
  fault env (OpEnsureDir p) = None → dirs_below t [] p →
  ensureDir env p t = inr t.
Proof. intros Hf Hd. unfold ensureDir. rewrite Hf. by apply mkdirs_id. Qed.

Lemma dirs_below_weaken (t t2 : tree) (base rest : path) :
  t ⊆ t2 → dirs_below t base rest → dirs_below t2 base rest.
Proof. intros Hsub Hd k Hk. eapply lookup_weaken; [by apply Hd|done]. Qed.

Lemma stat_weaken (t t2 : tree) (p : path) (n : node) :
  t ⊆ t2 → stat t p = Some n → stat t2 p = Some n.
Proof. intros Hsub. destruct p; [done|]. simpl. intros H. by eapply lookup_weaken. Qed.

(** A copy that went through wrote the template at a destination that was
    free. *)
Lemma copy_no_overwrite_done (src : string) (dest : path) (t t' : tree) :
  copy env src dest no_overwrite t = inr t' →
  fault env (OpCopy src dest) = None ∧ dest ≠ [] ∧
  ∃ c, templates env src = Some c ∧ t' !! dest = Some (File c).
Proof.
  unfold copy. destruct (fault env _); [done|].
  destruct (templates env src) as [c|]; [|done].
  destruct (stat t dest) as [[c'|]|] eqn:Hstat; simpl; try done.
  destruct (mkdirs (dirname dest) t) as [e|t1]; [done|]. intros [= <-].
  apply stat_None in Hstat as [Hne _]. split_and!; [done..|].
  exists c. by rewrite lookup_insert_eq.
Qed.

(** A refused copy is refused again on every larger tree, as long as the
    directories above the destination are in place. *)
Lemma copy_no_overwrite_refused (src : string) (dest : path) (t t2 : tree)
    (err : error) :
  copy env src dest no_overwrite t = inl err →
  dirs_below t [] (dirname dest) → t ⊆ t2 →
  ∃ err', copy env src dest no_overwrite t2 = inl err'.
Proof.
  unfold copy. intros Hcopy Hdirs Hsub.
  destruct (fault env _); [eauto|].
  destruct (templates env src) as [c|]; [|eauto].
  destruct (stat t dest) as [[c'|]|] eqn:Hstat; simpl in *.
  - rewrite (stat_weaken _ _ _ _ Hsub Hstat). simpl. eauto.
  - rewrite (stat_weaken _ _ _ _ Hsub Hstat). eauto.
  - by rewrite (mkdirs_id _ _ Hdirs) in Hcopy.
Qed.

(** Once a turn has been taken, taking it again on the tree it left, or on
    any tree that contains it, changes nothing and creates nothing; where
    the first turn created the file, the second is refused with the
    library's error for an existing destination. *)
Lemma copy_turn_settled (file : manifest_entry) (t t2 : tree) :
  (copy_turn env file t).2 ⊆ t2 →
  (copy_turn env file t2).2 = t2 ∧
  (copy_turn env file t2).1 ≠ Created ∧
  ((copy_turn env file t).1 = Created →
   (copy_turn env file t2).1 = caught (exists_error env (join (dest file))) ∧
   ∃ c, templates env (src file) = Some c ∧
        t2 !! join (dest file) = Some (File c)).
Proof.
  unfold copy_turn. set (d := join (dest file)).
  destruct (ensureDir env (dirname d) t) as [err|t1] eqn:Hdir; simpl.
  - (* the directory could not be made *)
    intros Hsub. unfold ensureDir in *.
    destruct (fault env (OpEnsureDir (dirname d))) as [e|] eqn:Hfault; simpl.
    { split_and!; [done|apply caught_not_created|].
      intros H. by apply caught_not_created in H. }
    destruct (mkdirs_from_blocked [] (dirname d) t t2 err Hdir) as [e' He'].
    { intros k n _ Hn. by eapply lookup_weaken. }
    unfold mkdirs. rewrite He'.
    simpl. split_and!; [done|apply caught_not_created|].
    intros H. by apply caught_not_created in H.
  - assert (Hfault : fault env (OpEnsureDir (dirname d)) = None).
    { unfold ensureDir in Hdir. by destruct (fault env _). }
    assert (Hdirs : dirs_below t1 [] (dirname d)).
    { unfold ensureDir in Hdir. rewrite Hfault in Hdir.
      by apply mkdirs_dirs in Hdir. }
    destruct (copy env (src file) d no_overwrite t1) as [err|t'] eqn:Hcopy;
      simpl; intros Hsub.
    + (* the copy was refused *)
      rewrite ensureDir_settled;
        [|done|by eapply dirs_below_weaken].
      destruct (copy_no_overwrite_refused _ _ _ t2 _ Hcopy Hdirs Hsub)
        as [err' ->].
      simpl. split_and!; [done|apply caught_not_created|].
      intros H. by apply caught_not_created in H.
    + (* the file was created *)
      destruct (copy_no_overwrite_done _ _ _ _ Hcopy)
        as (Hcf & Hne & c & Htpl & Hdest).
      assert (Hsub1 : t1 ⊆ t2).
      { etrans; [|exact Hsub]. by eapply copy_no_overwrite_grows. }
      rewrite ensureDir_settled;
        [|done|by eapply dirs_below_weaken].
      assert (Hd2 : t2 !! d = Some (File c)) by (by eapply lookup_weaken).
      assert (Hagain : copy env (src file) d no_overwrite t2
                       = inl (exists_error env d)).
      { unfold copy. rewrite Hcf, Htpl, stat_lookup, Hd2 by done. done. }
      rewrite Hagain. simpl.
      split_and!; [done|apply caught_not_created|].
      intros _. split; [done|]. by exists c.
Qed.

Lemma copy_turns_settled (files : list manifest_entry) (t t2 : tree) :
  (copy_turns env files t).2 ⊆ t2 →
  (copy_turns env files t2).2 = t2 ∧
  ∀ i file, files !! i = Some file →
    (copy_turns env files t2).1 !! i ≠ Some Created ∧
    ((copy_turns env files t).1 !! i = Some Created →
     (copy_turns env files t2).1 !! i
       = Some (caught (exists_error env (join (dest file)))) ∧
     ∃ c, templates env (src file) = Some c ∧
          t2 !! join (dest file) = Some (File c)).
Proof.
  revert t. induction files as [|f files IH]; intros t Hsub.
  { split; [done|]. intros i file Hi. done. }
  simpl in Hsub.
  assert (Hf : (copy_turn env f t).2 ⊆ t2).
  { etrans; [apply copy_turns_grows|exact Hsub]. }
  destruct (copy_turn_settled f t t2 Hf) as (Htree & Hnot & Hcreated).
  destruct (IH _ Hsub) as [IHtree IHout].
  simpl. rewrite Htree. split; [done|].
  intros [|i] file Hi; simpl in *.
  - injection Hi as ->. split.
    + intros [= H]. done.
    + intros [= H]. destruct (Hcreated H) as [-> Hc]. done.
  - by apply IHout.
Qed.

End rerun.

(** The second run of the copy loop, on the tree the first run has left
    or on any tree that contains it: it alters no file and creates none,
    and an entry the first run created is refused by the copy library
    with its error for an existing destination, the destination still
    holding the contents of the template. *)
Lemma second_run_settled (env : environment) (w w2 : world)
    (i : nat) (file : manifest_entry) :
  let run := for_of filesToCopy (copy_file env) in
  fs (run w).2 ⊆ fs w2 →
  filesToCopy !! i = Some file →
  tree_after run w2 = fs w2
  ∧ provision_outcomes (printed run w2) !! i ≠ Some Created
  ∧ (provision_outcomes (printed run w) !! i = Some Created →
     provision_outcomes (printed run w2) !! i
       = Some (caught (exists_error env (join (dest file))))
     ∧ ∃ c, templates env (src file) = Some c ∧
            fs w2 !! join (dest file) = Some (File c)).
Proof.
  intros run Hsub Hi. unfold run in *.
  fold (tree_after (for_of filesToCopy (copy_file env)) w) in Hsub.
  rewrite copy_loop_tree in Hsub.
  rewrite copy_loop_tree, !copy_loop_outcomes.
  destruct (copy_turns_settled env _ _ _ Hsub) as [Htree Hout].
  destruct (Hout i file Hi) as [Hnot Hcreated].
  split_and!; [done..|].
  intros H1. by destruct (Hcreated H1) as [H2 Hc].
Qed.

(** The refusal of the copy library is not the error line 138 looks for:
    it has no code, and the handler takes the other branch. *)
Lemma caught_already_exists (what : string) :
  caught (already_exists what)
  = Failed ("'" +:+ what +:+ "' already exists").
Proof. reflexivity. Qed.

(** With [app] a regular file the first two entries fail on both runs:
    they are not reported as skipped on the second run either. *)
Lemma rerun_not_all_skipped : ¬ rerun_all_skipped calm app_is_a_file.
Proof. unfold rerun_all_skipped. vm_compute. discriminate. Qed.

Example rerun_app_is_a_file :
  let run := for_of filesToCopy (copy_file calm) in
  provision_outcomes (printed run (run app_is_a_file).2)
  = [Failed "ENOTDIR: not a directory, app";
     Failed "ENOTDIR: not a directory, app";
     Failed "'config/keep-alive-config.ts' already exists";
     Failed "'keep-alive.sql' already exists";
     Failed "'vercel.json' already exists"].
Proof. vm_compute. reflexivity. Qed.

(** ** Running [init] again *)

Section init_again.
Variable env : environment.

Lemma provision_outcomes_app (evs1 evs2 : list event) :
  provision_outcomes (evs1 ++ evs2)
  = provision_outcomes evs1 ++ provision_outcomes evs2.
Proof. unfold provision_outcomes. apply omap_app. Qed.

Lemma provision_outcomes_none (evs : list event) :
  Forall (λ ev, provision_outcome ev = None) evs →
  provision_outcomes evs = [].
Proof.
  unfold provision_outcomes. induction 1 as [|ev evs Hev _ IH]; [done|].
  cbn [omap list_omap]. by rewrite Hev.
Qed.

(** [init], from the end of its copy loop on. *)
Lemma init_from_copy_loop (w : world) :
  init env w
  = (checkAndCreateSupabaseClient env ;;
     installDependencies env ;;
     print LogSetupComplete)
      (World (copy_turns env filesToCopy (fs w)).2
         (console w ++
          [LogInitializing;
           if falsy (process_env env "NEXT_PUBLIC_SUPABASE_URL")
              || falsy (process_env env "NEXT_PUBLIC_SUPABASE_ANON_KEY")
           then WarnEnvMissing else LogEnvFound] ++
          zip_with copy_event filesToCopy
            (copy_turns env filesToCopy (fs w)).1)).
Proof.
  unfold init. rewrite run_bind, run_print. cbv beta iota.
  rewrite run_bind.
  destruct (falsy (process_env env "NEXT_PUBLIC_SUPABASE_URL")
            || falsy (process_env env "NEXT_PUBLIC_SUPABASE_ANON_KEY"));
    cbv beta iota; rewrite run_print; cbv beta iota;
    rewrite run_bind, copy_loop_turns; cbv beta iota; cbn [fs console];
    rewrite <- !app_assoc; reflexivity.
Qed.

(** The outcomes [init] prints are those of its copy loop. *)
Lemma init_outcomes (w : world) :
  provision_outcomes (printed (init env) w)
  = (copy_turns env filesToCopy (fs w)).1.
Proof.
  pose proof (init_from_copy_loop w) as Hinit.
  destruct (init_after_copying_prints env
              (World (copy_turns env filesToCopy (fs w)).2
                 (console w ++
                  [LogInitializing;
                   if falsy (process_env env "NEXT_PUBLIC_SUPABASE_URL")
                      || falsy (process_env env
                                  "NEXT_PUBLIC_SUPABASE_ANON_KEY")
                   then WarnEnvMissing else LogEnvFound] ++
                  zip_with copy_event filesToCopy
                    (copy_turns env filesToCopy (fs w)).1)))
    as (evs & Hevs & Hquiet).
  rewrite <- Hinit in Hevs. cbn [console] in Hevs.
  rewrite <- !app_assoc in Hevs.
  rewrite (printed_app _ _ _ Hevs).
  rewrite !provision_outcomes_app, (provision_outcomes_none evs Hquiet).
  rewrite app_nil_r.
  rewrite provision_outcomes_events by (by rewrite copy_turns_length).
  by destruct (falsy _ || falsy _).
Qed.

(** When the package manager only adds to the tree, what the copy loop
    left is still there at the end of [init]. *)
Lemma init_keeps_copies (w : world) :
  (∀ cmd t t', execSync env cmd t = inr t' → t ⊆ t') →
  (copy_turns env filesToCopy (fs w)).2 ⊆ tree_after (init env) w.
Proof.
  intros Hpm. unfold tree_after. rewrite init_run. cbv zeta.
  set (w1 := World (fs w) _).
  set (w2 := (for_of filesToCopy (copy_file env) w1).2).
  set (w3 := (checkAndCreateSupabaseClient env w2).2).
  assert (H2 : fs w2 = (copy_turns env filesToCopy (fs w)).2).
  { unfold w2. fold (tree_after (for_of filesToCopy (copy_file env)) w1).
    by rewrite copy_loop_tree. }
  assert (H3 : fs w2 ⊆ fs w3) by apply client_grows.
  assert (H4 : fs w3 ⊆ fs (installDependencies env w3).2).
  { destruct (install_tree env w3) as [->|(cmd & t' & Hexec & ->)];
      [done|by eapply Hpm]. }
  rewrite <- H2.
  destruct (installDependencies env w3) as [[[]|e] w4]; cbn [snd fs] in *;
    by etrans.
Qed.

(** A second run of [init], in surroundings where the package manager
    only adds to the tree: no entry is created, and an entry the first run
    created is refused with the library's error for an existing
    destination. *)
Lemma init_again (w : world) (i : nat) (file : manifest_entry) :
  (∀ cmd t t', execSync env cmd t = inr t' → t ⊆ t') →
  filesToCopy !! i = Some file →
  provision_outcomes (printed (init env) (init env w).2) !! i ≠ Some Created
  ∧ (provision_outcomes (printed (init env) w) !! i = Some Created →
     provision_outcomes (printed (init env) (init env w).2) !! i
     = Some (caught (exists_error env (join (dest file))))).
Proof.
  intros Hpm Hi. rewrite !init_outcomes.
  destruct (copy_turns_settled env filesToCopy (fs w) (fs (init env w).2))
    as [_ Hout].
  { by apply init_keeps_copies. }
  destruct (Hout i file Hi) as [Hnot Hcreated].
  split; [done|]. intros H1. by destruct (Hcreated H1).
Qed.

End init_again.

(** With the copy library as it is, a second run of [init] reports every
    entry the first run created as a copy error. *)
Lemma init_again_reports_errors (env : environment) (w : world) (i : nat)
    (file : manifest_entry) :
  (∀ p, exists_error env p = already_exists (show p)) →
  (∀ cmd t t', execSync env cmd t = inr t' → t ⊆ t') →
  filesToCopy !! i = Some file →
  provision_outcomes (printed (init env) w) !! i = Some Created →
  provision_outcomes (printed (init env) (init env w).2) !! i
  = Some (Failed ("'" +:+ show (join (dest file)) +:+ "' already exists")).
Proof.
  intros Hlib Hpm Hi Hcreated.
  destruct (init_again env w i file Hpm Hi) as [_ Hagain].
  by rewrite (Hagain Hcreated), Hlib, caught_already_exists.
Qed.

(** C2.  [init], run twice in an empty project.  The first run creates
    the five files.  On the second run [fs.copy] refuses each of them
    with its error for an existing destination, and that error has no
    [code]: the test [err.code === 'EEXIST'] of line 138 fails and line
    141 prints the refusal as a copy error.  No entry is reported as
    skipped, which is what the specification promises; the files keep the
    contents the first run gave them. *)
Theorem second_provision_reports_errors :
  provision_outcomes (printed (init calm) empty_project)
  = replicate 5 Created
  ∧ printed (init calm) (init calm empty_project).2
    = [LogInitializing; WarnEnvMissing;
       ErrCopy "route.ts" "'app/api/keep-alive/route.ts' already exists";
       ErrCopy "keepAliveUtils.ts"
               "'app/api/keep-alive/keepAliveUtils.ts' already exists";
       ErrCopy "keep-alive-config.ts"
               "'config/keep-alive-config.ts' already exists";
       ErrCopy "keep-alive.sql" "'keep-alive.sql' already exists";
       ErrCopy "vercel.json" "'vercel.json' already exists";
       LogClientFound; LogSetupComplete]
  ∧ provision_outcomes (printed (init calm) (init calm empty_project).2)
    = [Failed "'app/api/keep-alive/route.ts' already exists";
       Failed "'app/api/keep-alive/keepAliveUtils.ts' already exists";
       Failed "'config/keep-alive-config.ts' already exists";
       Failed "'keep-alive.sql' already exists";
       Failed "'vercel.json' already exists"]
  ∧ ¬ rerun_all_skipped calm empty_project
  ∧ Forall (λ file,
             tree_after (init calm) (init calm empty_project).2
               !! join (dest file)
             = Some (File ("// " +:+ src file)))
           filesToCopy.
Proof.
  split_and!.
  - vm_compute. reflexivity.
  - vm_compute. reflexivity.
  - vm_compute. reflexivity.
  - unfold rerun_all_skipped. vm_compute. discriminate.
  - repeat constructor; vm_compute; reflexivity.
Qed.

(** ** The steps of [uninstall] and the exit status *)

Section uninstall_steps.
Variable env : environment.

Lemma clean_dir_turn (dir : string) (w : world) :
  clean_dir env dir w =
  match clean_turn env dir (fs w) with
  | inl e => (Rejected e, w)
  | inr (true, t') => (Resolved tt, World t' (console w ++ [LogRemovedDir dir]))
  | inr (false, _) => (Resolved tt, w)
  end.
Proof.
  unfold clean_dir, clean_turn. rewrite run_bind. unfold exists_ at 1.
  cbv beta iota. destruct (existsSync (fs w) (join dir)); [|done].
  rewrite run_bind. unfold read. cbv beta iota.
  destruct (readdir env (join dir) (fs w)) as [e|files]; [done|].
  cbv beta iota. case_bool_decide; [|done].
  rewrite run_bind. unfold call. cbv beta iota.
  by destruct (remove env (join dir) (fs w)) as [e|t'].
Qed.

(** [uninstall] as the sequence of its steps: only the directory clean-up
    can make it reject. *)
Lemma uninstall_run (w : world) :
  uninstall env w =
  match for_of dirsToClean (clean_dir env) (before_cleanup env w) with
  | (Resolved _, w3) =>
      (Resolved tt, World (fs w3) (console w3 ++ [LogUninstallComplete]))
  | (Rejected e, w3) => (Rejected e, w3)
  end.
Proof.
  unfold uninstall. rewrite run_bind, run_print.
  cbv beta iota. rewrite run_bind.
  assert (Hloop : for_of filesToDelete (delete_file env)
                    (World (fs w) (console w ++ [LogUninstalling]))
                  = (Resolved tt, before_cleanup env w)).
  { unfold before_cleanup. rewrite run_print. cbn [snd].
    by rewrite delete_loop_turns. }
  rewrite Hloop. cbv beta iota. rewrite run_bind.
  destruct (for_of dirsToClean (clean_dir env) _) as [[[]|e] w3]; [|done].
  by rewrite run_print.
Qed.

Lemma init_run_cut (w : world) :
  init env w =
  match installDependencies env (before_install env w) with
  | (Resolved _, w4) =>
      (Resolved tt, World (fs w4) (console w4 ++ [LogSetupComplete]))
  | (Rejected e, w4) => (Rejected e, w4)
  end.
Proof.
  rewrite init_run. cbv zeta. unfold before_install, after_copying.
  rewrite run_print. cbn [snd].
  destruct (falsy _ || falsy _); rewrite run_print; cbn [snd fs console];
    by rewrite <- app_assoc.
Qed.

Lemma main_status (argv : list string) (w : world) :
  (main env argv w).1 =
  if includes (drop 2 argv) "uninstall"
  then status_of (for_of dirsToClean (clean_dir env) (before_cleanup env w)).1
  else status_of (installDependencies env (before_install env w)).1.
Proof.
  unfold main. destruct (includes _ _).
  - rewrite uninstall_run.
    by destruct (for_of dirsToClean _ _) as [[[]|e] w3].
  - rewrite init_run_cut.
    by destruct (installDependencies env _) as [[[]|e] w4].
Qed.

End uninstall_steps.

(** ** C3: a failing entry does not stop the run *)

Section containment.
Variable env : environment.

Lemma copy_loop_resolves (files : list manifest_entry) (w : world) :
  (for_of files (copy_file env) w).1 = Resolved tt.
Proof. by rewrite copy_loop_turns. Qed.

Lemma delete_loop_resolves (files : list string) (w : world) :
  (for_of files (delete_file env) w).1 = Resolved tt.
Proof. by rewrite delete_loop_turns. Qed.

Lemma delete_loop_outcomes (files : list string) (w : world) :
  removal_outcomes (printed (for_of files (delete_file env)) w)
  = (delete_turns env files (fs w)).1.
Proof.
  rewrite (printed_app _ _
             (zip_with delete_event files (delete_turns env files (fs w)).1)).
  - apply removal_outcomes_events. by rewrite delete_turns_length.
  - by rewrite delete_loop_turns.
Qed.

Lemma delete_loop_tree (files : list string) (w : world) :
  tree_after (for_of files (delete_file env)) w
  = (delete_turns env files (fs w)).2.
Proof. unfold tree_after. by rewrite delete_loop_turns. Qed.

(** A loop whose body always resolves goes through the whole list. *)
Lemma for_of_through {A} (body : A → M unit) (before after : list A) (x : A)
    (w : world) :
  (∀ y w', (body y w').1 = Resolved tt) →
  for_of (before ++ x :: after) body w
  = for_of after body (body x (for_of before body w).2).2.
Proof.
  intros Hbody. revert w. induction before as [|y before IH]; intros w.
  - simpl. rewrite run_bind. specialize (Hbody x w).
    destruct (body x w) as [c w']. simpl in *. by rewrite Hbody.
  - simpl. rewrite !run_bind. specialize (Hbody y w).
    destruct (body y w) as [c w']. simpl in *. rewrite Hbody. apply IH.
Qed.

Lemma copy_file_reports (file : manifest_entry) (w : world) (err : error) :
  ensureDir env (dirname (join (dest file))) (fs w) = inl err
  ∨ (∃ t1, ensureDir env (dirname (join (dest file))) (fs w) = inr t1 ∧
           copy env (src file) (join (dest file)) no_overwrite t1 = inl err) →
  printed (copy_file env file) w = [copy_event file (caught err)].
Proof.
  intros H. apply printed_app. rewrite copy_file_turn. cbn [snd console].
  do 2 f_equal. unfold copy_turn.
  destruct H as [->|(t1 & -> & ->)]; done.
Qed.

Lemma delete_file_reports (file : string) (w : world) (err : error) :
  existsSync (fs w) (join file) = true →
  remove env (join file) (fs w) = inl err →
  printed (delete_file env file) w = [ErrDelete file (message err)]
  ∧ tree_after (delete_file env file) w = fs w.
Proof.
  intros Hex Hrm. unfold tree_after. rewrite delete_file_turn.
  unfold delete_turn. rewrite Hex, Hrm. cbn [fst snd fs]. split; [|done].
  apply printed_app. rewrite delete_file_turn. unfold delete_turn.
  by rewrite Hex, Hrm.
Qed.

End containment.

(** C3. In the copy loop and in the deletion loop a failure of one entry is
    caught and reported and the loop goes on: whatever the list and the
    tree, the loop resolves, it prints one outcome per entry, and the
    entries after a failed one are processed on the world that one left.
    The exit status is 0 when the run completes, whatever the outcomes of
    the entries, and 1 exactly when a step outside these loops rejects:
    the directory clean-up for [uninstall], the install step for
    [init]. *)
Theorem entry_failure_does_not_abort (env : environment) :
  (∀ files w,
     (for_of files (copy_file env) w).1 = Resolved tt ∧
     length (provision_outcomes (printed (for_of files (copy_file env)) w))
       = length files)
  ∧ (∀ files w,
     (for_of files (delete_file env) w).1 = Resolved tt ∧
     length (removal_outcomes (printed (for_of files (delete_file env)) w))
       = length files)
  ∧ (∀ before file after w,
     for_of (before ++ file :: after) (copy_file env) w
     = for_of after (copy_file env)
         (copy_file env file (for_of before (copy_file env) w).2).2)
  ∧ (∀ before file after w,
     for_of (before ++ file :: after) (delete_file env) w
     = for_of after (delete_file env)
         (delete_file env file (for_of before (delete_file env) w).2).2)
  ∧ (∀ file w err,
     ensureDir env (dirname (join (dest file))) (fs w) = inl err
     ∨ (∃ t1, ensureDir env (dirname (join (dest file))) (fs w) = inr t1 ∧
              copy env (src file) (join (dest file)) no_overwrite t1
              = inl err) →
     printed (copy_file env file) w = [copy_event file (caught err)])
  ∧ (∀ file w err,
     existsSync (fs w) (join file) = true →
     remove env (join file) (fs w) = inl err →
     printed (delete_file env file) w = [ErrDelete file (message err)]
     ∧ tree_after (delete_file env file) w = fs w)
  ∧ (∀ argv w,
     (main env argv w).1 =
     if includes (drop 2 argv) "uninstall"
     then status_of
            (for_of dirsToClean (clean_dir env) (before_cleanup env w)).1
     else status_of (installDependencies env (before_install env w)).1).
Proof.
  split_and!.
  - intros files w. split; [apply copy_loop_resolves|].
    by rewrite copy_loop_outcomes, copy_turns_length.
  - intros files w. split; [apply delete_loop_resolves|].
    by rewrite delete_loop_outcomes, delete_turns_length.
  - intros before file after w. apply for_of_through.
    intros y w'. by rewrite copy_file_turn.
  - intros before file after w. apply for_of_through.
    intros y w'. by rewrite delete_file_turn.
  - apply copy_file_reports.
  - apply delete_file_reports.
  - apply main_status.
Qed.

Lemma entry_failure_does_not_abort_witness :
  printed (copy_file calm
             (Entry "route.ts" "app/api/keep-alive/route.ts"
                    "Created API route at app/api/keep-alive/route.ts"))
          app_is_a_file
  = [ErrCopy "route.ts" "ENOTDIR: not a directory, app"].
Proof.
  destruct (entry_failure_does_not_abort calm)
    as (_ & _ & _ & _ & Hreport & _).
  apply (Hreport
           (Entry "route.ts" "app/api/keep-alive/route.ts"
                  "Created API route at app/api/keep-alive/route.ts")
           app_is_a_file (ENOTDIR "app")).
  left. reflexivity.
Defined.

(** Two entries fail, three are created, and the status is 0. *)
Example status_with_failed_entries :
  main calm ["node"; "hi-supabase"] app_is_a_file
  = (0%Z,
     World (fs (init calm app_is_a_file).2)
       [LogInitializing; WarnEnvMissing;
        ErrCopy "route.ts" "ENOTDIR: not a directory, app";
        ErrCopy "keepAliveUtils.ts" "ENOTDIR: not a directory, app";
        LogCreated "Created config at config/keep-alive-config.ts";
        LogCreated "Created SQL script at keep-alive.sql";
        LogCreated "Created vercel.json at vercel.json";
        LogClientCreated; LogSetupComplete]).
Proof. vm_compute. reflexivity. Qed.

(** [config] is a regular file: listing it fails outside the deletion
    loop, and the status is 1. *)
Example status_after_unhandled_error :
  (main calm ["node"; "hi-supabase"; "uninstall"] config_is_a_file).1 = 1%Z.
Proof. vm_compute. reflexivity. Qed.

(** ** The deletion loop *)

Lemma apart_filesToDelete : apart filesToDelete.
Proof.
  unfold filesToDelete. simpl.
  repeat split; repeat constructor;
    by (apply (bool_decide_unpack _); vm_compute).
Qed.

Section delete_loop.
Variable env : environment.

Lemma existsSync_false (t : tree) (p : path) :
  existsSync t p = false ↔ stat t p = None.
Proof. unfold existsSync. by destruct (stat t p). Qed.

Lemma remove_shrinks (p : path) (t t' : tree) :
  remove env p t = inr t' → t' ⊆ t.
Proof.
  unfold remove. destruct (fault env _); [done|]. intros [= <-].
  apply map_filter_subseteq.
Qed.

Lemma delete_turn_shrinks (file : string) (t : tree) :
  (delete_turn env file t).2 ⊆ t.
Proof.
  unfold delete_turn. destruct (existsSync t (join file)); [|done].
  destruct (remove env (join file) t) as [e|t'] eqn:Hrm; [done|].
  by eapply remove_shrinks.
Qed.

Lemma delete_turns_shrinks (files : list string) (t : tree) :
  (delete_turns env files t).2 ⊆ t.
Proof.
  revert t. induction files as [|f files IH]; intros t; simpl; [done|].
  etrans; [apply IH|apply delete_turn_shrinks].
Qed.

Lemma delete_turn_outside (file : string) (t : tree) (q : path) :
  ¬ join file `prefix_of` q → (delete_turn env file t).2 !! q = t !! q.
Proof.
  intros Hpre. unfold delete_turn.
  destruct (existsSync t (join file)); [|done].
  destruct (remove env (join file) t) as [e|t'] eqn:Hrm; [done|].
  by eapply remove_outside.
Qed.

(** The outcome of the [i]-th entry is that of its own turn, taken on a
    tree that still has at the entry's path what the loop started with. *)
Lemma delete_turns_at (files : list string) (t : tree) (i : nat)
    (file : string) :
  apart files → files !! i = Some file →
  ∃ ti, ti !! join file = t !! join file ∧
        (delete_turns env files t).1 !! i = Some (delete_turn env file ti).1 ∧
        (delete_turns env files t).2 ⊆ (delete_turn env file ti).2.
Proof.
  revert t i. induction files as [|g files IH]; intros t i Hapart Hi; [done|].
  destruct Hapart as [Hg Hapart]. destruct i as [|i]; simpl in *.
  - injection Hi as ->. exists t. split_and!; [done..|].
    apply delete_turns_shrinks.
  - destruct (IH (delete_turn env g t).2 i Hapart Hi) as (ti & H1 & H2 & H3).
    exists ti. split_and!; [|done..].
    rewrite H1. apply delete_turn_outside.
    rewrite Forall_forall in Hg. apply Hg.
    by eapply list_elem_of_lookup_2.
Qed.

(** Where nothing of the list is there, nothing happens. *)
Lemma delete_turns_absent (files : list string) (t : tree) :
  (∀ f, f ∈ files → existsSync t (join f) = false) →
  delete_turns env files t = (replicate (length files) NotFound, t).
Proof.
  induction files as [|g files IH]; intros Habs; [done|].
  assert (Hg : delete_turn env g t = (NotFound, t)).
  { unfold delete_turn. by rewrite (Habs g) by apply list_elem_of_here. }
  simpl. rewrite Hg. cbn [fst snd].
  rewrite IH; [done|]. intros f Hf. apply Habs.
  by apply list_elem_of_further.
Qed.

(** The clean-up loop prints no removal outcome and only takes away. *)
Lemma clean_loop_frame (dirs : list string) (w : world) :
  fs (for_of dirs (clean_dir env) w).2 ⊆ fs w ∧
  ∃ evs, console (for_of dirs (clean_dir env) w).2 = console w ++ evs ∧
         removal_outcomes evs = [].
Proof.
  revert w. induction dirs as [|d dirs IH]; intros w.
  { simpl. split; [done|]. exists []. by rewrite app_nil_r. }
  simpl. rewrite run_bind, clean_dir_turn. unfold clean_turn.
  destruct (existsSync (fs w) (join d)); [|apply IH].
  destruct (readdir env (join d) (fs w)) as [e|files].
  { simpl. split; [done|]. exists []. by rewrite app_nil_r. }
  case_bool_decide; [|apply IH].
  destruct (remove env (join d) (fs w)) as [e|t'] eqn:Hrm.
  { simpl. split; [done|]. exists []. by rewrite app_nil_r. }
  destruct (IH (World t' (console w ++ [LogRemovedDir d])))
    as (Hsub & evs & Hcon & Hnone).
  cbn [fs console] in *. split.
  - etrans; [exact Hsub|]. by eapply remove_shrinks.
  - exists (LogRemovedDir d :: evs). split.
    + rewrite Hcon. by rewrite <- app_assoc.
    + done.
Qed.

Lemma removal_outcomes_app (evs1 evs2 : list event) :
  removal_outcomes (evs1 ++ evs2)
  = removal_outcomes evs1 ++ removal_outcomes evs2.
Proof. unfold removal_outcomes. apply omap_app. Qed.

(** What [uninstall] reports for the manifest is what the deletion loop
    reports, and it leaves no more than that loop leaves. *)
Lemma uninstall_outcomes (w : world) :
  removal_outcomes (printed (uninstall env) w)
  = (delete_turns env filesToDelete (fs w)).1.
Proof.
  destruct (clean_loop_frame dirsToClean (before_cleanup env w))
    as (_ & evs & Hcon & Hnone).
  assert (Hbefore : console (before_cleanup env w)
    = console w ++ [LogUninstalling] ++
      zip_with delete_event filesToDelete
        (delete_turns env filesToDelete (fs w)).1).
  { unfold before_cleanup. rewrite delete_loop_turns, run_print.
    cbn [snd fs console]. by rewrite <- app_assoc. }
  assert (Hout : ∃ tail,
    console (uninstall env w).2
    = console w ++ ([LogUninstalling] ++
        zip_with delete_event filesToDelete
          (delete_turns env filesToDelete (fs w)).1 ++ evs ++ tail)
    ∧ removal_outcomes tail = []).
  { rewrite uninstall_run.
    destruct (for_of dirsToClean (clean_dir env) (before_cleanup env w))
      as [[[]|e] w3]; cbn [snd console] in *.
    - exists [LogUninstallComplete]. split; [|done].
      rewrite Hcon, Hbefore. by rewrite <- !app_assoc.
    - exists []. split; [|done].
      rewrite Hcon, Hbefore. by rewrite <- !app_assoc, app_nil_r. }
  destruct Hout as (tail & Hcons & Htail).
  rewrite (printed_app _ _ _ Hcons).
  rewrite !removal_outcomes_app, Hnone, Htail, !app_nil_r.
  change (removal_outcomes [LogUninstalling]) with (@nil RemovalOutcome).
  rewrite app_nil_l.
  apply removal_outcomes_events. by rewrite delete_turns_length.
Qed.

Lemma uninstall_shrinks (w : world) :
  tree_after (uninstall env) w ⊆ (delete_turns env filesToDelete (fs w)).2.
Proof.
  unfold tree_after. rewrite uninstall_run.
  destruct (clean_loop_frame dirsToClean (before_cleanup env w))
    as (Hsub & _).
  assert (Hbefore : fs (before_cleanup env w)
                    = (delete_turns env filesToDelete (fs w)).2).
  { unfold before_cleanup. by rewrite delete_loop_turns, run_print. }
  rewrite Hbefore in Hsub.
  by destruct (for_of dirsToClean (clean_dir env) (before_cleanup env w))
    as [[[]|e] w3].
Qed.

End delete_loop.

(** ** C4: deletion, and absence as an outcome of its own *)

Lemma filesToDelete_below_root (i : nat) (file : string) :
  filesToDelete !! i = Some file → join file ≠ [].
Proof.
  unfold filesToDelete.
  do 5 (destruct i as [|i]; [intros [= <-]; by vm_compute|]).
  done.
Qed.

Lemma existsSync_agree (t1 t2 : tree) (p : path) :
  t1 !! p = t2 !! p → existsSync t1 p = existsSync t2 p.
Proof. unfold existsSync, stat. destruct p; [done|]. by intros ->. Qed.

(** C4. For every path of the removal manifest: when nothing is at the
    path, the outcome is NotFound, not an error; when something is there,
    [uninstall] deletes it and reports Deleted, unless [fs.remove] itself
    throws, which is reported for that entry.  On a tree that holds none
    of the manifest's paths every outcome is NotFound, none is an error,
    and the deletion loop leaves the tree as it was. *)
Theorem absent_is_not_found (env : environment) (w : world) (i : nat)
    (file : string) :
  filesToDelete !! i = Some file →
  (existsSync (fs w) (join file) = false →
   removal_outcomes (printed (uninstall env) w) !! i = Some NotFound)
  ∧ (existsSync (fs w) (join file) = true →
     (removal_outcomes (printed (uninstall env) w) !! i = Some Deleted ∧
      existsSync (tree_after (uninstall env) w) (join file) = false)
     ∨ (∃ err, fault env (OpRemove (join file)) = Some err ∧
               removal_outcomes (printed (uninstall env) w) !! i
               = Some (RemovalFailed (message err))))
  ∧ ((∀ f, f ∈ filesToDelete → existsSync (fs w) (join f) = false) →
     removal_outcomes (printed (uninstall env) w)
     = replicate (length filesToDelete) NotFound
     ∧ tree_after (for_of filesToDelete (delete_file env)) w = fs w).
Proof.
  intros Hi. rewrite uninstall_outcomes.
  destruct (delete_turns_at env _ (fs w) i file apart_filesToDelete Hi)
    as (ti & Hsame & Hout & Hafter).
  rewrite Hout. rewrite <- (existsSync_agree _ _ _ Hsame).
  split_and!.
  - intros Habs. unfold delete_turn. by rewrite Habs.
  - intros Hpres. unfold delete_turn in *. rewrite Hpres in *.
    destruct (remove env (join file) ti) as [err|t'] eqn:Hrm.
    + right. exists err. split; [by eapply remove_fails|done].
    + left. split; [done|]. apply existsSync_false.
      rewrite stat_lookup by (by eapply filesToDelete_below_root).
      eapply lookup_weaken_None; [by eapply remove_gone|].
      etrans; [apply uninstall_shrinks|exact Hafter].
  - intros Habs. rewrite delete_loop_tree.
    rewrite (delete_turns_absent env _ _ Habs). cbn [fst snd].
    split; reflexivity.
Qed.

Lemma absent_is_not_found_witness :
  removal_outcomes (printed (uninstall calm) half_provisioned) !! 0
    = Some NotFound
  ∧ removal_outcomes (printed (uninstall calm) half_provisioned) !! 2
    = Some Deleted
  ∧ removal_outcomes (printed (uninstall calm) empty_project)
    = replicate (length filesToDelete) NotFound.
Proof.
  split_and!.
  - apply (absent_is_not_found calm half_provisioned 0
             "app/api/keep-alive/route.ts"); reflexivity.
  - destruct (absent_is_not_found calm half_provisioned 2
                "config/keep-alive-config.ts" eq_refl) as (_ & Hpresent & _).
    destruct Hpresent as [[Hdel _]|(err & Hfault & _)].
    + reflexivity.
    + exact Hdel.
    + discriminate Hfault.
  - destruct (absent_is_not_found calm empty_project 0
                "app/api/keep-alive/route.ts" eq_refl) as (_ & _ & Hnone).
    apply Hnone. intros f Hf.
    apply list_elem_of_In in Hf. simpl in Hf.
    destruct Hf as [<-|[<-|[<-|[<-|[<-|[]]]]]]; reflexivity.
Defined.

(** ** The directory clean-up *)

Lemma scattered_dirsToClean : scattered dirsToClean.
Proof.
  unfold dirsToClean. simpl.
  repeat split; repeat constructor;
    by (apply (bool_decide_unpack _); vm_compute).
Qed.

Lemma dirsToClean_below_root (i : nat) (dir : string) :
  dirsToClean !! i = Some dir → join dir ≠ [].
Proof.
  unfold dirsToClean.
  do 2 (destruct i as [|i]; [intros [= <-]; by vm_compute|]).
  done.
Qed.

Section cleanup.
Variable env : environment.

(** What a turn of the clean-up that went through has done. *)
Lemma clean_turn_done (dir : string) (t t' : tree) (removed : bool) :
  clean_turn env dir t = inr (removed, t') →
  if removed
  then stat t (join dir) = Some Dir ∧ children (join dir) t = [] ∧
       remove env (join dir) t = inr t'
  else t' = t ∧
       (stat t (join dir) = None ∨
        (stat t (join dir) = Some Dir ∧ children (join dir) t ≠ [])).
Proof.
  unfold clean_turn, existsSync.
  destruct (stat t (join dir)) as [n|] eqn:Hstat.
  2:{ intros [= <- <-]. split; [done|by left]. }
  destruct (readdir env (join dir) t) as [e|files] eqn:Hls; [done|].
  unfold readdir in Hls. destruct (fault env (OpReaddir _)); [done|].
  rewrite Hstat in Hls. destruct n as [c|]; [done|].
  injection Hls as <-. rewrite listing_length.
  case_bool_decide as Hlen.
  - destruct (remove env (join dir) t) as [e|t''] eqn:Hrm; [done|].
    intros [= <- <-]. split_and!; [done| |done].
    by destruct (children (join dir) t).
  - intros [= <- <-]. split; [done|]. right. split; [done|].
    intros Hnil. by rewrite Hnil in Hlen.
Qed.

Lemma clean_turn_outside (dir : string) (t t' : tree) (removed : bool)
    (q : path) :
  clean_turn env dir t = inr (removed, t') →
  ¬ join dir `prefix_of` q → t' !! q = t !! q.
Proof.
  intros Hturn Hpre. apply clean_turn_done in Hturn.
  destruct removed.
  - destruct Hturn as (_ & _ & Hrm). by eapply remove_outside.
  - by destruct Hturn as [-> _].
Qed.

(** Paths below one of two unrelated paths are not below the other. *)
Lemma unrelated_below (p1 p2 q : path) :
  ¬ p1 `prefix_of` p2 → ¬ p2 `prefix_of` p1 → p2 `prefix_of` q →
  ¬ p1 `prefix_of` q.
Proof.
  intros H12 H21 H2q H1q.
  destruct (prefix_weak_total _ _ _ H1q H2q); tauto.
Qed.

Lemma clean_loop_turns (dirs : list string) (w : world) :
  (for_of dirs (clean_dir env) w).1
  = match (clean_turns env dirs (fs w)).1 with
    | None => Resolved tt
    | Some e => Rejected e
    end
  ∧ fs (for_of dirs (clean_dir env) w).2 = (clean_turns env dirs (fs w)).2.
Proof.
  revert w. induction dirs as [|d dirs IH]; intros w; [done|].
  cbn [for_of clean_turns]. rewrite run_bind, clean_dir_turn.
  destruct (clean_turn env d (fs w)) as [e|[[] t1]] eqn:Hturn; [done| |].
  - apply (IH (World t1 _)).
  - apply clean_turn_done in Hturn as [-> _]. apply IH.
Qed.

Lemma clean_turns_outside (dirs : list string) (t : tree) (q : path) :
  (∀ e, e ∈ dirs → ¬ join e `prefix_of` q) →
  (clean_turns env dirs t).2 !! q = t !! q.
Proof.
  revert t. induction dirs as [|d dirs IH]; intros t Hout; [done|].
  cbn [clean_turns].
  destruct (clean_turn env d t) as [e|[removed t1]] eqn:Hturn; [done|].
  rewrite IH.
  - eapply clean_turn_outside; [exact Hturn|].
    apply Hout, list_elem_of_here.
  - intros e He. by apply Hout, list_elem_of_further.
Qed.

(** In a clean-up loop that went through, the turn of the [i]-th
    directory saw below its path what the loop started with, and what it
    left there is what the loop left. *)
Lemma clean_turns_at (dirs : list string) (t : tree) (i : nat) (dir : string) :
  scattered dirs → dirs !! i = Some dir →
  (clean_turns env dirs t).1 = None →
  ∃ ti removed t',
    (∀ q, join dir `prefix_of` q → ti !! q = t !! q) ∧
    clean_turn env dir ti = inr (removed, t') ∧
    (∀ q, join dir `prefix_of` q → (clean_turns env dirs t).2 !! q = t' !! q).
Proof.
  revert t i. induction dirs as [|d dirs IH]; intros t i Hsc Hi Hok; [done|].
  destruct Hsc as [Hd Hsc]. rewrite Forall_forall in Hd.
  cbn [clean_turns] in Hok |- *.
  destruct (clean_turn env d t) as [e|[removed t1]] eqn:Hturn; [done|].
  destruct i as [|i]; simpl in Hi.
  - injection Hi as ->. exists t, removed, t1. split_and!; [done..|].
    intros q Hq. apply clean_turns_outside. intros e He.
    destruct (Hd e He) as [H1 H2]. by eapply unrelated_below.
  - destruct (IH t1 i Hsc Hi Hok) as (ti & removed' & t' & H1 & H2 & H3).
    exists ti, removed', t'. split_and!; [|done..].
    intros q Hq. rewrite (H1 q Hq).
    eapply clean_turn_outside; [exact Hturn|].
    destruct (Hd dir) as [H12 H21]; [by eapply list_elem_of_lookup_2|].
    by eapply unrelated_below.
Qed.

End cleanup.

(** ** C5: only empty watched directories go *)

Section cleanup_claim.
Variable env : environment.

Lemma children_agree (p : path) (t1 t2 : tree) :
  (∀ q, p `prefix_of` q → t1 !! q = t2 !! q) →
  children p t1 = [] ↔ children p t2 = [].
Proof.
  intros Hagree. rewrite !children_nil.
  split; intros H name.
  - rewrite <- Hagree; [done|]. by apply prefix_app_r.
  - rewrite Hagree; [done|]. by apply prefix_app_r.
Qed.

Lemma uninstall_resolved (w : world) :
  (uninstall env w).1 = Resolved tt →
  (clean_turns env dirsToClean (fs (before_cleanup env w))).1 = None ∧
  tree_after (uninstall env) w
  = (clean_turns env dirsToClean (fs (before_cleanup env w))).2.
Proof.
  unfold tree_after. rewrite uninstall_run.
  destruct (clean_loop_turns env dirsToClean (before_cleanup env w))
    as [Hc Ht].
  destruct (for_of dirsToClean (clean_dir env) (before_cleanup env w))
    as [[[]|e] w3]; [|done].
  cbn [fst snd fs] in *. intros _. split; [|done].
  by destruct (clean_turns env dirsToClean _).1.
Qed.

Lemma uninstall_tree (w : world) :
  tree_after (uninstall env) w
  = (clean_turns env dirsToClean (fs (before_cleanup env w))).2.
Proof.
  unfold tree_after. rewrite uninstall_run.
  destruct (clean_loop_turns env dirsToClean (before_cleanup env w))
    as [_ Ht].
  by destruct (for_of dirsToClean (clean_dir env) (before_cleanup env w))
    as [[[]|e] w3].
Qed.

(** A directory of the list that holds something is left as it is by
    the clean-up loop, with everything below it, however the loop ends. *)
Lemma clean_turns_keep (dirs : list string) (t : tree) (dir : string) :
  scattered dirs → dir ∈ dirs → children (join dir) t ≠ [] →
  ∀ q, join dir `prefix_of` q → (clean_turns env dirs t).2 !! q = t !! q.
Proof.
  revert t. induction dirs as [|d dirs IH]; intros t Hsc Hin Hfull q Hq.
  { by apply not_elem_of_nil in Hin. }
  destruct Hsc as [Hd Hsc]. rewrite Forall_forall in Hd.
  cbn [clean_turns].
  destruct (clean_turn env d t) as [e|[removed t1]] eqn:Hturn; [done|].
  apply elem_of_cons in Hin as [->|Hin].
  - apply clean_turn_done in Hturn. destruct removed.
    { by destruct Hturn as (_ & Hempty & _). }
    destruct Hturn as [-> _]. apply clean_turns_outside.
    intros e He. destruct (Hd e He) as [H1 H2]. by eapply unrelated_below.
  - destruct (Hd dir Hin) as [H1 H2].
    assert (Hsame : ∀ q', join dir `prefix_of` q' → t1 !! q' = t !! q').
    { intros q' Hq'. eapply clean_turn_outside; [exact Hturn|].
      by eapply unrelated_below. }
    rewrite IH; [by apply Hsame|done..| |done].
    intros Hnil. apply Hfull. by apply (children_agree _ t1 t).
Qed.

End cleanup_claim.

(** In a run of [uninstall] that resolves, each watched directory is
    taken away if and only if it was there and empty once the files of the
    manifest had been deleted. *)
Lemma watched_dir_removed_iff_empty (env : environment) (w : world)
    (i : nat) (dir : string) :
  dirsToClean !! i = Some dir →
  (uninstall env w).1 = Resolved tt →
  taken_away env w dir ↔ there_and_empty env w dir.
Proof.
  intros Hi Hok. apply uninstall_resolved in Hok as [Hnone Hafter].
  destruct (clean_turns_at env _ _ i dir scattered_dirsToClean Hi Hnone)
    as (ti & removed & t' & Hbefore & Hturn & Hleft).
  assert (Hroot : join dir ≠ []) by (by eapply dirsToClean_below_root).
  assert (Hself : join dir `prefix_of` join dir) by done.
  pose proof (children_agree _ _ _ Hbefore) as Hkids.
  apply clean_turn_done in Hturn.
  unfold taken_away, there_and_empty. rewrite Hafter.
  split.
  - intros [Hthere Hgone]. destruct removed.
    + destruct Hturn as (Hdir & Hempty & _).
      rewrite stat_lookup, Hbefore in Hdir by done.
      split; [done|]. by apply Hkids.
    + destruct Hturn as [-> _].
      rewrite (existsSync_agree _ (fs (before_cleanup env w))) in Hgone.
      * congruence.
      * by rewrite Hleft, Hbefore.
  - intros [Hdir Hempty]. split.
    + unfold existsSync. by rewrite stat_lookup, Hdir.
    + destruct removed.
      * destruct Hturn as (_ & _ & Hrm).
        apply existsSync_false. rewrite stat_lookup, Hleft by done.
        by eapply remove_gone.
      * destruct Hturn as [_ [Habs|[_ Hfull]]].
        -- rewrite stat_lookup, Hbefore in Habs by done. congruence.
        -- by apply Hkids in Hempty.
Qed.

(** A watched directory that still holds something once the files of the
    manifest are deleted is left as it was, with everything below it,
    however [uninstall] ends. *)
Lemma full_watched_dir_kept (env : environment) (w : world) (dir : string) :
  dir ∈ dirsToClean →
  children (join dir) (fs (before_cleanup env w)) ≠ [] →
  ∀ q, join dir `prefix_of` q →
       tree_after (uninstall env) w !! q = fs (before_cleanup env w) !! q.
Proof.
  intros Hin Hfull q Hq. rewrite uninstall_tree.
  by apply (clean_turns_keep env dirsToClean _ dir scattered_dirsToClean).
Qed.

Example shared_config_cleanup :
  taken_away calm shared_config "app/api/keep-alive"
  ∧ tree_after (uninstall calm) shared_config !! join "config/site.ts"
    = fs (before_cleanup calm shared_config) !! join "config/site.ts".
Proof.
  split.
  - apply (watched_dir_removed_iff_empty calm shared_config 0
             "app/api/keep-alive"); [reflexivity|reflexivity|].
    split; vm_compute; reflexivity.
  - apply (full_watched_dir_kept calm shared_config "config").
    + apply list_elem_of_further, list_elem_of_here.
    + vm_compute. discriminate.
    + by exists ["site.ts"].
Qed.

Example shared_config_kept :
  let after := tree_after (uninstall calm) shared_config in
  after !! join "config" = Some Dir
  ∧ after !! join "config/site.ts" = Some (File "// mine")
  ∧ after !! join "config/keep-alive-config.ts" = None
  ∧ after !! join "app/api/keep-alive" = None
  ∧ after !! join "app/api" = Some Dir.
Proof. vm_compute. repeat split. Qed.

(** C5.  [uninstall] in a project where the first watched path,
    [app/api/keep-alive], is a regular file and the second, [config], is
    an empty directory.  The clean-up loop of lines 189-198 has no
    [try]/[catch], unlike the deletion loop before it: [fs.readdir] throws
    on the first path, [uninstall] rejects there and the process exits
    with status 1.  [config] is never examined: it was there and empty
    when the clean-up began, and it is still there at the end, which is
    not what the specification says. *)
Theorem empty_dir_left_after_abort :
  (uninstall calm keep_alive_is_a_file).1
  = Rejected (ENOTDIR "app/api/keep-alive")
  ∧ (main calm ["node"; "hi-supabase"; "uninstall"] keep_alive_is_a_file).1
    = 1%Z
  ∧ there_and_empty calm keep_alive_is_a_file "config"
  ∧ tree_after (uninstall calm) keep_alive_is_a_file !! join "config"
    = Some Dir
  ∧ ¬ taken_away calm keep_alive_is_a_file "config"
  ∧ ¬ cleanup_removes_exactly_the_empty calm keep_alive_is_a_file.
Proof.
  assert (Hkept : ¬ taken_away calm keep_alive_is_a_file "config").
  { intros [_ Hgone]. vm_compute in Hgone. discriminate Hgone. }
  assert (Hempty : there_and_empty calm keep_alive_is_a_file "config").
  { split; vm_compute; reflexivity. }
  split_and!; [by vm_compute..|done| |done|].
  - vm_compute. reflexivity.
  - intros Hclaim. apply Hkept. apply (Hclaim "config"); [|done].
    unfold dirsToClean. apply list_elem_of_further, list_elem_of_here.
Qed.

(** ** C6: the client module is not removed *)

Section client_kept.
Variable env : environment.

Lemma delete_turns_outside (files : list string) (t : tree) (q : path) :
  (∀ f, f ∈ files → ¬ join f `prefix_of` q) →
  (delete_turns env files t).2 !! q = t !! q.
Proof.
  revert t. induction files as [|g files IH]; intros t Hout; [done|].
  cbn [delete_turns snd]. rewrite IH.
  - apply delete_turn_outside, Hout, list_elem_of_here.
  - intros f Hf. by apply Hout, list_elem_of_further.
Qed.

(** [uninstall] touches nothing outside the paths of its two lists,
    however it ends. *)
Lemma uninstall_outside (w : world) (q : path) :
  (∀ f, f ∈ filesToDelete → ¬ join f `prefix_of` q) →
  (∀ d, d ∈ dirsToClean → ¬ join d `prefix_of` q) →
  tree_after (uninstall env) w !! q = fs w !! q.
Proof.
  intros Hfiles Hdirs.
  assert (Hafter : tree_after (uninstall env) w
                   = (clean_turns env dirsToClean
                        (fs (before_cleanup env w))).2).
  { unfold tree_after. rewrite uninstall_run.
    destruct (clean_loop_turns env dirsToClean (before_cleanup env w))
      as [_ Ht].
    by destruct (for_of dirsToClean (clean_dir env) (before_cleanup env w))
      as [[[]|e] w3]. }
  rewrite Hafter, clean_turns_outside by done.
  assert (Hbefore : fs (before_cleanup env w)
                    = (delete_turns env filesToDelete (fs w)).2).
  { unfold before_cleanup. by rewrite delete_loop_turns, run_print. }
  rewrite Hbefore. by apply delete_turns_outside.
Qed.

End client_kept.

Lemma clientPath_not_managed :
  Forall (λ f, ¬ join f `prefix_of` clientPath) filesToDelete
  ∧ Forall (λ d, ¬ join d `prefix_of` clientPath) dirsToClean.
Proof.
  split; repeat constructor; by (apply (bool_decide_unpack _); vm_compute).
Qed.

(** C6. [lib/supabase/server.ts] is not a path of the removal manifest,
    and for every starting tree, every environment and every way the run
    ends, [uninstall] leaves at that path exactly what was there. *)
Theorem client_module_survives_uninstall (env : environment) (w : world) :
  ("lib/supabase/server.ts" ∉ filesToDelete)
  ∧ tree_after (uninstall env) w !! clientPath = fs w !! clientPath.
Proof.
  split.
  - by (apply (bool_decide_unpack _); vm_compute).
  - destruct clientPath_not_managed as [Hfiles Hdirs].
    rewrite Forall_forall in Hfiles. rewrite Forall_forall in Hdirs.
    by apply uninstall_outside.
Qed.

Example client_after_uninstall :
  tree_after (uninstall calm) (init calm empty_project).2 !! clientPath
  = Some (File "// supabase-server.ts").
Proof. vm_compute. reflexivity. Qed.

(** ** C8: the client file *)

(** With no file in the way, [mkdir -p] goes through. *)
Lemma mkdirs_from_clear (base rest : path) (t : tree) :
  (∀ k c, 1 ≤ k ≤ length rest → t !! (base ++ take k rest) ≠ Some (File c)) →
  ∃ t', mkdirs_from base rest t = inr t'.
Proof.
  revert base t. induction rest as [|s rest IH]; intros base t Hclear.
  { by eexists. }
  cbn [mkdirs_from].
  assert (Htail : ∀ t2 : tree,
            (∀ q : path, q ≠ base ++ [s] → t2 !! q = t !! q) →
            ∀ k c, 1 ≤ k ≤ length rest →
                   t2 !! ((base ++ [s]) ++ take k rest) ≠ Some (File c)).
  { intros t2 Hsame k c Hk. rewrite Hsame.
    - rewrite <- app_assoc. apply (Hclear (S k) c). simpl. lia.
    - intros Heq. apply (f_equal length) in Heq.
      rewrite !length_app, length_take in Heq. simpl in Heq. lia. }
  destruct (t !! (base ++ [s])) as [[c|]|] eqn:Hd.
  - exfalso. apply (Hclear 1 c); [simpl; lia|]. simpl. by rewrite take_0.
  - apply IH. by apply Htail.
  - apply IH. apply Htail. intros q Hq. by rewrite lookup_insert_ne.
Qed.

Section client_file.
Variable env : environment.

(** When nothing is at the canonical path, the template is there, the
    library calls do not fail and no file stands where [lib] or
    [lib/supabase] must be, the creation step writes the template. *)
Lemma create_client_done (t : tree) (c : string) :
  existsSync t clientPath = false →
  templates env "supabase-server.ts" = Some c →
  fault env (OpEnsureDir (dirname clientPath)) = None →
  fault env (OpCopy "supabase-server.ts" clientPath) = None →
  (∀ c', t !! join "lib" ≠ Some (File c')) →
  (∀ c', t !! join "lib/supabase" ≠ Some (File c')) →
  (create_client env t).1 = LogClientCreated ∧
  (create_client env t).2 !! clientPath = Some (File c).
Proof.
  intros Hex Htpl Hf1 Hf2 Hlib Hsup. unfold create_client, ensureDir.
  rewrite Hf1.
  destruct (mkdirs_from_clear [] (dirname clientPath) t) as [t1 Hmk].
  { intros k c' Hk. change (dirname clientPath) with ["lib"; "supabase"] in *.
    simpl in Hk. destruct k as [|[|[|k]]]; try lia.
    - apply Hlib.
    - apply Hsup. }
  change (mkdirs_from [] (dirname clientPath) t)
    with (mkdirs (dirname clientPath) t) in Hmk.
  rewrite Hmk.
  assert (Hfree : stat t1 clientPath = None).
  { apply existsSync_false in Hex. apply stat_None in Hex as [Hne Hnone].
    rewrite stat_lookup by done.
    by rewrite (mkdirs_dirname_dest _ _ _ Hmk). }
  unfold copy. rewrite Hf2, Htpl, Hfree.
  rewrite (mkdirs_id (dirname clientPath) t1)
    by (by eapply mkdirs_dirs).
  cbn [fst snd]. split; [done|]. apply lookup_insert_eq.
Qed.

End client_file.

(** C8.  [checkAndCreateSupabaseClient] writes the client file only when
    nothing is at [lib/supabase/server.ts]: with something there it
    changes nothing and says it found it.  With nothing there it warns
    about every alternate location that is in use and then runs the
    creation step all the same, on the same tree as if there were no
    alternate; when that step goes through (template shipped, no failing
    call, no file where a directory is needed) the canonical path holds the
    template and everything else is as before. *)
Theorem client_created_when_absent (env : environment) (w : world) :
  (existsSync (fs w) clientPath = true →
   tree_after (checkAndCreateSupabaseClient env) w = fs w ∧
   printed (checkAndCreateSupabaseClient env) w = [LogClientFound])
  ∧ (existsSync (fs w) clientPath = false →
     (∀ p, p ∈ commonPaths → existsSync (fs w) (join p) = true →
           WarnClientElsewhere p ∈ printed (checkAndCreateSupabaseClient env) w)
     ∧ tree_after (checkAndCreateSupabaseClient env) w
       = (create_client env (fs w)).2
     ∧ fs w ⊆ tree_after (checkAndCreateSupabaseClient env) w
     ∧ (∀ c,
        templates env "supabase-server.ts" = Some c →
        fault env (OpEnsureDir (dirname clientPath)) = None →
        fault env (OpCopy "supabase-server.ts" clientPath) = None →
        (∀ c', fs w !! join "lib" ≠ Some (File c')) →
        (∀ c', fs w !! join "lib/supabase" ≠ Some (File c')) →
        tree_after (checkAndCreateSupabaseClient env) w !! clientPath
          = Some (File c)
        ∧ LogClientCreated ∈ printed (checkAndCreateSupabaseClient env) w)).
Proof.
  split; intros Hex.
  - unfold tree_after. split.
    + by rewrite client_run, Hex.
    + apply printed_app. by rewrite client_run, Hex.
  - assert (Hout : printed (checkAndCreateSupabaseClient env) w
                   = client_warnings (fs w) ++ [(create_client env (fs w)).1]).
    { apply printed_app. by rewrite client_run, Hex. }
    assert (Htree : tree_after (checkAndCreateSupabaseClient env) w
                    = (create_client env (fs w)).2).
    { unfold tree_after. by rewrite client_run, Hex. }
    split_and!.
    + intros p Hp Hused. rewrite Hout. apply elem_of_app. left.
      unfold elsewhere_warnings. apply list_elem_of_fmap. exists p.
      split; [done|]. apply list_elem_of_filter. split; [|done].
      by rewrite Hused.
    + done.
    + rewrite Htree. by apply create_client_grows.
    + intros c Htpl Hf1 Hf2 Hlib Hsup.
      destruct (create_client_done env (fs w) c) as [Hev Hfile]; try done.
      rewrite Htree, Hout, Hev. split; [done|].
      apply elem_of_app. right. apply list_elem_of_here.
Qed.

Lemma client_created_when_absent_witness :
  (tree_after (checkAndCreateSupabaseClient calm) client_in_place
   = fs client_in_place)
  ∧ WarnClientElsewhere "utils/supabase/server.ts"
    ∈ printed (checkAndCreateSupabaseClient calm) client_elsewhere
  ∧ tree_after (checkAndCreateSupabaseClient calm) client_elsewhere
    !! clientPath = Some (File "// supabase-server.ts").
Proof.
  split_and!.
  - apply (client_created_when_absent calm client_in_place). reflexivity.
  - destruct (client_created_when_absent calm client_elsewhere)
      as [_ Habsent].
    destruct (Habsent eq_refl) as (Hwarn & _).
    apply Hwarn; [|reflexivity].
    unfold commonPaths. apply list_elem_of_here.
  - destruct (client_created_when_absent calm client_elsewhere)
      as [_ Habsent].
    destruct (Habsent eq_refl) as (_ & _ & _ & Hdone).
    apply (Hdone "// supabase-server.ts"); try reflexivity.
    + intros c'. vm_compute. discriminate.
    + intros c'. vm_compute. discriminate.
Defined.

Example client_elsewhere_console :
  printed (checkAndCreateSupabaseClient calm) client_elsewhere
  = [WarnClientElsewhere "utils/supabase/server.ts"; LogClientCreated].
Proof. vm_compute. reflexivity. Qed.

(** * [supabase.ts] *)

Section data_access.
Import Supabase.
Variable server : list query → query → response.
Variable supabase : client.

Lemma createChatbot_run (new : NewChatbot) (sent : list query) :
  createChatbot server supabase new sent
  = (passed_on (server sent (insert_query supabase new))
               (data (server sent (insert_query supabase new))),
     sent ++ [insert_query supabase new]).
Proof.
  unfold createChatbot, then_, await, passed_on.
  change (single_ (select_inserted (insert_ (from_ supabase "chatbots") new)))
    with (insert_query supabase new).
  by destruct (error (server sent (insert_query supabase new))).
Qed.

Lemma getChatbotsByUserId_run (userId : string) (sent : list query) :
  getChatbotsByUserId server supabase userId sent
  = (passed_on (server sent (by_user_query supabase userId))
               (data (server sent (by_user_query supabase userId))),
     sent ++ [by_user_query supabase userId]).
Proof.
  unfold getChatbotsByUserId, then_, await, passed_on.
  change (order_ "created_at" false
            (eq_ "user_id" userId (select_ (from_ supabase "chatbots") "*")))
    with (by_user_query supabase userId).
  by destruct (error (server sent (by_user_query supabase userId))).
Qed.

Lemma getChatbotBySlug_run (slug : string) (sent : list query) :
  getChatbotBySlug server supabase slug sent
  = (passed_on (server sent (by_slug_query supabase slug))
               (data (server sent (by_slug_query supabase slug))),
     sent ++ [by_slug_query supabase slug]).
Proof.
  unfold getChatbotBySlug, then_, await, passed_on.
  change (single_ (eq_ "bot_slug" slug
                     (select_ (from_ supabase "chatbots") "*")))
    with (by_slug_query supabase slug).
  by destruct (error (server sent (by_slug_query supabase slug))).
Qed.

Lemma deleteChatbot_run (id : string) (sent : list query) :
  deleteChatbot server supabase id sent
  = (passed_on (server sent (delete_query supabase id)) true,
     sent ++ [delete_query supabase id]).
Proof.
  unfold deleteChatbot, then_, await, passed_on.
  change (eq_ "id" id (delete_ (from_ supabase "chatbots")))
    with (delete_query supabase id).
  by destruct (error (server sent (delete_query supabase id))).
Qed.

End data_access.

(** C7. Each of the four functions sends its one request, whatever the
    argument and whatever was asked before, and passes the answer on: when
    the response carries an error, that very error object is thrown; when
    it does not, the [data] of the response is returned as it came (for
    [deleteChatbot], [true]). *)
Theorem data_access_passes_on
    (server : list Supabase.query → Supabase.query → Supabase.response)
    (supabase : Supabase.client) (sent : list Supabase.query) :
  (∀ new,
     Supabase.createChatbot server supabase new sent
     = (Supabase.passed_on (server sent (Supabase.insert_query supabase new))
                  (Supabase.data (server sent (Supabase.insert_query supabase new))),
        sent ++ [Supabase.insert_query supabase new]))
  ∧ (∀ userId,
     Supabase.getChatbotsByUserId server supabase userId sent
     = (Supabase.passed_on (server sent (Supabase.by_user_query supabase userId))
                  (Supabase.data (server sent (Supabase.by_user_query supabase userId))),
        sent ++ [Supabase.by_user_query supabase userId]))
  ∧ (∀ slug,
     Supabase.getChatbotBySlug server supabase slug sent
     = (Supabase.passed_on (server sent (Supabase.by_slug_query supabase slug))
                  (Supabase.data (server sent (Supabase.by_slug_query supabase slug))),
        sent ++ [Supabase.by_slug_query supabase slug]))
  ∧ (∀ id,
     Supabase.deleteChatbot server supabase id sent
     = (Supabase.passed_on (server sent (Supabase.delete_query supabase id)) true,
        sent ++ [Supabase.delete_query supabase id])).
Proof.
  split_and!.
  - intros new. apply createChatbot_run.
  - intros userId. apply getChatbotsByUserId_run.
  - intros slug. apply getChatbotBySlug_run.
  - intros id. apply deleteChatbot_run.
Qed.

Example fetch_known_slug :
  Supabase.getChatbotBySlug (Supabase.fixed_store [Supabase.sample_bot])
    Supabase.sample_client "cafe" []
  = (Resolved (Supabase.Row Supabase.sample_bot), [Supabase.by_slug_query Supabase.sample_client "cafe"]).
Proof. reflexivity. Qed.

Example fetch_unknown_slug :
  Supabase.getChatbotBySlug (Supabase.fixed_store [Supabase.sample_bot])
    Supabase.sample_client "bakery" []
  = (Rejected Supabase.no_single_row, [Supabase.by_slug_query Supabase.sample_client "bakery"]).
Proof. reflexivity. Qed.

(** Asking twice sends two requests: nothing is kept from the first. *)
Example fetch_twice :
  (Supabase.then_
     (Supabase.getChatbotBySlug (Supabase.fixed_store [Supabase.sample_bot])
        Supabase.sample_client "cafe")
     (λ _, Supabase.getChatbotBySlug (Supabase.fixed_store [Supabase.sample_bot])
             Supabase.sample_client "cafe") []).2
  = [Supabase.by_slug_query Supabase.sample_client "cafe"; Supabase.by_slug_query Supabase.sample_client "cafe"].
Proof. reflexivity. Qed.

(** C9. [deleteChatbot] returns [true] whenever the response carries no
    error, and [true] is the only value it ever returns: a request that
    matched no row and one that deleted a row are told apart by nothing in
    the result. *)
Theorem delete_has_no_not_found
    (server : list Supabase.query → Supabase.query → Supabase.response)
    (supabase : Supabase.client) (id : string) (sent : list Supabase.query) :
  (Supabase.error (server sent (Supabase.delete_query supabase id)) = None →
   (Supabase.deleteChatbot server supabase id sent).1 = Resolved true)
  ∧ (∀ v, (Supabase.deleteChatbot server supabase id sent).1 = Resolved v →
          v = true ∧
          Supabase.error (server sent (Supabase.delete_query supabase id)) = None)
  ∧ (∀ e, (Supabase.deleteChatbot server supabase id sent).1 = Rejected e →
          Supabase.error (server sent (Supabase.delete_query supabase id)) = Some e).
Proof.
  rewrite deleteChatbot_run. unfold Supabase.passed_on. cbn [fst].
  destruct (Supabase.error (server sent (Supabase.delete_query supabase id))) as [e|].
  - split_and!; [done|done|]. by intros e' [= ->].
  - split_and!; [done| |done]. by intros v [= <-].
Qed.

(** On the fixed store, deleting an id that no row carries ends like
    deleting one that a row carries. *)
Lemma delete_has_no_not_found_witness :
  (Supabase.deleteChatbot (Supabase.fixed_store [Supabase.sample_bot])
     Supabase.sample_client "no-such-id" []).1 = Resolved true
  ∧ (Supabase.deleteChatbot (Supabase.fixed_store [Supabase.sample_bot])
       Supabase.sample_client "b1" []).1 = Resolved true.
Proof.
  split.
  - apply (delete_has_no_not_found (Supabase.fixed_store [Supabase.sample_bot])
             Supabase.sample_client "no-such-id" []). reflexivity.
  - apply (delete_has_no_not_found (Supabase.fixed_store [Supabase.sample_bot])
             Supabase.sample_client "b1" []). reflexivity.
Defined.

(** ** C10: the two environment variables *)

(** The library calls and the steps after the check do not read
    [process.env]. *)
Lemma calls_ignore_variables (env : environment)
    (vars : string → option string) :
  ensureDir (with_process_env env vars) = ensureDir env
  ∧ copy (with_process_env env vars) = copy env.
Proof. split; reflexivity. Qed.

Lemma steps_ignore_variables (env : environment)
    (vars : string → option string) :
  copy_file (with_process_env env vars) = copy_file env
  ∧ checkAndCreateSupabaseClient (with_process_env env vars)
    = checkAndCreateSupabaseClient env
  ∧ installDependencies (with_process_env env vars) = installDependencies env.
Proof.
  destruct (calls_ignore_variables env vars) as [Hdir Hcopy].
  split_and!.
  - reflexivity.
  - unfold checkAndCreateSupabaseClient. rewrite Hdir, Hcopy. reflexivity.
  - reflexivity.
Qed.

(** With a variable missing, [init] warns and goes on, and what follows
    does not look at the variables. *)
Lemma init_without_variables (env : environment) (w : world) :
  falsy (process_env env "NEXT_PUBLIC_SUPABASE_URL")
  || falsy (process_env env "NEXT_PUBLIC_SUPABASE_ANON_KEY") = true →
  WarnEnvMissing ∈ printed (init env) w ∧
  ∀ vars, (init (with_process_env env vars) w).1 = (init env w).1 ∧
          tree_after (init (with_process_env env vars)) w
          = tree_after (init env) w.
Proof.
  intros Hmissing.
  set (rest := for_of filesToCopy (copy_file env) ;;
               checkAndCreateSupabaseClient env ;;
               installDependencies env ;;
               print LogSetupComplete).
  assert (Hinit : ∀ vars, init (with_process_env env vars) w
    = rest (World (fs w)
              (console w ++
               [LogInitializing;
                if falsy (vars "NEXT_PUBLIC_SUPABASE_URL")
                   || falsy (vars "NEXT_PUBLIC_SUPABASE_ANON_KEY")
                then WarnEnvMissing else LogEnvFound]))).
  { intros vars. unfold init.
    destruct (steps_ignore_variables env vars) as (-> & -> & ->).
    fold rest. rewrite run_bind, run_print. cbv beta iota.
    rewrite run_bind. cbn [process_env with_process_env].
    destruct (falsy (vars "NEXT_PUBLIC_SUPABASE_URL")
              || falsy (vars "NEXT_PUBLIC_SUPABASE_ANON_KEY"));
      cbv beta iota; rewrite run_print; cbv beta iota; cbn [fs console];
      rewrite <- app_assoc; reflexivity. }
  assert (Hsame : init env w
    = rest (World (fs w) (console w ++ [LogInitializing; WarnEnvMissing]))).
  { unfold init. fold rest. rewrite run_bind, run_print. cbv beta iota.
    rewrite run_bind, Hmissing. cbv beta iota. rewrite run_print.
    cbv beta iota. cbn [fs console]. rewrite <- app_assoc. reflexivity. }
  split.
  - assert (Hloop : ∀ w0, rest w0
      = (checkAndCreateSupabaseClient env ;;
         installDependencies env ;;
         print LogSetupComplete)
          (World (copy_turns env filesToCopy (fs w0)).2
             (console w0 ++ zip_with copy_event filesToCopy
                              (copy_turns env filesToCopy (fs w0)).1))).
    { intros w0. unfold rest. by rewrite run_bind, copy_loop_turns. }
    rewrite Hloop in Hsame.
    destruct (init_after_copying_prints env
                (World (copy_turns env filesToCopy (fs w)).2
                   ((console w ++ [LogInitializing; WarnEnvMissing]) ++
                    zip_with copy_event filesToCopy
                      (copy_turns env filesToCopy (fs w)).1)))
      as (evs & Hevs & _).
    cbn [fs console] in Hsame. rewrite <- Hsame in Hevs.
    cbn [console] in Hevs. rewrite <- !app_assoc in Hevs.
    rewrite (printed_app _ _ _ Hevs).
    apply list_elem_of_further, list_elem_of_here.
  - intros vars. unfold tree_after. rewrite Hinit, Hsame.
    by apply init_after_check.
Qed.

(** C10. Evaluating [supabase.ts] throws the error with the message
    "Missing Supabase environment variables" when one of the two variables
    is not set, and the functions of the module, which are what a
    successful evaluation hands out, are only ever obtained with both set
    and not empty.  [init] only prints a warning in that case: it ends the
    same way and leaves the same tree as with any other value of the
    variables. *)
Theorem missing_variables_stop_the_module
    (refuses : string → string → option error)
    (server : list Supabase.query → Supabase.query → Supabase.response)
    (env : environment) (w : world) :
  let url := process_env env "NEXT_PUBLIC_SUPABASE_URL" in
  let key := process_env env "NEXT_PUBLIC_SUPABASE_ANON_KEY" in
  (url = None ∨ key = None →
   Supabase.import_module refuses server (process_env env)
   = Rejected (Error None "Missing Supabase environment variables"))
  ∧ (∀ m, Supabase.import_module refuses server (process_env env)
          = Resolved m →
          ∃ u k, url = Some u ∧ key = Some k ∧ u ≠ "" ∧ k ≠ "" ∧
                 Supabase.createSupabaseClient refuses u k
                 = inr (Supabase.exp_supabase m))
  ∧ (url = None ∨ key = None →
     WarnEnvMissing ∈ printed (init env) w ∧
     ∀ vars, (init (with_process_env env vars) w).1 = (init env w).1 ∧
             tree_after (init (with_process_env env vars)) w
             = tree_after (init env) w).
Proof.
  intros url key. split_and!.
  - intros Hmissing. unfold Supabase.import_module. fold url key.
    by destruct Hmissing as [-> | ->]; [|destruct url as [u|]]; simpl;
      rewrite ?orb_true_r.
  - intros m. unfold Supabase.import_module. fold url key.
    destruct url as [u|], key as [k|]; simpl; try done.
    + repeat case_bool_decide; simpl; try done.
      destruct (Supabase.createSupabaseClient refuses u k) as [e|c] eqn:Hc;
        [done|].
      intros [= <-]. by exists u, k.
    + by case_bool_decide.
  - intros Hmissing. apply init_without_variables. fold url key.
    by destruct Hmissing as [-> | ->]; [|destruct url as [u|]]; simpl;
      rewrite ?orb_true_r.
Qed.

Lemma missing_variables_stop_the_module_witness :
  Supabase.import_module Supabase.wants_http (Supabase.fixed_store [])
    (process_env calm)
  = Rejected (Error None "Missing Supabase environment variables")
  ∧ WarnEnvMissing ∈ printed (init calm) empty_project
  ∧ (init calm empty_project).1 = Resolved tt.
Proof.
  destruct (missing_variables_stop_the_module Supabase.wants_http
              (Supabase.fixed_store []) calm empty_project)
    as (Hthrow & _ & Hwarn).
  split_and!.
  - apply Hthrow. left. reflexivity.
  - apply Hwarn. left. reflexivity.
  - vm_compute. reflexivity.
Defined.

Example module_with_variables :
  ∃ m, Supabase.import_module Supabase.wants_http (Supabase.fixed_store [])
         both_set
       = Resolved m
       ∧ Supabase.exp_supabase m
         = Supabase.Client "https://x.supabase.co" "anon".
Proof. eexists. split; reflexivity. Qed.

(** With both variables set, the module still does not evaluate when the
    library refuses the URL. *)
Example module_with_a_bad_url :
  Supabase.import_module Supabase.wants_http (Supabase.fixed_store [])
    (λ name, Some "not a url")
  = Rejected Supabase.invalid_url.
Proof. reflexivity. Qed.

(** * Further properties of the script *)

(** ** The install step *)

Section install.
Variable env : environment.

Lemma detect_run (w : world) :
  detectPackageManager w = (Resolved (chosen_manager (fs w)), w).
Proof.
  unfold detectPackageManager, chosen_manager. rewrite run_bind.
  unfold exists_ at 1. cbv beta iota.
  destruct (existsSync (fs w) (join "pnpm-lock.yaml")); [done|].
  rewrite run_bind. unfold exists_. cbv beta iota.
  by destruct (existsSync (fs w) (join "yarn.lock")).
Qed.

Lemma command_of_manager (t : tree) :
  chosen_manager t +:+ " " +:+
    (if bool_decide (chosen_manager t = "npm") then "install" else "add")
    +:+ " " +:+ String.concat " " ["@supabase/supabase-js"]
  = chosen_command t.
Proof.
  unfold chosen_manager, chosen_command.
  destruct (existsSync t (join "pnpm-lock.yaml")); [done|].
  by destruct (existsSync t (join "yarn.lock")).
Qed.

Lemma missing_deps (json : package_json) :
  filter (λ dep, (dep ∉ dependencies json) ∧ (dep ∉ devDependencies json))
         requiredDeps
  = if decide (declares_client json) then [] else ["@supabase/supabase-js"].
Proof.
  unfold requiredDeps, declares_client. rewrite filter_cons, filter_nil.
  repeat case_decide; try done; tauto.
Qed.

(** The whole of [installDependencies], case by case. *)
Lemma install_run (w : world) :
  installDependencies env w =
  if existsSync (fs w) (join "package.json") then
    match readJsonSync env (join "package.json") (fs w) with
    | inl e => (Rejected e, w)
    | inr json =>
        if decide (declares_client json) then (Resolved tt, w)
        else
          match execSync env (chosen_command (fs w)) (fs w) with
          | inl _ =>
              (Resolved tt,
               World (fs w)
                 (console w ++
                  [LogInstalling ["@supabase/supabase-js"]
                     (chosen_manager (fs w)); ErrInstall]))
          | inr t' =>
              (Resolved tt,
               World t'
                 (console w ++
                  [LogInstalling ["@supabase/supabase-js"]
                     (chosen_manager (fs w)); LogInstalled]))
          end
    end
  else (Resolved tt, w).
Proof.
  unfold installDependencies. rewrite run_bind. unfold exists_ at 1.
  cbv beta iota.
  destruct (existsSync (fs w) (join "package.json")); [|done].
  cbn [negb]. rewrite run_bind. unfold read. cbv beta iota.
  destruct (readJsonSync env (join "package.json") (fs w)) as [e|json];
    [done|].
  cbv beta iota zeta. rewrite missing_deps.
  destruct (decide (declares_client json)) as [Hd|Hd]; [done|].
  cbn [length]. rewrite bool_decide_eq_true_2 by lia.
  rewrite run_bind, detect_run. cbv beta iota.
  rewrite run_bind, run_print. cbv beta iota.
  unfold try_catch. rewrite run_bind. unfold call. cbn [fs console].
  rewrite command_of_manager.
  destruct (execSync env (chosen_command (fs w)) (fs w)) as [e|t'].
  - rewrite run_print. cbn [fs console]. by rewrite <- app_assoc.
  - cbv beta iota. rewrite run_print. cbn [fs console].
    by rewrite <- app_assoc.
Qed.

End install.

(** X1. [installDependencies] does nothing at all, prints nothing and
    starts no package manager, when the project has no [package.json] or
    when [package.json] lists [@supabase/supabase-js] under [dependencies]
    or under [devDependencies]. *)
Theorem install_idle (env : environment) (w : world) :
  existsSync (fs w) (join "package.json") = false
  ∨ (∃ json, readJsonSync env (join "package.json") (fs w) = inr json ∧
             declares_client json) →
  installDependencies env w = (Resolved tt, w).
Proof.
  intros Hidle. rewrite install_run.
  destruct Hidle as [-> | (json & -> & Hd)]; [done|].
  destruct (existsSync (fs w) (join "package.json")); [|done].
  by destruct (decide (declares_client json)).
Qed.

Lemma install_idle_witness :
  installDependencies calm empty_project = (Resolved tt, empty_project)
  ∧ installDependencies has_client yarn_project = (Resolved tt, yarn_project).
Proof.
  split.
  - apply install_idle. left. reflexivity.
  - apply install_idle. right.
    exists {| dependencies := [];
              devDependencies := ["@supabase/supabase-js"] |}.
    split; [reflexivity|]. right. apply list_elem_of_here.
Defined.

(** X2. When [package.json] can be read and lists the client library
    under neither key, [installDependencies] starts the package manager
    exactly once, with [pnpm add] if there is a [pnpm-lock.yaml], else
    [yarn add] if there is a [yarn.lock], else [npm install], followed by
    [@supabase/supabase-js].  It announces the installation, takes the
    tree the package manager leaves, and resolves even when the package
    manager fails, in which case it says so and keeps the tree. *)
Theorem install_runs_one_command (env : environment) (w : world)
    (json : package_json) :
  existsSync (fs w) (join "package.json") = true →
  readJsonSync env (join "package.json") (fs w) = inr json →
  ¬ declares_client json →
  installDependencies env w =
  match execSync env (chosen_command (fs w)) (fs w) with
  | inl _ =>
      (Resolved tt,
       World (fs w)
         (console w ++
          [LogInstalling ["@supabase/supabase-js"] (chosen_manager (fs w));
           ErrInstall]))
  | inr t' =>
      (Resolved tt,
       World t'
         (console w ++
          [LogInstalling ["@supabase/supabase-js"] (chosen_manager (fs w));
           LogInstalled]))
  end.
Proof.
  intros Hex Hread Hmissing. rewrite install_run, Hex, Hread.
  by destruct (decide (declares_client json)).
Qed.

Lemma install_runs_one_command_witness :
  chosen_command (fs yarn_project) = "yarn add @supabase/supabase-js"
  ∧ installDependencies fresh_package yarn_project
    = (Resolved tt,
       World (<[join "package-lock.json" := File "{ }"]> (fs yarn_project))
         [LogInstalling ["@supabase/supabase-js"] "yarn"; LogInstalled]).
Proof.
  split; [reflexivity|].
  apply (install_runs_one_command fresh_package yarn_project
           {| dependencies := []; devDependencies := [] |}).
  - reflexivity.
  - reflexivity.
  - intros [H|H]; inversion H.
Defined.

Section late_failure.
Variable env : environment.

Lemma after_copying_tree (w : world) :
  fs (after_copying env w) = (copy_turns env filesToCopy (fs w)).2.
Proof.
  unfold after_copying. rewrite run_print. cbn [snd].
  destruct (falsy _ || falsy _); rewrite run_print; cbn [snd];
    by rewrite copy_loop_turns.
Qed.

Lemma before_install_grows (w : world) : fs w ⊆ fs (before_install env w).
Proof.
  unfold before_install. etrans; [|apply client_grows].
  rewrite after_copying_tree. apply copy_turns_grows.
Qed.

End late_failure.

(** X3. A [package.json] that is there but does not parse makes [init]
    reject at the very end: the copy loop and the client step have run and
    what they wrote stays, the closing message is not printed, and the
    process exits with status 1. *)
Theorem unreadable_package_fails_late (env : environment)
    (argv : list string) (w : world) (text : string) :
  includes (drop 2 argv) "uninstall" = false →
  fs w !! join "package.json" = Some (File text) →
  parse_package env text = None →
  fault env (OpReadJson (join "package.json")) = None →
  init env w = (Rejected (bad_json "package.json"), before_install env w)
  ∧ (main env argv w).1 = 1%Z
  ∧ tree_after (for_of filesToCopy (copy_file env)) w
    ⊆ tree_after (init env) w.
Proof.
  intros Hargs Hfile Hparse Hfault.
  assert (Hthere : fs (before_install env w) !! join "package.json"
                   = Some (File text)).
  { eapply lookup_weaken; [exact Hfile|apply before_install_grows]. }
  assert (Hreject : installDependencies env (before_install env w)
                    = (Rejected (bad_json "package.json"),
                       before_install env w)).
  { rewrite install_run. unfold existsSync, readJsonSync.
    rewrite Hfault. rewrite stat_lookup by done.
    by rewrite Hthere, Hparse. }
  assert (Hinit : init env w
                  = (Rejected (bad_json "package.json"),
                     before_install env w)).
  { by rewrite init_run_cut, Hreject. }
  split_and!.
  - done.
  - rewrite main_status, Hargs. by rewrite Hreject.
  - unfold tree_after at 2. rewrite Hinit. cbn [snd].
    rewrite copy_loop_tree. unfold before_install.
    etrans; [|apply client_grows]. by rewrite after_copying_tree.
Qed.

Lemma unreadable_package_fails_late_witness :
  (main calm ["node"; "hi-supabase"] with_package).1 = 1%Z
  ∧ tree_after (init calm) with_package !! join "vercel.json"
    = Some (File "// vercel.json").
Proof.
  destruct (unreadable_package_fails_late calm ["node"; "hi-supabase"]
              with_package "{ name: ") as (_ & Hstatus & _);
    try reflexivity.
  split; [exact Hstatus|]. vm_compute. reflexivity.
Defined.

(** ** What a run never does *)

Section never.
Variable env : environment.

Lemma before_cleanup_tree (w : world) :
  fs (before_cleanup env w) = (delete_turns env filesToDelete (fs w)).2.
Proof. unfold before_cleanup. by rewrite delete_loop_turns, run_print. Qed.

Lemma uninstall_only_removes (w : world) : tree_after (uninstall env) w ⊆ fs w.
Proof.
  etrans; [apply uninstall_shrinks|apply delete_turns_shrinks].
Qed.

Lemma main_tree (argv : list string) (w : world) :
  fs (main env argv w).2 =
  if includes (drop 2 argv) "uninstall"
  then tree_after (uninstall env) w
  else tree_after (init env) w.
Proof.
  unfold main, tree_after. destruct (includes _ _).
  - by destruct (uninstall env w) as [[[]|e] w'].
  - by destruct (init env w) as [[[]|e] w'].
Qed.

End never.

(** X4. Without [uninstall] among its arguments the script only adds to
    the project: every file and directory that was there before the run is
    there afterwards, unchanged, wherever it is.  The package manager the
    install step may start is outside the script and is taken to add
    only. *)
Theorem provisioning_only_adds (env : environment) (argv : list string)
    (w : world) :
  includes (drop 2 argv) "uninstall" = false →
  (∀ cmd t t', execSync env cmd t = inr t' → t ⊆ t') →
  fs w ⊆ fs (main env argv w).2.
Proof.
  intros Hargs Hpm. rewrite main_tree, Hargs.
  etrans; [apply (copy_turns_grows env filesToCopy)|].
  by apply init_keeps_copies.
Qed.

Lemma provisioning_only_adds_witness :
  fs own_vercel ⊆ fs (main calm ["node"; "hi-supabase"; "init"] own_vercel).2.
Proof.
  apply provisioning_only_adds.
  - reflexivity.
  - intros cmd t t' [= <-]. reflexivity.
Defined.

(** X5. With [uninstall] among its arguments the script only takes away:
    whatever is in the project after the run was there before, unchanged,
    and nothing is touched that is not at or below one of the five manifest
    paths or one of the two watched directories.  This holds however the
    run ends. *)
Theorem decommission_only_removes (env : environment) (argv : list string)
    (w : world) :
  includes (drop 2 argv) "uninstall" = true →
  fs (main env argv w).2 ⊆ fs w
  ∧ ∀ q, (∀ f, f ∈ filesToDelete → ¬ join f `prefix_of` q) →
         (∀ d, d ∈ dirsToClean → ¬ join d `prefix_of` q) →
         fs (main env argv w).2 !! q = fs w !! q.
Proof.
  intros Hargs. rewrite main_tree, Hargs. split.
  - apply uninstall_only_removes.
  - intros q Hfiles Hdirs. by apply uninstall_outside.
Qed.

Lemma decommission_only_removes_witness :
  fs (main calm ["node"; "hi-supabase"; "uninstall"] shared_config).2
  ⊆ fs shared_config.
Proof.
  apply (decommission_only_removes calm
           ["node"; "hi-supabase"; "uninstall"] shared_config).
  reflexivity.
Defined.

(** ** Provisioning followed by decommissioning *)

Lemma tree_after_world {A} (m : M A) (w : world) :
  tree_after m w = fs (m w).2.
Proof. reflexivity. Qed.

Lemma manifest_destinations : dest <$> filesToCopy = filesToDelete.
Proof. reflexivity. Qed.

Lemma manifest_destination_at (i : nat) (file : manifest_entry) :
  filesToCopy !! i = Some file → filesToDelete !! i = Some (dest file).
Proof.
  intros Hi. rewrite <- manifest_destinations, list_lookup_fmap.
  by rewrite Hi.
Qed.

Section provision_then_decommission.
Variable env : environment.

(** Deleting something that is there, with an [fs.remove] that does not
    fail, takes it away along with what is below it. *)
Lemma delete_turn_present (file : string) (t : tree) (n : node) :
  t !! join file = Some n → join file ≠ [] →
  fault env (OpRemove (join file)) = None →
  (delete_turn env file t).1 = Deleted ∧
  ∀ q, join file `prefix_of` q → (delete_turn env file t).2 !! q = None.
Proof.
  intros Hthere Hroot Hfault. unfold delete_turn, existsSync.
  rewrite stat_lookup, Hthere by done.
  destruct (remove env (join file) t) as [e|t'] eqn:Hrm.
  { apply remove_fails in Hrm. congruence. }
  split; [done|]. intros q Hq. cbn [snd].
  rewrite (remove_lookup _ _ _ _ q Hrm). by case_decide.
Qed.

End provision_then_decommission.

(** X6. [uninstall] deletes whatever sits at a manifest path, whether or
    not [init] put it there.  A file the project already had at a manifest
    destination is skipped by [init], which leaves its contents alone, and
    is then deleted by [uninstall] like the files [init] created. *)
Theorem skipped_file_is_deleted (env : environment) (w : world) (i : nat)
    (file : manifest_entry) (content : string) :
  filesToCopy !! i = Some file →
  fs w !! join (dest file) = Some (File content) →
  (∀ cmd t t', execSync env cmd t = inr t' → t ⊆ t') →
  fault env (OpRemove (join (dest file))) = None →
  tree_after (init env) w !! join (dest file) = Some (File content)
  ∧ provision_outcomes (printed (init env) w) !! i ≠ Some Created
  ∧ removal_outcomes (printed (uninstall env) (init env w).2) !! i
    = Some Deleted
  ∧ tree_after (uninstall env) (init env w).2 !! join (dest file) = None.
Proof.
  intros Hi Hfile Hpm Hfault.
  assert (Hkept : tree_after (init env) w !! join (dest file)
                  = Some (File content)).
  { eapply lookup_weaken; [exact Hfile|].
    etrans; [apply (copy_turns_grows env filesToCopy)|].
    by apply init_keeps_copies. }
  pose proof (manifest_destination_at i file Hi) as Hdel.
  assert (Hroot : join (dest file) ≠ [])
    by (by eapply filesToDelete_below_root).
  destruct (delete_turns_at env _ (fs (init env w).2) i (dest file)
              apart_filesToDelete Hdel)
    as (ti & Hsame & Hout & Hafter).
  pose proof Hkept as Hkept'. rewrite tree_after_world in Hkept'.
  rewrite Hkept' in Hsame.
  destruct (delete_turn_present env (dest file) ti _ Hsame Hroot Hfault)
    as [Hdeleted Hgone].
  split_and!.
  - done.
  - rewrite init_outcomes.
    destruct (copy_turns_at env _ (fs w) i file Hi) as (tj & Htj & -> & _).
    intros [= Hcreated]. revert Hcreated.
    apply (copy_turn_existing env file tj content).
    eapply lookup_weaken; [exact Hfile|exact Htj].
  - rewrite uninstall_outcomes, Hout, Hdeleted. reflexivity.
  - eapply lookup_weaken_None; [by apply Hgone|].
    etrans; [apply uninstall_shrinks|exact Hafter].
Qed.

Lemma skipped_file_is_deleted_witness :
  tree_after (init calm) own_vercel !! join "vercel.json"
    = Some (File "{ }")
  ∧ tree_after (uninstall calm) (init calm own_vercel).2 !! join "vercel.json"
    = None.
Proof.
  destruct (skipped_file_is_deleted calm own_vercel 4
              (Entry "vercel.json" "vercel.json"
                     "Created vercel.json at vercel.json") "{ }")
    as (Hkept & _ & _ & Hgone).
  - reflexivity.
  - reflexivity.
  - intros cmd t t' [= <-]. reflexivity.
  - reflexivity.
  - split; [exact Hkept|exact Hgone].
Defined.

(** X7. Running [uninstall] a second time finds nothing left to delete:
    every manifest entry whose removal did not fail in the first run is
    reported NotFound by the second. *)
Theorem second_uninstall_finds_nothing (env : environment) (w : world)
    (i : nat) (file : string) :
  filesToDelete !! i = Some file →
  (∀ reason, removal_outcomes (printed (uninstall env) w) !! i
             ≠ Some (RemovalFailed reason)) →
  removal_outcomes (printed (uninstall env) (uninstall env w).2) !! i
  = Some NotFound.
Proof.
  intros Hi Hfirst. rewrite uninstall_outcomes in Hfirst.
  assert (Hroot : join file ≠ []) by (by eapply filesToDelete_below_root).
  assert (Hgone : tree_after (uninstall env) w !! join file = None).
  { destruct (delete_turns_at env _ (fs w) i file apart_filesToDelete Hi)
      as (ti & Hsame & Hout & Hafter).
    rewrite Hout in Hfirst.
    eapply lookup_weaken_None;
      [|etrans; [apply uninstall_shrinks|exact Hafter]].
    unfold delete_turn in *.
    destruct (existsSync ti (join file)) eqn:Hex.
    - destruct (remove env (join file) ti) as [e|t'] eqn:Hrm.
      + by destruct (Hfirst (message e)).
      + by eapply remove_gone.
    - apply existsSync_false in Hex. by rewrite stat_lookup in Hex. }
  rewrite uninstall_outcomes.
  destruct (delete_turns_at env _ (fs (uninstall env w).2) i file
              apart_filesToDelete Hi)
    as (ti & Hsame & -> & _).
  rewrite tree_after_world in Hgone. rewrite Hgone in Hsame.
  unfold delete_turn, existsSync.
  by rewrite stat_lookup, Hsame.
Qed.

Lemma second_uninstall_finds_nothing_witness :
  removal_outcomes (printed (uninstall calm) (uninstall calm shared_config).2)
    !! 0 = Some NotFound.
Proof.
  apply (second_uninstall_finds_nothing calm shared_config 0
           "app/api/keep-alive/route.ts").
  - reflexivity.
  - intros reason. vm_compute. discriminate.
Defined.

(** ** Where provisioning writes *)

Section footprint.
Variable env : environment.

Lemma mkdirs_outside (p q : path) (t t' : tree) :
  mkdirs p t = inr t' → ¬ on_the_way q p → t' !! q = t !! q.
Proof.
  intros Hmk Hout.
  destruct (mkdirs_from_lookup [] p t t' q Hmk)
    as [Hq|(_ & _ & k & Hk & Heq)]; [done|].
  exfalso. apply Hout. simpl in Heq. subst q. split.
  - intros Hnil. apply (f_equal length) in Hnil.
    rewrite length_take in Hnil. simpl in Hnil. lia.
  - apply prefix_take.
Qed.

Lemma on_the_way_dirname (q p : path) :
  on_the_way q (dirname p) → on_the_way q p.
Proof.
  intros [Hne Hpre]. split; [done|].
  etrans; [exact Hpre|apply prefix_take].
Qed.

Lemma copy_outside (src : string) (dest q : path) (opts : copy_options)
    (t t' : tree) :
  copy env src dest opts t = inr t' → ¬ on_the_way q dest → t' !! q = t !! q.
Proof.
  intros Hcopy Hout. unfold copy in Hcopy.
  destruct (fault env _); [done|].
  destruct (templates env src) as [c|]; [|done].
  assert (Hwrite : ∀ t0 : tree, dest ≠ [] →
            match mkdirs (dirname dest) t0 with
            | inl e => inl e
            | inr t1 => inr (<[dest:=File c]> t1)
            end = inr t' → t' !! q = t0 !! q).
  { intros t0 Hne Hw.
    destruct (mkdirs (dirname dest) t0) as [e|t1] eqn:Hmk; [done|].
    injection Hw as <-.
    rewrite lookup_insert_ne.
    - eapply mkdirs_outside; [exact Hmk|].
      intros Hway. by apply Hout, on_the_way_dirname.
    - intros ->. by apply Hout. }
  destruct (stat t dest) as [[c'|]|] eqn:Hstat; [| done |].
  - assert (Hne : dest ≠ []) by (intros ->; done).
    destruct (overwrite opts).
    + rewrite (Hwrite _ Hne Hcopy). apply lookup_delete_ne.
      intros ->. by apply Hout.
    + destruct (errorOnExist opts); [done|]. by injection Hcopy as <-.
  - apply stat_None in Hstat as [Hne _]. by apply (Hwrite t).
Qed.

Lemma ensureDir_outside (p q : path) (t t' : tree) :
  ensureDir env p t = inr t' → ¬ on_the_way q p → t' !! q = t !! q.
Proof.
  unfold ensureDir. destruct (fault env _); [done|]. apply mkdirs_outside.
Qed.

Lemma copy_turn_outside (file : manifest_entry) (t : tree) (q : path) :
  ¬ on_the_way q (join (dest file)) →
  (copy_turn env file t).2 !! q = t !! q.
Proof.
  intros Hout. unfold copy_turn.
  destruct (ensureDir env _ t) as [e|t1] eqn:Hdir; [done|].
  assert (H1 : t1 !! q = t !! q).
  { eapply ensureDir_outside; [exact Hdir|].
    intros Hway. by apply Hout, on_the_way_dirname. }
  destruct (copy env _ _ _ t1) as [e|t2] eqn:Hcopy; cbn [snd]; [done|].
  rewrite <- H1. by eapply copy_outside.
Qed.

Lemma copy_turns_outside (files : list manifest_entry) (t : tree) (q : path) :
  (∀ file, file ∈ files → ¬ on_the_way q (join (dest file))) →
  (copy_turns env files t).2 !! q = t !! q.
Proof.
  revert t. induction files as [|f files IH]; intros t Hout; [done|].
  cbn [copy_turns snd]. rewrite IH.
  - apply copy_turn_outside, Hout, list_elem_of_here.
  - intros file Hfile. by apply Hout, list_elem_of_further.
Qed.

Lemma create_client_outside (t : tree) (q : path) :
  ¬ on_the_way q clientPath → (create_client env t).2 !! q = t !! q.
Proof.
  intros Hout. unfold create_client.
  destruct (ensureDir env _ t) as [e|t1] eqn:Hdir; [done|].
  assert (H1 : t1 !! q = t !! q).
  { eapply ensureDir_outside; [exact Hdir|].
    intros Hway. by apply Hout, on_the_way_dirname. }
  destruct (copy env _ _ _ t1) as [e|t2] eqn:Hcopy; cbn [snd]; [done|].
  rewrite <- H1. by eapply copy_outside.
Qed.

(** The creation step, taken again on the tree it left without a client,
    ends the same way and leaves the same tree. *)
Lemma create_client_again (t : tree) :
  existsSync (create_client env t).2 clientPath = false →
  create_client env (create_client env t).2 = create_client env t.
Proof.
  unfold create_client.
  destruct (ensureDir env (dirname clientPath) t) as [e|t1] eqn:Hdir;
    cbn [snd].
  { by rewrite Hdir. }
  assert (Hsettled : ensureDir env (dirname clientPath) t1 = inr t1).
  { unfold ensureDir in *. destruct (fault env _); [done|].
    apply mkdirs_id. by eapply mkdirs_dirs. }
  destruct (copy env "supabase-server.ts" clientPath default_options t1)
    as [e|t2] eqn:Hcopy; cbn [snd].
  - intros _. by rewrite Hsettled, Hcopy.
  - intros Habsent. exfalso.
    apply existsSync_false in Habsent. rewrite stat_lookup in Habsent by done.
    unfold copy in Hcopy. destruct (fault env _); [done|].
    destruct (templates env _) as [c|]; [|done].
    assert (Hwritten : ∀ t0 : tree,
              match mkdirs (dirname clientPath) t0 with
              | inl e => inl e
              | inr t3 => inr (<[clientPath:=File c]> t3)
              end = inr t2 → t2 !! clientPath = Some (File c)).
    { intros t0 Hw. destruct (mkdirs (dirname clientPath) t0); [done|].
      injection Hw as <-. apply lookup_insert_eq. }
    destruct (stat t1 clientPath) as [[c'|]|]; cbn in Hcopy; [| done |].
    + rewrite (Hwritten _ Hcopy) in Habsent. done.
    + rewrite (Hwritten _ Hcopy) in Habsent. done.
Qed.

End footprint.

(** X8. Up to the install step, [init] writes only at the manifest
    destinations, at [lib/supabase/server.ts] and at the directories on the
    way down to them: every other path of the project holds after these
    steps what it held before, however the steps end. *)
Theorem provisioning_footprint (env : environment) (w : world) (q : path) :
  (∀ file, file ∈ filesToCopy → ¬ on_the_way q (join (dest file))) →
  ¬ on_the_way q clientPath →
  fs (before_install env w) !! q = fs w !! q.
Proof.
  intros Hfiles Hclient. unfold before_install.
  rewrite client_run.
  assert (Hcopied : fs (after_copying env w) !! q = fs w !! q).
  { rewrite after_copying_tree. by apply copy_turns_outside. }
  destruct (existsSync (fs (after_copying env w)) clientPath); cbn [snd fs].
  - done.
  - rewrite <- Hcopied. by apply create_client_outside.
Qed.

Lemma provisioning_footprint_witness :
  fs (before_install calm with_sources) !! join "src/index.ts"
  = Some (File "// mine").
Proof.
  rewrite (provisioning_footprint calm with_sources (join "src/index.ts")).
  - reflexivity.
  - intros file Hfile [_ Hpre].
    apply list_elem_of_In in Hfile. simpl in Hfile.
    destruct Hfile as [<-|[<-|[<-|[<-|[<-|[]]]]]];
      revert Hpre; by (apply (bool_decide_unpack _); vm_compute).
  - intros [_ Hpre]. revert Hpre.
    by (apply (bool_decide_unpack _); vm_compute).
Defined.

(** X9. [checkAndCreateSupabaseClient] settles after one call: calling it
    again leaves the tree the first call left, whether the first call
    found a client, created one or failed to. *)
Theorem client_check_settles (env : environment) (w : world) :
  tree_after (checkAndCreateSupabaseClient env)
             (checkAndCreateSupabaseClient env w).2
  = tree_after (checkAndCreateSupabaseClient env) w.
Proof.
  rewrite !tree_after_world. rewrite (client_run env w).
  destruct (existsSync (fs w) clientPath) eqn:Hex; cbn [snd].
  - rewrite client_run. cbn [fs]. by rewrite Hex.
  - rewrite client_run. cbn [fs].
    destruct (existsSync (create_client env (fs w)).2 clientPath) eqn:Hex2;
      cbn [snd fs]; [done|].
    by rewrite create_client_again.
Qed.

(** ** The environment check and the module's guard *)

Section env_check.
Variable env : environment.

Lemma init_after_env_check (w : world) :
  init env w
  = after_env_check env
      (World (fs w)
         (console w ++ [LogInitializing; env_event (process_env env)])).
Proof.
  unfold init, env_event. fold (after_env_check env).
  rewrite run_bind, run_print. cbv beta iota. rewrite run_bind.
  destruct (falsy (process_env env "NEXT_PUBLIC_SUPABASE_URL")
            || falsy (process_env env "NEXT_PUBLIC_SUPABASE_ANON_KEY"));
    cbv beta iota; rewrite run_print; cbv beta iota; cbn [fs console];
    rewrite <- app_assoc; reflexivity.
Qed.

Lemma after_env_check_prints :
  prints (λ ev, ev ≠ LogEnvFound ∧ ev ≠ WarnEnvMissing) (after_env_check env).
Proof.
  unfold after_env_check, copy_file, checkAndCreateSupabaseClient,
    installDependencies, detectPackageManager.
  solve_prints.
Qed.

(** What [init] prints about the variables is the message of the check,
    once. *)
Lemma init_env_message (w : world) (ev : event) :
  ev = LogEnvFound ∨ ev = WarnEnvMissing →
  ev ∈ printed (init env) w ↔ ev = env_event (process_env env).
Proof.
  intros Hev.
  destruct (after_env_check_prints
              (World (fs w)
                 (console w ++
                  [LogInitializing; env_event (process_env env)])))
    as (evs & Hevs & Hother).
  rewrite <- init_after_env_check in Hevs. cbn [console] in Hevs.
  rewrite <- app_assoc in Hevs. rewrite (printed_app _ _ _ Hevs).
  rewrite Forall_forall in Hother.
  split.
  - intros Hin. apply elem_of_app in Hin as [Hin|Hin].
    + apply list_elem_of_In in Hin. simpl in Hin.
      destruct Hin as [<-|[<-|[]]]; [|done].
      by destruct Hev.
    + destruct (Hother ev Hin) as [H1 H2]. by destruct Hev.
  - intros ->. apply elem_of_app. left.
    apply list_elem_of_further, list_elem_of_here.
Qed.

End env_check.

(** X10. The check [init] makes of the two variables is the guard of
    [supabase.ts], and no more than the guard.  [init] prints exactly one
    of its two messages.  It warns exactly when one of the variables is
    not set or is empty, and evaluating the module then throws "Missing
    Supabase environment variables".  It reports the variables found
    exactly when both are set and not empty; the module is then past its
    guard, and evaluating it succeeds when the client library takes the
    two values and throws the library's error when it refuses them, as it
    does for a URL that is not an HTTP or HTTPS URL. *)
Theorem env_check_agrees_with_module
    (refuses : string → string → option error)
    (server : list Supabase.query → Supabase.query → Supabase.response)
    (env : environment) (w : world) :
  (WarnEnvMissing ∈ printed (init env) w
   ↔ LogEnvFound ∉ printed (init env) w)
  ∧ (WarnEnvMissing ∈ printed (init env) w
     ↔ falsy (process_env env "NEXT_PUBLIC_SUPABASE_URL")
       || falsy (process_env env "NEXT_PUBLIC_SUPABASE_ANON_KEY") = true)
  ∧ (WarnEnvMissing ∈ printed (init env) w →
     Supabase.import_module refuses server (process_env env)
     = Rejected Supabase.missing_variables)
  ∧ (LogEnvFound ∈ printed (init env) w
     ↔ ∃ u k,
         process_env env "NEXT_PUBLIC_SUPABASE_URL" = Some u ∧
         process_env env "NEXT_PUBLIC_SUPABASE_ANON_KEY" = Some k ∧
         u ≠ "" ∧ k ≠ "" ∧
         match refuses u k with
         | Some e =>
             Supabase.import_module refuses server (process_env env)
             = Rejected e
         | None =>
             ∃ m, Supabase.import_module refuses server (process_env env)
                  = Resolved m
                  ∧ Supabase.exp_supabase m = Supabase.Client u k
         end).
Proof.
  rewrite !init_env_message by tauto.
  unfold env_event, Supabase.import_module, Supabase.createSupabaseClient.
  destruct (falsy (process_env env "NEXT_PUBLIC_SUPABASE_URL")
            || falsy (process_env env "NEXT_PUBLIC_SUPABASE_ANON_KEY"))
    eqn:Hguard.
  - split_and!.
    + split; [intros _ [=]|done].
    + done.
    + done.
    + split; [done|]. intros (u & k & Hu & Hk & Hne1 & Hne2 & _).
      rewrite Hu, Hk in Hguard. simpl in Hguard.
      rewrite !bool_decide_eq_false_2 in Hguard by done. done.
  - apply orb_false_elim in Hguard as [Hu Hk].
    destruct (process_env env "NEXT_PUBLIC_SUPABASE_URL") as [u|]; [|done].
    destruct (process_env env "NEXT_PUBLIC_SUPABASE_ANON_KEY") as [k|];
      [|done].
    simpl in Hu, Hk. apply bool_decide_eq_false in Hu, Hk.
    split_and!.
    + split; [done|]. intros H. by destruct H.
    + done.
    + done.
    + split; [|done]. intros _. exists u, k. split_and!; [done..|].
      simpl. destruct (refuses u k); [done|]. by eexists.
Qed.

Example empty_value_counts_as_missing :
  let vars name :=
    if bool_decide (name = "NEXT_PUBLIC_SUPABASE_URL") then Some ""
    else Some "anon" in
  Supabase.import_module Supabase.wants_http (Supabase.fixed_store []) vars
  = Rejected Supabase.missing_variables
  ∧ env_event vars = WarnEnvMissing.
Proof. split; reflexivity. Qed.

(** [init] reports the variables found, and the module throws all the
    same: the URL is not one. *)
Example found_and_module_throws :
  let vars name :=
    if bool_decide (name = "NEXT_PUBLIC_SUPABASE_URL") then Some "not a url"
    else Some "anon" in
  env_event vars = LogEnvFound
  ∧ Supabase.import_module Supabase.wants_http (Supabase.fixed_store []) vars
    = Rejected Supabase.invalid_url.
Proof. split; reflexivity. Qed.

(** ** One client for every request *)

(** X11. A successful evaluation of [supabase.ts] builds one client from
    the two variables; [createClient()] returns that client, and every
    request the four exported functions send goes through it, to the
    table [chatbots]: an insert that asks for the new row back, a select of
    the owner's rows ordered by [created_at] descending, a select of the
    single row with the slug, and a delete of the rows with the id. *)
Theorem one_client_for_every_request
    (refuses : string → string → option error)
    (server : list Supabase.query → Supabase.query → Supabase.response)
    (vars : string → option string) (m : Supabase.exports) :
  Supabase.import_module refuses server vars = Resolved m →
  ∃ url key,
    vars "NEXT_PUBLIC_SUPABASE_URL" = Some url ∧
    vars "NEXT_PUBLIC_SUPABASE_ANON_KEY" = Some key ∧
    Supabase.exp_supabase m = Supabase.Client url key ∧
    Supabase.exp_createClient m tt = Supabase.Client url key ∧
    ∀ sent,
      (∀ new, (Supabase.exp_createChatbot m new sent).2
              = sent ++ [Supabase.Query (Supabase.Client url key) "chatbots"
                           (Supabase.Insert new) true [] None true])
      ∧ (∀ userId, (Supabase.exp_getChatbotsByUserId m userId sent).2
              = sent ++ [Supabase.Query (Supabase.Client url key) "chatbots"
                           (Supabase.Select "*") false [("user_id", userId)]
                           (Some ("created_at", false)) false])
      ∧ (∀ slug, (Supabase.exp_getChatbotBySlug m slug sent).2
              = sent ++ [Supabase.Query (Supabase.Client url key) "chatbots"
                           (Supabase.Select "*") false [("bot_slug", slug)]
                           None true])
      ∧ (∀ id, (Supabase.exp_deleteChatbot m id sent).2
              = sent ++ [Supabase.Query (Supabase.Client url key) "chatbots"
                           Supabase.Delete false [("id", id)] None false]).
Proof.
  unfold Supabase.import_module, Supabase.createSupabaseClient.
  destruct (vars "NEXT_PUBLIC_SUPABASE_URL") as [url|],
    (vars "NEXT_PUBLIC_SUPABASE_ANON_KEY") as [key|]; simpl;
    try (repeat case_bool_decide; done).
  destruct (_ || _); [done|].
  destruct (refuses url key); [done|]. intros [= <-].
  exists url, key. split_and!; try done.
  intros sent. cbn [Supabase.exp_createChatbot Supabase.exp_getChatbotsByUserId
                    Supabase.exp_getChatbotBySlug Supabase.exp_deleteChatbot].
  split_and!.
  - intros new. by rewrite createChatbot_run.
  - intros userId. by rewrite getChatbotsByUserId_run.
  - intros slug. by rewrite getChatbotBySlug_run.
  - intros id. by rewrite deleteChatbot_run.
Qed.

Lemma one_client_for_every_request_witness :
  ∃ url key,
    both_set "NEXT_PUBLIC_SUPABASE_URL" = Some url ∧
    both_set "NEXT_PUBLIC_SUPABASE_ANON_KEY" = Some key ∧
    Supabase.createClient (Supabase.Client url key) tt
    = Supabase.Client "https://x.supabase.co" "anon".
Proof.
  destruct (one_client_for_every_request Supabase.wants_http
              (Supabase.fixed_store []) both_set
              (Supabase.Exports
                 (Supabase.Client "https://x.supabase.co" "anon")
                 (Supabase.createClient
                    (Supabase.Client "https://x.supabase.co" "anon"))
                 (Supabase.createChatbot (Supabase.fixed_store [])
                    (Supabase.Client "https://x.supabase.co" "anon"))
                 (Supabase.getChatbotsByUserId (Supabase.fixed_store [])
                    (Supabase.Client "https://x.supabase.co" "anon"))
                 (Supabase.getChatbotBySlug (Supabase.fixed_store [])
                    (Supabase.Client "https://x.supabase.co" "anon"))
                 (Supabase.deleteChatbot (Supabase.fixed_store [])
                    (Supabase.Client "https://x.supabase.co" "anon"))))
    as (url & key & Hurl & Hkey & Hclient & _).
  - reflexivity.
  - exists url, key. split_and!; [done..|].
    cbn [Supabase.exp_supabase] in Hclient. by rewrite <- Hclient.
Defined.

(** ** A round trip: the copy loop, then [uninstall] *)

Lemma separate_filesToCopy : separate filesToCopy.
Proof.
  unfold filesToCopy. simpl.
  repeat split; repeat constructor;
    by (apply (bool_decide_unpack _); vm_compute).
Qed.

Lemma on_the_way_take (q p : path) :
  on_the_way q p → 1 ≤ length q ≤ length p ∧ q = take (length q) p.
Proof.
  intros [Hne [k ->]]. rewrite length_app, take_app_length.
  split; [|done]. destruct q; [done|]. simpl. lia.
Qed.

Lemma dirs_below_on_the_way (t : tree) (p q : path) :
  dirs_below t [] p → on_the_way q p → t !! q = Some Dir.
Proof.
  intros Hdirs Hway. apply on_the_way_take in Hway as [Hlen Hq].
  rewrite Hq. by apply (Hdirs (length q)).
Qed.

Lemma on_the_way_strict (q p : path) :
  on_the_way q p → q ≠ p → on_the_way q (dirname p).
Proof.
  intros [Hne [k Hk]] Hneq. split; [done|].
  induction k as [|x k' _] using rev_ind.
  - rewrite app_nil_r in Hk. congruence.
  - exists k'. subst p. rewrite app_assoc. by rewrite dirname_snoc.
Qed.

Section creating.
Variable env : environment.
Hypothesis no_fault : ∀ op, fault env op = None.

(** A turn that has what it needs creates its file, and makes the
    directories above it. *)
Lemma copy_turn_creates (file : manifest_entry) (t : tree) :
  ready env t file →
  (copy_turn env file t).1 = Created ∧
  dirs_below (copy_turn env file t).2 [] (dirname (join (dest file))).
Proof.
  intros ([c Htpl] & Hroot & Hfree & Hclear).
  unfold copy_turn, ensureDir. rewrite no_fault.
  destruct (mkdirs_from_clear [] (dirname (join (dest file))) t) as [t1 Hmk].
  { intros k c' Hk. apply Hclear. simpl. split.
    - intros Hnil. apply (f_equal length) in Hnil.
      rewrite length_take in Hnil. simpl in Hnil. lia.
    - apply prefix_take. }
  change (mkdirs_from [] (dirname (join (dest file))) t)
    with (mkdirs (dirname (join (dest file))) t) in Hmk.
  rewrite Hmk.
  pose proof (mkdirs_dirs _ _ _ Hmk) as Hdirs.
  unfold copy. rewrite no_fault, Htpl.
  rewrite stat_lookup, (mkdirs_dirname_dest _ _ _ Hmk), Hfree by done.
  rewrite (mkdirs_id _ _ Hdirs). cbn [fst snd]. split; [done|].
  eapply dirs_below_weaken; [|exact Hdirs].
  apply insert_subseteq. by rewrite (mkdirs_dirname_dest _ _ _ Hmk).
Qed.

(** In a list of entries that lie apart, a turn leaves the later entries
    ready. *)
Lemma ready_after_turn (f g : manifest_entry) (t : tree) :
  ready env t f → ready env t g →
  ¬ join (dest f) `prefix_of` join (dest g) →
  ¬ join (dest g) `prefix_of` join (dest f) →
  ready env (copy_turn env f t).2 g.
Proof.
  intros Hf (Htpl & Hroot & Hfree & Hclear) Hfg Hgf.
  destruct (copy_turn_creates f t Hf) as [_ Hdirs].
  split_and!; [done..| |].
  - rewrite copy_turn_outside; [done|]. by intros [_ Hpre].
  - intros q c Hway.
    destruct (decide (on_the_way q (join (dest f)))) as [Hqf|Hqf].
    + assert (Hstrict : q ≠ join (dest f)).
      { intros ->. apply Hfg. destruct Hway as [_ Hpre].
        etrans; [exact Hpre|apply prefix_take]. }
      rewrite (dirs_below_on_the_way _ _ _ Hdirs); [done|].
      by apply on_the_way_strict.
    + rewrite copy_turn_outside by done. by apply Hclear.
Qed.

Lemma copy_turns_all_created (files : list manifest_entry) (t : tree) :
  separate files → (∀ file, file ∈ files → ready env t file) →
  (copy_turns env files t).1 = replicate (length files) Created.
Proof.
  revert t. induction files as [|f files IH]; intros t Hsep Hready; [done|].
  destruct Hsep as [Hf Hsep]. rewrite Forall_forall in Hf.
  assert (Hrf : ready env t f) by apply Hready, list_elem_of_here.
  cbn [copy_turns fst length replicate].
  destruct (copy_turn_creates f t Hrf) as [-> _]. f_equal.
  apply IH; [done|]. intros g Hg.
  destruct (Hf g Hg) as [Hfg Hgf].
  apply ready_after_turn; [done| |done..].
  by apply Hready, list_elem_of_further.
Qed.

(** After a loop in which every entry was created, the directories above
    each destination are there. *)
Lemma copy_turns_dirs (files : list manifest_entry) (t : tree)
    (file : manifest_entry) (q : path) :
  separate files → (∀ file, file ∈ files → ready env t file) →
  file ∈ files → on_the_way q (dirname (join (dest file))) →
  (copy_turns env files t).2 !! q = Some Dir.
Proof.
  revert t. induction files as [|f files IH]; intros t Hsep Hready Hin Hway.
  { by apply not_elem_of_nil in Hin. }
  destruct Hsep as [Hf Hsep]. rewrite Forall_forall in Hf.
  assert (Hrf : ready env t f) by apply Hready, list_elem_of_here.
  cbn [copy_turns snd].
  apply elem_of_cons in Hin as [->|Hin].
  - destruct (copy_turn_creates f t Hrf) as [_ Hdirs].
    eapply lookup_weaken; [|apply copy_turns_grows].
    by eapply dirs_below_on_the_way.
  - apply IH; [done| |done..]. intros g Hg.
    destruct (Hf g Hg) as [Hfg Hgf].
    apply ready_after_turn; [done| |done..].
    by apply Hready, list_elem_of_further.
Qed.

End creating.

Section removing.
Variable env : environment.
Hypothesis no_fault : ∀ op, fault env op = None.

Lemma remove_run (p : path) (t : tree) :
  ∃ t', remove env p t = inr t' ∧
        ∀ q, t' !! q = if decide (p `prefix_of` q) then None else t !! q.
Proof.
  destruct (remove env p t) as [e|t'] eqn:Hrm.
  - apply remove_fails in Hrm. by rewrite no_fault in Hrm.
  - exists t'. split; [done|]. intros q.
    exact (remove_lookup env p t t' q Hrm).
Qed.

(** Where every path of the list is there, every entry is deleted, and
    the tree loses exactly what is at or below these paths. *)
Lemma delete_turns_all_deleted (files : list string) (t : tree) :
  apart files →
  (∀ f, f ∈ files → is_Some (t !! join f) ∧ join f ≠ []) →
  (delete_turns env files t).1 = replicate (length files) Deleted ∧
  ∀ q, (delete_turns env files t).2 !! q
       = if decide (Exists (λ f, join f `prefix_of` q) files)
         then None else t !! q.
Proof.
  revert t. induction files as [|g files IH]; intros t Hapart Hthere.
  { split; [done|]. intros q. case_decide as Hex; [|done].
    by apply Exists_nil in Hex. }
  destruct Hapart as [Hg Hapart]. rewrite Forall_forall in Hg.
  destruct (Hthere g) as [[n Hn] Hroot]; [apply list_elem_of_here|].
  destruct (remove_run (join g) t) as (t' & Hrm & Ht').
  assert (Hturn : delete_turn env g t = (Deleted, t')).
  { unfold delete_turn, existsSync. by rewrite stat_lookup, Hn, Hrm. }
  cbn [delete_turns]. rewrite Hturn. cbn [fst snd length replicate].
  destruct (IH t' Hapart) as [Hout Htree].
  { intros f Hf. destruct (Hthere f) as [Hf1 Hf2];
      [by apply list_elem_of_further|].
    split; [|done]. rewrite Ht'. rewrite decide_False; [done|].
    by apply Hg. }
  split; [by rewrite Hout|].
  intros q. rewrite Htree, Ht'.
  destruct (decide (Exists (λ f, join f `prefix_of` q) (g :: files)))
    as [Hall|Hall];
    destruct (decide (Exists (λ f, join f `prefix_of` q) files)) as [He|He];
    destruct (decide (join g `prefix_of` q)) as [Hgq|Hgq];
    try done; rewrite Exists_cons in Hall; tauto.
Qed.

(** Where every watched path is an empty directory, the clean-up goes
    through and takes all of them away. *)
Lemma clean_turns_all_removed (dirs : list string) (t : tree) :
  scattered dirs →
  (∀ d, d ∈ dirs →
        t !! join d = Some Dir ∧ join d ≠ [] ∧ children (join d) t = []) →
  (clean_turns env dirs t).1 = None ∧
  ∀ q, (clean_turns env dirs t).2 !! q
       = if decide (Exists (λ d, join d `prefix_of` q) dirs)
         then None else t !! q.
Proof.
  revert t. induction dirs as [|d dirs IH]; intros t Hsc Hempty.
  { split; [done|]. intros q. case_decide as Hex; [|done].
    by apply Exists_nil in Hex. }
  destruct Hsc as [Hd Hsc]. rewrite Forall_forall in Hd.
  destruct (Hempty d) as (Hdir & Hroot & Hkids); [apply list_elem_of_here|].
  destruct (remove_run (join d) t) as (t' & Hrm & Ht').
  assert (Hturn : clean_turn env d t = inr (true, t')).
  { unfold clean_turn, existsSync, readdir.
    rewrite no_fault, stat_lookup, Hdir by done.
    rewrite listing_length, Hkids. cbn [length].
    rewrite bool_decide_eq_true_2 by done. by rewrite Hrm. }
  cbn [clean_turns]. rewrite Hturn.
  destruct (IH t' Hsc) as [Hnone Htree].
  { intros e He. destruct (Hempty e) as (He1 & He2 & He3);
      [by apply list_elem_of_further|].
    destruct (Hd e He) as [Hde Hed].
    split_and!; [|done|].
    - rewrite Ht'. by rewrite decide_False.
    - apply (children_agree _ t' t); [|done].
      intros q Hq. rewrite Ht'. rewrite decide_False; [done|].
      by eapply unrelated_below. }
  split; [done|].
  intros q. rewrite Htree, Ht'.
  destruct (decide (Exists (λ e, join e `prefix_of` q) (d :: dirs)))
    as [Hall|Hall];
    destruct (decide (Exists (λ e, join e `prefix_of` q) dirs)) as [He|He];
    destruct (decide (join d `prefix_of` q)) as [Hdq|Hdq];
    try done; rewrite Exists_cons in Hall; tauto.
Qed.

End removing.

(** The paths of the manifest, one by one. *)

Lemma prefix_cons_cases (x : string) (q p : path) :
  q `prefix_of` x :: p → q = [] ∨ ∃ q', q = x :: q' ∧ q' `prefix_of` p.
Proof.
  destruct q as [|y q]; [by left|]. intros Hpre. right.
  pose proof (prefix_cons_inv_1 _ _ _ _ Hpre) as ->.
  apply prefix_cons_inv_2 in Hpre. by exists q.
Qed.

Ltac prefix_cases H :=
  repeat match type of H with
  | _ `prefix_of` [] => apply prefix_nil_inv in H; subst
  | _ `prefix_of` _ :: _ =>
      let q' := fresh "q" in
      apply prefix_cons_cases in H as [->|(q' & -> & H)]
  end.

Ltac literal_goal :=
  repeat match goal with
  | |- context [join ?s] =>
      let v := eval vm_compute in (join s) in change (join s) with v
  end.

Ltac literal_paths H :=
  repeat match type of H with
  | context [join ?s] =>
      let v := eval vm_compute in (join s) in change (join s) with v in H
  end;
  literal_goal.

Lemma manifest_entry_cases (file : manifest_entry) :
  file ∈ filesToCopy →
  join (dest file) = join "app/api/keep-alive/route.ts"
  ∨ join (dest file) = join "app/api/keep-alive/keepAliveUtils.ts"
  ∨ join (dest file) = join "config/keep-alive-config.ts"
  ∨ join (dest file) = join "keep-alive.sql"
  ∨ join (dest file) = join "vercel.json".
Proof.
  intros Hin. apply list_elem_of_In in Hin. unfold filesToCopy in Hin.
  cbn [In] in Hin.
  destruct Hin as [<-|[<-|[<-|[<-|[<-|[]]]]]]; cbn [dest];
    [ left | right; left | do 2 right; left | do 3 right; left
    | do 4 right ]; reflexivity.
Qed.

(** The directories above the manifest destinations. *)
Lemma on_the_way_dirs (q : path) (file : manifest_entry) :
  file ∈ filesToCopy → on_the_way q (dirname (join (dest file))) →
  q = join "app" ∨ q = join "app/api" ∨ q = join "app/api/keep-alive"
  ∨ q = join "config".
Proof.
  intros Hin [Hne Hpre].
  destruct (manifest_entry_cases file Hin) as [E|[E|[E|[E|E]]]];
    rewrite E in Hpre;
    match type of Hpre with
    | _ `prefix_of` ?d =>
        let d' := eval vm_compute in d in
        replace d with d' in Hpre by (vm_compute; reflexivity)
    end;
    prefix_cases Hpre; try done;
    first [ by left | by (right; left) | by (do 2 right; left)
          | by (do 3 right) ].
Qed.

Lemma manifest_path_of_entry (file : manifest_entry) :
  file ∈ filesToCopy → dest file ∈ filesToDelete.
Proof.
  intros Hin. rewrite <- manifest_destinations.
  by apply list_elem_of_fmap_2.
Qed.

Lemma entry_of_manifest_path (f : string) :
  f ∈ filesToDelete → ∃ file, file ∈ filesToCopy ∧ f = dest file.
Proof.
  rewrite <- manifest_destinations. intros Hin.
  apply list_elem_of_fmap in Hin as (file & -> & Hfile). by exists file.
Qed.

(** A name directly below a watched directory is a manifest destination
    or is not on the way to any. *)
Lemma below_watched (d name : string) (file : manifest_entry) :
  d ∈ dirsToClean → file ∈ filesToCopy →
  on_the_way (join d ++ [name]) (join (dest file)) →
  join (dest file) `prefix_of` join d ++ [name].
Proof.
  intros Hd Hin [_ Hpre].
  apply list_elem_of_In in Hd. unfold dirsToClean in Hd. cbn [In] in Hd.
  destruct Hd as [<-|[<-|[]]];
    destruct (manifest_entry_cases file Hin) as [E|[E|[E|[E|E]]]];
    rewrite E in Hpre |- *; literal_paths Hpre; cbn [app] in Hpre |- *;
    repeat match type of Hpre with
    | (_ :: _) `prefix_of` (_ :: _) =>
        let Heq := fresh "Heq" in
        pose proof (prefix_cons_inv_1 _ _ _ _ Hpre) as Heq;
        apply prefix_cons_inv_2 in Hpre;
        first [ discriminate Heq | subst name | clear Heq ]
    | (_ :: _) `prefix_of` [] => apply prefix_nil_inv in Hpre; discriminate
    end;
    reflexivity.
Qed.

Lemma watched_is_above (d : string) :
  d ∈ dirsToClean →
  join d ≠ [] ∧
  ¬ Exists (λ f, join f `prefix_of` join d) filesToDelete ∧
  ∃ file, file ∈ filesToCopy ∧ on_the_way (join d) (dirname (join (dest file))).
Proof.
  intros Hd. apply list_elem_of_In in Hd. unfold dirsToClean in Hd.
  cbn [In] in Hd.
  destruct Hd as [<-|[<-|[]]].
  - split_and!; [by vm_compute|by (apply (bool_decide_unpack _); vm_compute)|].
    exists (Entry "route.ts" "app/api/keep-alive/route.ts"
                  "Created API route at app/api/keep-alive/route.ts").
    split; [apply list_elem_of_here|].
    split; [by vm_compute|by (apply (bool_decide_unpack _); vm_compute)].
  - split_and!; [by vm_compute|by (apply (bool_decide_unpack _); vm_compute)|].
    exists (Entry "keep-alive-config.ts" "config/keep-alive-config.ts"
                  "Created config at config/keep-alive-config.ts").
    split; [do 2 apply list_elem_of_further; apply list_elem_of_here|].
    split; [by vm_compute|by (apply (bool_decide_unpack _); vm_compute)].
Qed.

(** ** A first installation and its removal *)

Lemma watched_not_client (d name : string) :
  d ∈ dirsToClean → ¬ on_the_way (join d ++ [name]) clientPath.
Proof.
  intros Hd [_ Hpre].
  apply list_elem_of_In in Hd. unfold dirsToClean in Hd. cbn [In] in Hd.
  destruct Hd as [<-|[<-|[]]];
    literal_paths Hpre; cbn [app] in Hpre;
    apply prefix_cons_inv_1 in Hpre; discriminate Hpre.
Qed.

Lemma package_json_not_managed (file : manifest_entry) :
  file ∈ filesToCopy → ¬ on_the_way (join "package.json") (join (dest file)).
Proof.
  intros Hin [_ Hpre].
  destruct (manifest_entry_cases file Hin) as [E|[E|[E|[E|E]]]];
    rewrite E in Hpre; literal_paths Hpre;
    apply prefix_cons_inv_1 in Hpre; discriminate Hpre.
Qed.

Lemma package_json_not_client : ¬ on_the_way (join "package.json") clientPath.
Proof.
  intros [_ Hpre]. literal_paths Hpre.
  apply prefix_cons_inv_1 in Hpre. discriminate Hpre.
Qed.

Lemma app_dirs_kept (q : path) :
  q = join "app" ∨ q = join "app/api" →
  ¬ Exists (λ f, join f `prefix_of` q) filesToDelete
  ∧ ¬ Exists (λ d, join d `prefix_of` q) dirsToClean
  ∧ on_the_way q (dirname (join "app/api/keep-alive/route.ts")).
Proof.
  intros [->| ->];
    (split_and!;
     [ by (apply (bool_decide_unpack _); vm_compute)
     | by (apply (bool_decide_unpack _); vm_compute)
     | split; [by vm_compute|by (apply (bool_decide_unpack _); vm_compute)] ]).
Qed.

Section first_installation.
Variable env : environment.

Lemma client_outside (w : world) (q : path) :
  ¬ on_the_way q clientPath →
  fs (checkAndCreateSupabaseClient env w).2 !! q = fs w !! q.
Proof.
  intros Hq. rewrite (client_run env w).
  destruct (existsSync (fs w) clientPath); cbn [snd fs]; [done|].
  by apply create_client_outside.
Qed.

Lemma before_install_outside (w : world) (q : path) :
  (∀ file, file ∈ filesToCopy → ¬ on_the_way q (join (dest file))) →
  ¬ on_the_way q clientPath →
  fs (before_install env w) !! q = fs w !! q.
Proof.
  intros Hfiles Hclient. unfold before_install.
  rewrite client_outside by done.
  rewrite after_copying_tree. by apply copy_turns_outside.
Qed.

(** The install step has nothing to do after the earlier steps when it
    had nothing to do before them: they do not touch [package.json]. *)
Lemma install_idle_later (w : world) :
  existsSync (fs w) (join "package.json") = false
  ∨ (∃ json, readJsonSync env (join "package.json") (fs w) = inr json ∧
             declares_client json) →
  installDependencies env (before_install env w)
  = (Resolved tt, before_install env w).
Proof.
  intros Hidle.
  assert (Hpkg : fs (before_install env w) !! join "package.json"
                 = fs w !! join "package.json").
  { apply before_install_outside;
      [apply package_json_not_managed|apply package_json_not_client]. }
  assert (Hread : readJsonSync env (join "package.json")
                    (fs (before_install env w))
                  = readJsonSync env (join "package.json") (fs w)).
  { unfold readJsonSync. rewrite !stat_lookup by (by vm_compute).
    by rewrite Hpkg. }
  rewrite install_run, (existsSync_agree _ _ _ Hpkg), Hread.
  destruct Hidle as [-> | (json & -> & Hd)]; [done|].
  destruct (existsSync (fs w) (join "package.json")); [|done].
  by destruct (decide (declares_client json)).
Qed.

Lemma uninstall_resolves (w : world) :
  (clean_turns env dirsToClean
     (delete_turns env filesToDelete (fs w)).2).1 = None →
  (uninstall env w).1 = Resolved tt.
Proof.
  intros Hnone. rewrite uninstall_run.
  destruct (clean_loop_turns env dirsToClean (before_cleanup env w))
    as [Hc _].
  rewrite before_cleanup_tree, Hnone in Hc.
  by destruct (for_of dirsToClean (clean_dir env) (before_cleanup env w))
    as [[[]|e] w3].
Qed.

Hypothesis Hdep : dependable env.
Variable w : world.
Hypothesis Hfresh : unprovisioned (fs w).

Lemma fresh_ready (file : manifest_entry) :
  file ∈ filesToCopy → ready env (fs w) file.
Proof.
  intros Hin. destruct Hdep as [Hno Htpl].
  destruct Hfresh as (Hf & Hd & Happ & Hapi).
  split_and!.
  - by apply Htpl.
  - destruct (manifest_entry_cases file Hin) as [E|[E|[E|[E|E]]]];
      rewrite E; by vm_compute.
  - apply (Hf (dest file)); [by apply manifest_path_of_entry|done].
  - intros q c Hway.
    destruct (on_the_way_dirs q file Hin Hway) as [->|[->|[->| ->]]].
    + apply Happ.
    + apply Hapi.
    + rewrite (Hd "app/api/keep-alive");
        [done|apply list_elem_of_here|done].
    + rewrite (Hd "config");
        [done|apply list_elem_of_further, list_elem_of_here|done].
Qed.

Lemma fresh_created :
  (copy_turns env filesToCopy (fs w)).1 = replicate 5 Created.
Proof.
  apply (copy_turns_all_created env (proj1 Hdep) filesToCopy (fs w)
           separate_filesToCopy).
  intros file Hin. by apply fresh_ready.
Qed.

Lemma fresh_copied (f : string) :
  f ∈ filesToDelete →
  ∃ c, (copy_turns env filesToCopy (fs w)).2 !! join f = Some (File c).
Proof.
  intros Hin. apply entry_of_manifest_path in Hin as (file & Hfile & ->).
  apply list_elem_of_lookup in Hfile as [i Hi].
  destruct (copy_turns_settled env filesToCopy (fs w)
              (copy_turns env filesToCopy (fs w)).2) as [_ Hall]; [done|].
  destruct (Hall i file Hi) as [_ Hcreated].
  destruct Hcreated as [_ (c & _ & Hc)]; [|by exists c].
  rewrite fresh_created. apply lookup_replicate_2.
  apply lookup_lt_Some in Hi. exact Hi.
Qed.

Lemma fresh_dirs (file : manifest_entry) (q : path) :
  file ∈ filesToCopy → on_the_way q (dirname (join (dest file))) →
  (copy_turns env filesToCopy (fs w)).2 !! q = Some Dir.
Proof.
  intros Hin Hway.
  apply (copy_turns_dirs env (proj1 Hdep) filesToCopy (fs w) file q
           separate_filesToCopy); [|done..].
  intros g Hg. by apply fresh_ready.
Qed.

Variable w1 : world.
Hypothesis Hw1 : fs w1 = fs (before_install env w).

Lemma installed_has_copies : (copy_turns env filesToCopy (fs w)).2 ⊆ fs w1.
Proof.
  rewrite Hw1. unfold before_install. rewrite <- after_copying_tree.
  apply client_grows.
Qed.

Lemma installed_all_deleted :
  (delete_turns env filesToDelete (fs w1)).1 = replicate 5 Deleted ∧
  ∀ q, (delete_turns env filesToDelete (fs w1)).2 !! q
       = if decide (Exists (λ f, join f `prefix_of` q) filesToDelete)
         then None else fs w1 !! q.
Proof.
  apply (delete_turns_all_deleted env (proj1 Hdep) filesToDelete (fs w1)
           apart_filesToDelete).
  intros f Hf. split.
  - destruct (fresh_copied f Hf) as [c Hc]. exists (File c).
    eapply lookup_weaken; [exact Hc|apply installed_has_copies].
  - apply list_elem_of_lookup in Hf as [i Hi].
    by eapply filesToDelete_below_root.
Qed.

Lemma installed_all_removed :
  (clean_turns env dirsToClean
     (delete_turns env filesToDelete (fs w1)).2).1 = None ∧
  ∀ q, (clean_turns env dirsToClean
          (delete_turns env filesToDelete (fs w1)).2).2 !! q
       = if decide (Exists (λ d, join d `prefix_of` q) dirsToClean)
         then None
         else (delete_turns env filesToDelete (fs w1)).2 !! q.
Proof.
  destruct installed_all_deleted as [_ Htree].
  apply (clean_turns_all_removed env (proj1 Hdep) dirsToClean _
           scattered_dirsToClean).
  intros d Hd.
  destruct (watched_is_above d Hd) as (Hne & Hnot & file & Hfile & Hway).
  split_and!; [|done|].
  - rewrite Htree, decide_False by done.
    eapply lookup_weaken; [|apply installed_has_copies].
    by eapply fresh_dirs.
  - apply children_nil. intros name. rewrite Htree.
    case_decide as Hex; [done|].
    rewrite Hw1. unfold before_install.
    rewrite client_outside by (by apply watched_not_client).
    rewrite after_copying_tree.
    rewrite copy_turns_outside.
    + destruct Hfresh as (_ & Hdirs & _).
      apply (Hdirs d); [done|]. by apply prefix_app_r.
    + intros g Hg Hg'. apply Hex, Exists_exists.
      exists (dest g). split; [by apply manifest_path_of_entry|].
      by apply below_watched.
Qed.

(** What is left when the installed files and the watched directories
    are gone. *)
Lemma installed_then_removed (q : path) :
  ¬ on_the_way q clientPath →
  (clean_turns env dirsToClean
     (delete_turns env filesToDelete (fs w1)).2).2 !! q
  = if decide (q = join "app" ∨ q = join "app/api") then Some Dir
    else fs w !! q.
Proof.
  intros Hclient.
  destruct installed_all_deleted as [_ Hdel].
  destruct installed_all_removed as [_ Hclean].
  rewrite Hclean, Hdel.
  assert (Hq : fs w1 !! q = (copy_turns env filesToCopy (fs w)).2 !! q).
  { rewrite Hw1. unfold before_install.
    rewrite client_outside by done. by rewrite after_copying_tree. }
  destruct Hfresh as (Hfiles & Hdirs & _).
  destruct (decide (q = join "app" ∨ q = join "app/api")) as [Happ|Happ].
  - destruct (app_dirs_kept q Happ) as (Hnf & Hnd & Hway).
    rewrite !decide_False by done. rewrite Hq.
    apply (fresh_dirs (Entry "route.ts" "app/api/keep-alive/route.ts"
                         "Created API route at app/api/keep-alive/route.ts"));
      [apply list_elem_of_here|exact Hway].
  - destruct (decide (Exists (λ d, join d `prefix_of` q) dirsToClean))
      as [Hd|Hd].
    { apply Exists_exists in Hd as (d & Hd & Hpre).
      symmetry. by apply (Hdirs d). }
    destruct (decide (Exists (λ f, join f `prefix_of` q) filesToDelete))
      as [Hf|Hf].
    { apply Exists_exists in Hf as (f & Hf & Hpre).
      symmetry. by apply (Hfiles f). }
    rewrite Hq. apply copy_turns_outside.
    intros file Hfile Hway.
    destruct (decide (q = join (dest file))) as [->|Hne].
    { apply Hf, Exists_exists. exists (dest file).
      split; [by apply manifest_path_of_entry|done]. }
    destruct (on_the_way_dirs q file Hfile (on_the_way_strict _ _ Hway Hne))
      as [E|[E|[E|E]]].
    + apply Happ. by left.
    + apply Happ. by right.
    + apply Hd, Exists_exists. exists "app/api/keep-alive".
      split; [apply list_elem_of_here|by rewrite E].
    + apply Hd, Exists_exists. exists "config".
      split; [apply list_elem_of_further, list_elem_of_here|by rewrite E].
Qed.

End first_installation.

(** X12. A first installation and its removal.  Take a project that holds
    nothing at a manifest path or below a watched directory and no regular
    file at [app] or [app/api], with every template shipped, no failing
    file-system call and an install step that has nothing to do.  Then
    [init] resolves and creates all five files; [uninstall], run next,
    resolves, deletes all five and takes both watched directories away;
    and apart from the client module and the directories above it, every
    path holds afterwards what it held before [init], except [app] and
    [app/api], which stay behind as directories. *)
Theorem uninstall_undoes_init (env : environment) (w : world) :
  dependable env → unprovisioned (fs w) →
  existsSync (fs w) (join "package.json") = false
  ∨ (∃ json, readJsonSync env (join "package.json") (fs w) = inr json ∧
             declares_client json) →
  (init env w).1 = Resolved tt
  ∧ provision_outcomes (printed (init env) w) = replicate 5 Created
  ∧ (uninstall env (init env w).2).1 = Resolved tt
  ∧ removal_outcomes (printed (uninstall env) (init env w).2)
    = replicate 5 Deleted
  ∧ ∀ q, ¬ on_the_way q clientPath →
      tree_after (uninstall env) (init env w).2 !! q
      = if decide (q = join "app" ∨ q = join "app/api") then Some Dir
        else fs w !! q.
Proof.
  intros Hdep Hfresh Hidle.
  assert (Hinit : init env w
                  = (Resolved tt,
                     World (fs (before_install env w))
                       (console (before_install env w)
                        ++ [LogSetupComplete]))).
  { by rewrite init_run_cut, install_idle_later. }
  assert (Hw1 : fs (init env w).2 = fs (before_install env w)).
  { by rewrite Hinit. }
  split_and!.
  - by rewrite Hinit.
  - rewrite init_outcomes. by apply fresh_created.
  - apply uninstall_resolves.
    by apply (installed_all_removed env Hdep w Hfresh _ Hw1).
  - rewrite uninstall_outcomes.
    by apply (installed_all_deleted env Hdep w Hfresh _ Hw1).
  - intros q Hq. rewrite uninstall_tree, before_cleanup_tree.
    by apply (installed_then_removed env Hdep w Hfresh _ Hw1).
Qed.

Lemma uninstall_undoes_init_witness :
  fs with_sources !! join "app/api" = None
  ∧ (uninstall calm (init calm with_sources).2).1 = Resolved tt
  ∧ tree_after (uninstall calm) (init calm with_sources).2
      !! join "app/page.tsx" = Some (File "// mine")
  ∧ tree_after (uninstall calm) (init calm with_sources).2
      !! join "app/api/keep-alive" = None
  ∧ tree_after (uninstall calm) (init calm with_sources).2
      !! join "app/api" = Some Dir.
Proof.
  destruct (uninstall_undoes_init calm with_sources)
    as (_ & _ & Hres & _ & Htree).
  - split; [done|]. intros file _. by eexists.
  - split_and!.
    + intros f q Hf [k ->].
      apply list_elem_of_In in Hf. unfold filesToDelete in Hf.
      cbn [In] in Hf.
      destruct Hf as [<-|[<-|[<-|[<-|[<-|[]]]]]];
        unfold with_sources; cbn [fs]; literal_goal; cbn [app];
        rewrite !lookup_insert_ne by discriminate;
        by rewrite lookup_singleton_ne by discriminate.
    + intros d q Hd [k ->].
      apply list_elem_of_In in Hd. unfold dirsToClean in Hd.
      cbn [In] in Hd.
      destruct Hd as [<-|[<-|[]]];
        unfold with_sources; cbn [fs]; literal_goal; cbn [app];
        rewrite !lookup_insert_ne by discriminate;
        by rewrite lookup_singleton_ne by discriminate.
    + intros c. by vm_compute.
    + intros c. by vm_compute.
  - left. reflexivity.
  - assert (Hout : ∀ q, head q = Some "app" → ¬ on_the_way q clientPath).
    { intros q Hq [_ Hpre]. literal_paths Hpre.
      destruct q as [|x q]; [done|]. injection Hq as ->.
      apply prefix_cons_inv_1 in Hpre. discriminate Hpre. }
    split_and!.
    + by vm_compute.
    + exact Hres.
    + rewrite (Htree (join "app/page.tsx")).
      * by vm_compute.
      * apply Hout. by vm_compute.
    + rewrite (Htree (join "app/api/keep-alive")).
      * by vm_compute.
      * apply Hout. by vm_compute.
    + rewrite (Htree (join "app/api")).
      * by vm_compute.
      * apply Hout. by vm_compute.
Defined.
